(** * Newmark-beta time stepping of the cantilever-beam notebooks

    A shallow embedding of the linear-algebra core of the notebooks
    [03-Dynamics/Newmark.ipynb] (the template, with the lumped-mass branch
    and the input validation cells) and of the worked-out notebook (the
    predictor, force assembly and corrector of the time loop, the critical
    time step).

    Scalars are real numbers: the rounding of the double-precision
    arithmetic of numpy and dolfin is not modelled.  Vectors are lists of
    reals (a [dolfin.GenericVector] restricted to its local values),
    matrices are lists of rows.  What dolfin assembles from the mesh (the
    mass and stiffness matrices, the external force vector at a given
    time) and the LU solver are inputs of the model.  The tip
    displacement, the stress projection and the XDMF export of each step
    read the fields without changing them and are left out. *)

From Stdlib Require Import String Reals Lra Lia Bool Arith List.
Import ListNotations.

Open Scope R_scope.

(** ** Lists as arrays *)

Fixpoint map2 {A B C : Type} (f : A -> B -> C) (l1 : list A) (l2 : list B)
  : list C :=
  match l1, l2 with
  | x :: l1', y :: l2' => f x y :: map2 f l1' l2'
  | _, _ => []
  end.

Fixpoint mapi_from {A B : Type} (k : nat) (f : nat -> A -> B) (l : list A)
  : list B :=
  match l with
  | [] => []
  | x :: l' => f k x :: mapi_from (S k) f l'
  end.

Definition mapi {A B : Type} (f : nat -> A -> B) (l : list A) : list B :=
  mapi_from 0 f l.

(** [l[i] = x]; the notebooks only assign inside the bounds of the
    array (numpy raises [IndexError] outside), where the list is left as
    it is here. *)
Fixpoint set_nth {A : Type} (i : nat) (x : A) (l : list A) : list A :=
  match l, i with
  | [], _ => []
  | _ :: l', O => x :: l'
  | y :: l', S i' => y :: set_nth i' x l'
  end.

(** ** Vectors and matrices (the dolfin linear-algebra calls used) *)

Definition vector := list R.
Definition matrix := list (list R).

Definition zeros (n : nat) : vector := repeat 0 n.

(** [y.axpy(alpha, x)]: [y <- alpha*x + y]. *)
Definition axpy (alpha : R) (x y : vector) : vector :=
  map2 (fun yi xi => alpha * xi + yi) y x.

Definition vsum (x : vector) : R := fold_right Rplus 0 x.

(** [x.inner(y)], the sum of the element-wise products. *)
Definition inner (x y : vector) : R := vsum (map2 Rmult x y).

(** [A.mult(x, y)]: [y <- A x]. *)
Definition mult (A : matrix) (x : vector) : vector :=
  map (fun row => inner row x) A.

(** [c*A] and [A + B] on assembled matrices. *)
Definition mscale (c : R) (A : matrix) : matrix := map (map (Rmult c)) A.
Definition madd (A B : matrix) : matrix := map2 (map2 Rplus) A B.

(** Entry [(i, j)] of a matrix, [A.array()[i, j]]. *)
Definition entry (A : matrix) (i j : nat) : R := nth j (nth i A []) 0.

Definition square (n : nat) (A : matrix) : Prop :=
  length A = n /\ Forall (fun row => length row = n) A.

Definition symmetric (n : nat) (A : matrix) : Prop :=
  forall i j, (i < n)%nat -> (j < n)%nat -> entry A i j = entry A j i.

(** A matrix is nonsingular when only the zero vector is sent to zero. *)
Definition nonsingular (n : nat) (A : matrix) : Prop :=
  forall x, length x = n -> mult A x = zeros n -> x = zeros n.

(** ** Dirichlet boundary conditions

    Every [dolfin.DirichletBC] of the notebooks is built from the constant
    [zero]; it is given by the degrees of freedom it constrains. *)

Definition DirichletBC := list nat.

Definition is_bc_dof (bc : DirichletBC) (i : nat) : bool :=
  existsb (Nat.eqb i) bc.

(** [bc.apply(b)] on a vector: [b[i] = 0] at each constrained dof. *)
Definition bc_apply_vector (bc : DirichletBC) (b : vector) : vector :=
  mapi (fun i bi => if is_bc_dof bc i then 0 else bi) b.

(** Row [i] of the identity, of the size of [row]. *)
Definition ident_row (i : nat) (row : vector) : vector :=
  mapi (fun j _ => if Nat.eqb j i then 1 else 0) row.

(** [bc.apply(A)] on a matrix: dolfin's [DirichletBC.apply] calls
    [GenericMatrix.ident] on the constrained rows, which zeroes each of
    these rows and puts one on its diagonal.  The other rows, and hence
    their entries in the constrained columns, are left as they are. *)
Definition bc_apply_matrix (bc : DirichletBC) (A : matrix) : matrix :=
  mapi (fun i row => if is_bc_dof bc i then ident_row i row else row) A.

(** [for bc in bcs: bc.apply(...)]. *)
Definition apply_bcs_vector (bcs : list DirichletBC) (b : vector) : vector :=
  fold_left (fun b' bc => bc_apply_vector bc b') bcs b.

Definition apply_bcs_matrix (bcs : list DirichletBC) (A : matrix) : matrix :=
  fold_left (fun A' bc => bc_apply_matrix bc A') bcs A.

(** A dof is constrained when one of the boundary conditions holds it. *)
Definition constrained (bcs : list DirichletBC) (i : nat) : bool :=
  existsb (fun bc => is_bc_dof bc i) bcs.

(** The elimination the specification describes for [apply_to_matrix]:
    constrained rows and constrained columns zeroed, one on the diagonal.
    It is stated here to be compared with [apply_bcs_matrix]. *)
Definition eliminate_rows_and_columns (bcs : list DirichletBC) (A : matrix)
  : matrix :=
  mapi (fun i row =>
          mapi (fun j x =>
                  if constrained bcs i || constrained bcs j
                  then (if Nat.eqb i j then 1 else 0)
                  else x) row) A.

(** ** The inputs of a notebook run *)

Record notebook := {
  (* material parameters *)
  E : R;
  rho : R;
  eta_m : R;
  eta_k : R;
  (* discretization parameters *)
  t_end : R;
  num_steps : nat;
  (* parameters of the Newmark-beta method *)
  beta : R;
  gamma : R;
  use_lumped_mass : bool;
  (* the values the validation cell asks its reader to insert *)
  beta_exp : R;
  gamma_exp : R;
  (* [mesh.rmin()] *)
  l_e : R;
  (* size of the function space [V] *)
  n_dofs : nat;
  (* [dolfin.assemble(mass(u, v))] and [dolfin.assemble(stiffness(u, v))] *)
  mass : matrix;
  stiffness : matrix;
  bcs : list DirichletBC;
  (* [dolfin.assemble(p_ext(...))] once [traction.t] is set to [t] *)
  p_ext : R -> vector;
  (* [dolfin.LUSolver(A).solve(a, f)], as a function of [A] and [f] *)
  lu_solve : matrix -> vector -> vector
}.

(** The assembled operators and the external force have the size of the
    function space. *)
Definition well_formed (nb : notebook) : Prop :=
  square (n_dofs nb) (mass nb) /\
  square (n_dofs nb) (stiffness nb) /\
  forall t, length (p_ext nb t) = n_dofs nb.

Inductive event : Type :=
| LUSolver_created (A : matrix)
| LUSolver_solved (A : matrix) (f a : vector).



(** The two variants of [compute_acceleration]. *)
Inductive acceleration_solver : Type :=
| Lumped (M_lumped_inv : vector)
| Implicit (A : matrix).

Record state := {
  u_vec : vector;
  v_vec : vector;
  a_vec : vector;
  E_damp : R;
  energies : matrix;
  trace : list event
}.

(** How a run of the notebook ends: after its last step, with the
    warnings it has issued, or on the first exception. *)
Inductive outcome : Type :=
| Finished (warnings : list string) (final : state)
| RuntimeError (msg : string)
| ZeroDivisionError.

Definition Rltb (x y : R) : bool := if Rlt_dec x y then true else false.
Definition Rgtb (x y : R) : bool := if Rgt_dec x y then true else false.

Definition atol : R := 1e-12.

Definition one_half : R := 0.5.

Section Run.

Variable nb : notebook.

(** *** Validation of the [use_lumped_mass] flag

    The template leaves [beta_exp] and [gamma_exp] to its reader; they are
    the fields [beta_exp] and [gamma_exp] of the notebook. *)
Definition validate_use_lumped_mass : option string :=
  let test_beta := Rltb (Rabs (beta nb - beta_exp nb)) atol in
  let test_gamma := Rltb (Rabs (gamma nb - gamma_exp nb)) atol in
  if use_lumped_mass nb && negb (test_beta && test_gamma)
  then Some "cannot use lumped mass in this case"%string
  else None.

(** *** Validation of the time step

    The template leaves the formula of [dt_crit] to its reader; it is the
    one of the worked-out notebook,
    [c_e = np.sqrt(E/float(rho)); l_e = mesh.rmin(); dt_crit = l_e/c_e].
    The test and the warning are the ones of the template.  The real
    numbers stand for the floating-point values when [E/rho] is not
    negative and [c_e] is not zero. *)
Definition dt : R := t_end nb / INR (num_steps nb).

Definition c_e : R := sqrt (E nb / rho nb).

Definition dt_crit : R := l_e nb / c_e.

Definition validate_time_step : list string :=
  if Rgtb dt dt_crit then ["simulation might be unstable"%string] else [].

(** *** Assembly *)

(** [damping(u, v) = eta_m*mass(u, v) + eta_k*stiffness(u, v)], assembled. *)
Definition damping : matrix :=
  madd (mscale (eta_m nb) (mass nb)) (mscale (eta_k nb) (stiffness nb)).

Definition C : matrix := apply_bcs_matrix (bcs nb) damping.
Definition K : matrix := apply_bcs_matrix (bcs nb) (stiffness nb).

(** The sum of the rows of [mass + one_half*dt*damping], by the action of
    the form on the constant [ones]. *)
Definition M_lumped : vector :=
  mult (madd (mass nb) (mscale (one_half * dt) damping))
       (repeat 1 (n_dofs nb)).

Definition M_lumped_inv : vector := map (fun m => 1 / m) M_lumped.

(** [M + gamma*dt*C + beta*dt**2*K], then [bc.apply] for each [bc]. *)
Definition effective_matrix : matrix :=
  apply_bcs_matrix (bcs nb)
    (madd (madd (mass nb) (mscale (gamma nb * dt) C))
          (mscale (beta nb * dt ^ 2) K)).

Definition build_solver : acceleration_solver * list event :=
  if use_lumped_mass nb
  then (Lumped M_lumped_inv, [])
  else (Implicit effective_matrix, [LUSolver_created effective_matrix]).

(** [compute_acceleration(f_vec, a_vec)].  The lumped variant reads the
    notebook variable [f], not its argument [f_vec]; the time loop calls it
    with [f] itself as [f_vec]. *)
Definition compute_acceleration (solver : acceleration_solver)
  (f f_vec : vector) : vector * list event :=
  match solver with
  | Lumped inv => (apply_bcs_vector (bcs nb) (map2 Rmult inv f), [])
  | Implicit A =>
      let a := lu_solve nb A f_vec in (a, [LUSolver_solved A f_vec a])
  end.

(** *** Time discretization *)

Definition initial_state (evs : list event) : state :=
  {| u_vec := zeros (n_dofs nb);
     v_vec := zeros (n_dofs nb);
     a_vec := zeros (n_dofs nb);
     E_damp := 0;
     energies := repeat (zeros 4) (num_steps nb + 1);
     trace := evs |}.

(** The body of [for n in range(num_steps)]. *)
Definition newmark_step (solver : acceleration_solver) (n : nat) (s : state)
  : state :=
  (* Predictor step *)
  let u1 := axpy dt (v_vec s) (u_vec s) in
  let u2 := axpy ((0.5 - beta nb) * dt ^ 2) (a_vec s) u1 in
  let v1 := axpy ((1 - gamma nb) * dt) (a_vec s) (v_vec s) in
  (* Update acceleration *)
  let f0 := p_ext nb (INR (n + 1) * dt) in
  let Cv := mult C v1 in
  let Ku := mult K u2 in
  let f1 := axpy (-1) Cv f0 in
  let f2 := axpy (-1) Ku f1 in
  let f3 := apply_bcs_vector (bcs nb) f2 in
  let (a1, evs) := compute_acceleration solver f3 f3 in
  (* Corrector step *)
  let u3 := axpy (beta nb * dt ^ 2) a1 u2 in
  let v2 := axpy (gamma nb * dt) a1 v1 in
  (* Energies *)
  let E_elas := 0.5 * inner u3 (mult (stiffness nb) u3) in
  let E_kin := 0.5 * inner v2 (mult (mass nb) v2) in
  let E_damp' := E_damp s + dt * inner v2 (mult damping v2) in
  let E_tot := E_elas + E_kin + E_damp' in
  {| u_vec := u3;
     v_vec := v2;
     a_vec := a1;
     E_damp := E_damp';
     energies := set_nth (n + 1) [E_elas; E_kin; E_damp'; E_tot] (energies s);
     trace := trace s ++ evs |}.

(** The first [k] iterations of the loop. *)
Definition steps (solver : acceleration_solver) (k : nat) (s : state)
  : state :=
  fold_left (fun s' n => newmark_step solver n s') (seq 0 k) s.

(** The state after [k] iterations of a run. *)
Definition state_after (k : nat) : state :=
  steps (fst build_solver) k (initial_state (snd build_solver)).

(** The notebook, cell after cell: the validation of the flag, then
    [dt = t_end/num_steps] and [E/float(rho)], which Python refuses to
    divide by zero, then the warning, the assembly and the time loop. *)
Definition simulate : outcome :=
  match validate_use_lumped_mass with
  | Some msg => RuntimeError msg
  | None =>
      if (num_steps nb =? 0)%nat then ZeroDivisionError
      else if Req_dec_T (rho nb) 0 then ZeroDivisionError
      else Finished validate_time_step (state_after (num_steps nb))
  end.

(** *** The vectors of one iteration

    What [u_vec], [v_vec] and [f] hold after the predictor and after the
    force assembly of iteration [n] entered in state [s]. *)

Definition u_predicted (s : state) : vector :=
  axpy ((0.5 - beta nb) * dt ^ 2) (a_vec s) (axpy dt (v_vec s) (u_vec s)).

Definition v_predicted (s : state) : vector :=
  axpy ((1 - gamma nb) * dt) (a_vec s) (v_vec s).

Definition f_assembled (n : nat) (s : state) : vector :=
  apply_bcs_vector (bcs nb)
    (axpy (-1) (mult K (u_predicted s))
       (axpy (-1) (mult C (v_predicted s)) (p_ext nb (INR (n + 1) * dt)))).

(** *** The quantities of one step, as the specification writes them *)

Definition u_tilde (s : state) : vector :=
  map (fun i => nth i (u_vec s) 0 + dt * nth i (v_vec s) 0
                + (1 / 2 - beta nb) * dt ^ 2 * nth i (a_vec s) 0)
      (seq 0 (n_dofs nb)).

Definition v_tilde (s : state) : vector :=
  map (fun i => nth i (v_vec s) 0 + (1 - gamma nb) * dt * nth i (a_vec s) 0)
      (seq 0 (n_dofs nb)).

Definition f_tilde (n : nat) (s : state) : vector :=
  map (fun i => if constrained (bcs nb) i then 0
                else nth i (p_ext nb (INR (n + 1) * dt)) 0
                     - nth i (mult C (v_tilde s)) 0
                     - nth i (mult K (u_tilde s)) 0)
      (seq 0 (n_dofs nb)).

(** The row of the energy table for the fields [u] and [v] and the
    accumulated damping energy [e_damp]. *)
Definition energy_row (u v : vector) (e_damp : R) : vector :=
  [1 / 2 * inner u (mult (stiffness nb) u);
   1 / 2 * inner v (mult (mass nb) v);
   e_damp;
   1 / 2 * inner u (mult (stiffness nb) u)
   + 1 / 2 * inner v (mult (mass nb) v) + e_damp].

(** *** Assumptions on a run *)

(** The three fields have the size of the function space. *)
Definition sized (s : state) : Prop :=
  length (u_vec s) = n_dofs nb /\
  length (v_vec s) = n_dofs nb /\
  length (a_vec s) = n_dofs nb.

(** The LU solver returns a solution of the right size for every
    right-hand side. *)
Definition lu_solves (A : matrix) : Prop :=
  forall f, length f = n_dofs nb ->
            length (lu_solve nb A f) = n_dofs nb /\
            mult A (lu_solve nb A f) = f.

(** In the implicit variant the LU solver solves the effective system. *)
Definition solver_ok : Prop :=
  use_lumped_mass nb = false -> lu_solves effective_matrix.

End Run.

(** ** Two small notebooks

    A bar with two dofs, clamped at dof 0 and loaded at dof 1, with a
    direct solver for two-by-two systems (Cramer's rule). *)

Definition cramer2 (A : matrix) (f : vector) : vector :=
  match A, f with
  | [[a; b]; [c; d]], [f0; f1] =>
      [(d * f0 - b * f1) / (a * d - b * c);
       (a * f1 - c * f0) / (a * d - b * c)]
  | _, _ => f
  end.

Definition bar_implicit : notebook :=
  {| E := 1; rho := 1; eta_m := 0; eta_k := 0;
     t_end := 2; num_steps := 2;
     beta := 0.25; gamma := 0.5;
     use_lumped_mass := false;
     beta_exp := 0; gamma_exp := 0.5;
     l_e := 1;
     n_dofs := 2;
     mass := [[2; 1]; [1; 2]];
     stiffness := [[1; -1]; [-1; 1]];
     bcs := [[0%nat]];
     p_ext := fun t => [0; t];
     lu_solve := cramer2 |}.

Definition bar_lumped : notebook :=
  {| E := 1; rho := 1; eta_m := 0; eta_k := 0;
     t_end := 2.02; num_steps := 2;
     beta := 0; gamma := 0.5;
     use_lumped_mass := true;
     beta_exp := 0; gamma_exp := 0.5;
     l_e := 1;
     n_dofs := 2;
     mass := [[2; 1]; [1; 2]];
     stiffness := [[1; -1]; [-1; 1]];
     bcs := [[0%nat]];
     p_ext := fun t => [0; t];
     lu_solve := cramer2 |}.

(** The same bar with [beta] exactly at the tolerance. *)
Definition bar_at_tolerance : notebook :=
  {| E := 1; rho := 1; eta_m := 0; eta_k := 0;
     t_end := 2; num_steps := 2;
     beta := 1e-12; gamma := 0.5;
     use_lumped_mass := true;
     beta_exp := 0; gamma_exp := 0.5;
     l_e := 1;
     n_dofs := 2;
     mass := [[2; 1]; [1; 2]];
     stiffness := [[1; -1]; [-1; 1]];
     bcs := [[0%nat]];
     p_ext := fun t => [0; t];
     lu_solve := cramer2 |}.

(** The bar at rest: no external force. *)
Definition bar_at_rest (lumped : bool) : notebook :=
  {| E := 1; rho := 1; eta_m := 0; eta_k := 0;
     t_end := 2; num_steps := 2;
     beta := if lumped then 0 else 0.25; gamma := 0.5;
     use_lumped_mass := lumped;
     beta_exp := 0; gamma_exp := 0.5;
     l_e := 1;
     n_dofs := 2;
     mass := [[2; 1]; [1; 2]];
     stiffness := [[1; -1]; [-1; 1]];
     bcs := [[0%nat]];
     p_ext := fun _ => [0; 0];
     lu_solve := cramer2 |}.

(** Evaluation of a notebook on concrete inputs: the lists are computed,
    the real numbers are left to [lra]. *)
Ltac unfold_bar :=
  cbv -[Rplus Rmult Rminus Ropp Rinv Rdiv IZR sqrt Rabs pow Rlt_dec Rgt_dec
        Rlt Rgt Rle Rge].

Ltac list_eq :=
  repeat match goal with
         | |- _ :: _ = _ :: _ => apply (f_equal2 cons)
         | |- @nil _ = @nil _ => reflexivity
         end.

Ltac real_list_eq := list_eq; try (simpl pow; lra).

(** ** More of the notebooks *)

(** Sum, difference and multiple of vectors, to state how the fields of
    a run combine. *)
Definition vadd (x y : vector) : vector := map2 Rplus x y.
Definition vsub (x y : vector) : vector := map2 Rminus x y.
Definition vscale (c : R) (x : vector) : vector := map (Rmult c) x.

(** [times = dt*np.arange(num_steps+1, dtype=np.float64)]. *)
Definition times (nb : notebook) : vector :=
  map (fun k => dt nb * INR k) (seq 0 (num_steps nb + 1)).

(** The value of the traction expression
    ["t <= t_c ? T_max*t/t_c : 0"] at time [t]. *)
Definition traction_value (t_c T_max t : R) : R :=
  if Rle_dec t t_c then T_max * t / t_c else 0.

(** [dolfin.assemble(p_ext(...))] for the traction of the notebooks, which
    is uniform on the loaded face: the assembled vector is the value of the
    traction times the vector [unit_load] assembled for a unit traction. *)
Definition ramp_load (t_c T_max : R) (unit_load : vector) (t : R) : vector :=
  vscale (traction_value t_c T_max t) unit_load.

(** The same notebook run with another external force. *)
Definition with_load (nb : notebook) (load : R -> vector) : notebook :=
  {| E := E nb; rho := rho nb; eta_m := eta_m nb; eta_k := eta_k nb;
     t_end := t_end nb; num_steps := num_steps nb;
     beta := beta nb; gamma := gamma nb;
     use_lumped_mass := use_lumped_mass nb;
     beta_exp := beta_exp nb; gamma_exp := gamma_exp nb;
     l_e := l_e nb;
     n_dofs := n_dofs nb;
     mass := mass nb;
     stiffness := stiffness nb;
     bcs := bcs nb;
     p_ext := load;
     lu_solve := lu_solve nb |}.

(** The total energy of a state, as the loop computes [E_tot]. *)
Definition total_energy (nb : notebook) (s : state) : R :=
  1 / 2 * inner (u_vec s) (mult (stiffness nb) (u_vec s))
  + 1 / 2 * inner (v_vec s) (mult (mass nb) (v_vec s))
  + E_damp s.

(** The sum of [f 0], ..., [f (n-1)]. *)
Fixpoint bigsum (n : nat) (f : nat -> R) : R :=
  match n with
  | O => 0
  | S m => bigsum m f + f m
  end.

(** The implicit bar under the ramp traction of the notebooks, cut off at
    [t_c = 1], over four steps of [dt = 1]. *)
Definition bar_ramp : notebook :=
  {| E := 1; rho := 1; eta_m := 0; eta_k := 0;
     t_end := 4; num_steps := 4;
     beta := 0.25; gamma := 0.5;
     use_lumped_mass := false;
     beta_exp := 0; gamma_exp := 0.5;
     l_e := 1;
     n_dofs := 2;
     mass := [[2; 1]; [1; 2]];
     stiffness := [[1; -1]; [-1; 1]];
     bcs := [[0%nat]];
     p_ext := ramp_load 1 1 [0; 1];
     lu_solve := cramer2 |}.

(** [x] is the combination [c1 x1 + c2 x2] of vectors of size [n]. *)
Definition combines (n : nat) (c1 c2 : R) (x x1 x2 : vector) : Prop :=
  length x = n /\ length x1 = n /\ length x2 = n /\
  forall i, (i < n)%nat -> nth i x 0 = c1 * nth i x1 0 + c2 * nth i x2 0.

Definition lincomb (c1 : R) (x1 : vector) (c2 : R) (x2 : vector) : vector :=
  vadd (vscale c1 x1) (vscale c2 x2).

(** ** Material parameters *)

(** [mu = E/(2.*(1.+nu))], [lambda_ = E*nu/((1.+nu)*(1.-2.*nu))] and the
    plane-stress value [2*lambda_*mu/(lambda_+2*mu)]. *)
Definition lame_mu (E nu : R) : R := E / (2 * (1 + nu)).

Definition lame_lambda (E nu : R) : R := E * nu / ((1 + nu) * (1 - 2 * nu)).

Definition plane_stress (lambda mu : R) : R :=
  2 * lambda * mu / (lambda + 2 * mu).

(** The cell that sets [mu] and [lambda_]: the two quotients of Python
    floats raise [ZeroDivisionError] (here [None]) on a zero divisor; the
    plane-stress value, taken when [dim == 2], is a quotient of dolfin
    constants and is only evaluated at assembly. *)
Definition lame_parameters (dim : nat) (E nu : R) : option (R * R) :=
  if Req_dec_T (2 * (1 + nu)) 0 then None
  else if Req_dec_T ((1 + nu) * (1 - 2 * nu)) 0 then None
  else Some (lame_mu E nu,
             if (dim =? 2)%nat
             then plane_stress (lame_lambda E nu) (lame_mu E nu)
             else lame_lambda E nu).

(** ** Geometry and direction of the traction *)

Inductive setup_outcome : Type :=
| SetupDone (mesh_dim : nat) (traction : vector) (n_bcs : nat)
| ValueError
| IndexError.

(** [l[i] = x] for a Python index, which counts from the end when it is
    negative; [None] is [IndexError]. *)
Definition py_setitem (l : vector) (i : Z) (x : R) : option vector :=
  let n := Z.of_nat (length l) in
  if (0 <=? i)%Z && (i <? n)%Z then Some (set_nth (Z.to_nat i) x l)
  else if (- n <=? i)%Z && (i <? 0)%Z then Some (set_nth (Z.to_nat (n + i)) x l)
  else None.

(** The cells that depend on [dim] and [T_dir]: the mesh
    ([ValueError] unless [dim] is 2 or 3), the boundary conditions (two
    more when [T_dir == 0]) and the traction
    [expr = dim*["0",]; expr[T_dir] = "t <= t_c ? T_max*t/t_c : 0"],
    given here by its value at time [t]. *)
Definition setup (dim : nat) (T_dir : Z) (t_c T_max t : R) : setup_outcome :=
  if (dim =? 2)%nat || (dim =? 3)%nat then
    let n_bcs := if (T_dir =? 0)%Z then 3%nat else 1%nat in
    match py_setitem (repeat 0 dim) T_dir (traction_value t_c T_max t) with
    | Some traction => SetupDone dim traction n_bcs
    | None => IndexError
    end
  else ValueError.

(** ** The constitutive law, at a point

    The forms of the notebooks are built from tensors of size [dim] at a
    point of the mesh: the gradient of the displacement is the input. *)

Definition tensor_of (d : nat) (f : nat -> nat -> R) : matrix :=
  map (fun i => map (fun j => f i j) (seq 0 d)) (seq 0 d).

(** [dolfin.Identity(dim)], [dolfin.tr], the transpose, [dolfin.sym] and
    [dolfin.inner] of two tensors. *)
Definition Identity (d : nat) : matrix :=
  tensor_of d (fun i j => if Nat.eqb i j then 1 else 0).

Definition tr (d : nat) (A : matrix) : R := bigsum d (fun i => entry A i i).

Definition transpose (d : nat) (A : matrix) : matrix :=
  tensor_of d (fun i j => entry A j i).

Definition sym (d : nat) (A : matrix) : matrix :=
  mscale 0.5 (madd A (transpose d A)).

Definition tensor_inner (d : nat) (A B : matrix) : R :=
  bigsum d (fun i => bigsum d (fun j => entry A i j * entry B i j)).

(** [stress_strain(eps) = lambda_*dolfin.tr(eps)*I2 + 2.*mu*eps]. *)
Definition stress_strain (d : nat) (lambda mu : R) (eps : matrix) : matrix :=
  madd (mscale (lambda * tr d eps) (Identity d)) (mscale (2 * mu) eps).

(** [strain_displacement(u) = dolfin.sym(dolfin.grad(u))], from the
    gradient. *)
Definition strain_displacement (d : nat) (grad_u : matrix) : matrix :=
  sym d grad_u.

(** ** The Newton-Raphson solver

    [newton_solver] of [02-Nonlinear-Elasticity/NewtonRaphson-Complete.ipynb].
    The finite-element functions are values of a type [U]; solving the
    linearized problem at [u] for the increment, adding the increment and
    the two norms are inputs of the model. *)

Section NewtonSolver.

Variable U : Type.
(* [delta_u] after [linear_solver.solve()], for the current [u] *)
Variable solve_increment : U -> U.
(* [u + delta_u] *)
Variable add : U -> U -> U.
(* [dolfin.norm(., "L2")] *)
Variable norm : U -> R.
(* the norm of the assembled residual with the boundary conditions applied *)
Variable residual_norm : U -> R.

(** The arguments of one call of [monitor]. *)
Record monitor_call := {
  mc_iteration : nat;
  mc_u : U;
  mc_norm_u : R;
  mc_norm_delta_u : R;
  mc_norm_residual : R
}.

(** [return k], the [RuntimeError] of the [else] clause of the loop with
    the two norms of its message, or the [UnboundLocalError] that reading
    these norms raises when the loop has not run. *)
Inductive newton_outcome : Type :=
| Returned (k : nat)
| CouldNotConverge (norm_u norm_delta_u : R)
| UnboundLocalError.

(** [for k in range(max_iter)] with [remaining] iterations to go; [last]
    holds [norm_u] and [norm_delta_u] once they are assigned, [calls] the
    calls made to [monitor]. *)
Fixpoint newton_iterations (remaining k : nat) (rtol atol : R) (u : U)
  (last : option (R * R)) (calls : list monitor_call)
  : newton_outcome * U * list monitor_call :=
  match remaining with
  | O =>
      (match last with
       | Some (norm_u, norm_delta_u) => CouldNotConverge norm_u norm_delta_u
       | None => UnboundLocalError
       end, u, calls)
  | S remaining' =>
      let delta_u := solve_increment u in
      let u' := add u delta_u in
      let norm_delta_u := norm delta_u in
      let norm_u := norm u' in
      let norm_residual := residual_norm u' in
      let calls' :=
        calls ++ [{| mc_iteration := k; mc_u := u'; mc_norm_u := norm_u;
                     mc_norm_delta_u := norm_delta_u;
                     mc_norm_residual := norm_residual |}] in
      if Rle_dec norm_delta_u (rtol * norm_u + atol)
      then (Returned k, u', calls')
      else newton_iterations remaining' (S k) rtol atol u'
             (Some (norm_u, norm_delta_u)) calls'
  end.

(** [newton_solver(u, max_iter, rtol, atol, monitor)]: the outcome, the
    function [u] as the call leaves it, and the calls of [monitor]. *)
Definition newton_solver (u : U) (max_iter : nat) (rtol atol : R)
  : newton_outcome * U * list monitor_call :=
  newton_iterations max_iter 0 rtol atol u None [].

(** The iterates [u_0 = u], [u_{j+1} = u_j + delta_u(u_j)]. *)
Definition newton_update (u : U) : U := add u (solve_increment u).

Fixpoint iterate (j : nat) (u : U) : U :=
  match j with
  | O => u
  | S j' => newton_update (iterate j' u)
  end.

(** The stopping criterion of the iteration that starts from [u]. *)
Definition converged (rtol atol : R) (u : U) : Prop :=
  norm (solve_increment u) <= rtol * norm (newton_update u) + atol.

(** The call of [monitor] in iteration [j] of a solve started at [u]. *)
Definition call_of (u : U) (j : nat) : monitor_call :=
  {| mc_iteration := j;
     mc_u := iterate (S j) u;
     mc_norm_u := norm (iterate (S j) u);
     mc_norm_delta_u := norm (solve_increment (iterate j u));
     mc_norm_residual := residual_norm (iterate (S j) u) |}.

End NewtonSolver.

(** A scalar problem for [newton_solver]: the increment to the solution 1
    of a linear equation, and the constant increment 1, which never
    meets the criterion. *)
Definition newton_linear (u : R) : R := 1 - u.
Definition newton_drift (u : R) : R := 1.

(** [my_monitor] appends a copy of [u] to the list [iterates] at each
    call; [iterates] after a solve, from [iterates] before it. *)
Definition my_monitor_iterates (U : Type) (iterates : list U)
  (calls : list (monitor_call U)) : list U :=
  iterates ++ map (@mc_u U) calls.

(** ** Load stepping with the Newton-Raphson solver

    The validation loop
    [for (i, t) in enumerate(loads): B.t = -t; newton_solver(u); displ[i] = ...]:
    the increment depends on the load [B.t], [newton_solver] is called
    with its default arguments and no monitor, and an exception ends the
    loop. *)

Inductive stepping_outcome : Type :=
| AllSolved
| Raised (i : nat) (e : newton_outcome).

Section LoadStepping.

Variable U : Type.
(* the increment for the body force [B.t] and the current [u] *)
Variable solve_at : R -> U -> U.
Variable add : U -> U -> U.
Variable norm : U -> R.
Variable residual_norm : U -> R.
(* [dolfin.assemble(u[1]*ds(2))/Ly] *)
Variable end_displacement : U -> R.

Fixpoint load_stepping (loads : list R) (i : nat) (u : U) (displ : vector)
  : stepping_outcome * U * vector :=
  match loads with
  | [] => (AllSolved, u, displ)
  | t :: loads' =>
      match newton_solver U (solve_at (- t)) add norm residual_norm
              u 100 1e-6 1e-6 with
      | (Returned _, u', _) =>
          load_stepping loads' (S i) u'
            (set_nth i (end_displacement u') displ)
      | (e, u', _) => (Raised i e, u', displ)
      end
  end.

(** [displ = np.zeros_like(loads)], then the loop from [u]. *)
Definition validation_run (loads : list R) (u : U)
  : stepping_outcome * U * vector :=
  load_stepping loads 0 u (zeros (length loads)).

End LoadStepping.


(** ** The neo-Hookean energy, at a point

    The kinematics and the strain energy of
    [02-Nonlinear-Elasticity/NewtonRaphson-Complete.ipynb], for tensors
    of size 2: [I = ufl.Identity(2)], [F = I + grad(u)], [C = F.T*F],
    [Ic = tr(C)], [J = det(F)], [E = 1/2*(C - I)]. *)

Definition msub (A B : matrix) : matrix := map2 (map2 Rminus) A B.

(** The product [A*B] of two tensors. *)
Definition tensor_mul (d : nat) (A B : matrix) : matrix :=
  tensor_of d (fun i j => bigsum d (fun k => entry A i k * entry B k j)).

(** [ufl.det] of a tensor of size 2. *)
Definition det (A : matrix) : R :=
  entry A 0 0 * entry A 1 1 - entry A 0 1 * entry A 1 0.

Definition deformation_gradient (grad_u : matrix) : matrix :=
  madd (Identity 2) grad_u.

Definition right_cauchy_green (F : matrix) : matrix :=
  tensor_mul 2 (transpose 2 F) F.

Definition green_lagrange (F : matrix) : matrix :=
  mscale (1 / 2) (msub (right_cauchy_green F) (Identity 2)).

(** [psi = (mu/2)*(Ic-2) - mu*ufl.ln(J) + (lmbda/2)*(ufl.ln(J))**2], as a
    function of the variable [F]; the logarithm has no value ([None])
    unless [J > 0]. *)
Definition psi (mu lmbda : R) (F : matrix) : option R :=
  let Ic := tr 2 (right_cauchy_green F) in
  let J := det F in
  if Rlt_dec 0 J
  then Some (mu / 2 * (Ic - 2) - mu * ln J + lmbda / 2 * ln J ^ 2)
  else None.

(** The rotation of angle [theta], by its cosine and sine. *)
Definition rotation (c s : R) : matrix := [[c; - s]; [s; c]].


(** The implicit bar with mass-proportional damping, and a state in
    motion in which to enter an iteration: the free end displaced and
    moving, some energy already dissipated, and two rows of the energy
    table marked. *)
Definition bar_damped : notebook :=
  {| E := 1; rho := 1; eta_m := 1; eta_k := 0;
     t_end := 2; num_steps := 2;
     beta := 0.25; gamma := 0.5;
     use_lumped_mass := false;
     beta_exp := 0; gamma_exp := 0.5;
     l_e := 1;
     n_dofs := 2;
     mass := [[2; 1]; [1; 2]];
     stiffness := [[1; -1]; [-1; 1]];
     bcs := [[0%nat]];
     p_ext := fun t => [0; t];
     lu_solve := cramer2 |}.

Definition state_in_motion : state :=
  {| u_vec := [0; 1];
     v_vec := [0; 1];
     a_vec := [0; 0];
     E_damp := 1;
     energies := [[0; 0; 0; 0]; [7; 7; 7; 7]; [9; 9; 9; 9]];
     trace := [] |}.


(** A matrix is positive definite when [x.inner(A*x)] is positive for
    every vector but zero. *)
Definition positive_definite (n : nat) (A : matrix) : Prop :=
  forall x, length x = n -> x <> zeros n -> 0 < inner x (mult A x).

(** * Properties *)

(** ** Lists as arrays *)

Lemma length_map2 {A B C : Type} (f : A -> B -> C) (l1 : list A) (l2 : list B) :
  length (map2 f l1 l2) = Nat.min (length l1) (length l2).
Proof.
  revert l2; induction l1 as [|x l1 IH]; intros [|y l2]; simpl; auto.
Qed.

Lemma nth_map2 {A B C : Type} (f : A -> B -> C) (l1 : list A) (l2 : list B)
  (i : nat) (d1 : A) (d2 : B) (d : C) :
  (i < length l1)%nat -> (i < length l2)%nat ->
  nth i (map2 f l1 l2) d = f (nth i l1 d1) (nth i l2 d2).
Proof.
  revert l2 i; induction l1 as [|x l1 IH]; intros [|y l2] [|i]; simpl;
    intros H1 H2; try lia; auto.
  apply IH; lia.
Qed.

Lemma length_mapi_from {A B : Type} (f : nat -> A -> B) (l : list A) (k : nat) :
  length (mapi_from k f l) = length l.
Proof.
  revert k; induction l as [|x l IH]; intros k; simpl; auto.
Qed.

Lemma nth_mapi_from {A B : Type} (f : nat -> A -> B) (l : list A)
  (k i : nat) (d : A) (d' : B) :
  (i < length l)%nat ->
  nth i (mapi_from k f l) d' = f (k + i)%nat (nth i l d).
Proof.
  revert k i; induction l as [|x l IH]; intros k [|i]; simpl; intros H;
    try lia.
  - now rewrite Nat.add_0_r.
  - rewrite IH by lia. f_equal. lia.
Qed.

Lemma length_mapi {A B : Type} (f : nat -> A -> B) (l : list A) :
  length (mapi f l) = length l.
Proof. apply length_mapi_from. Qed.

Lemma nth_mapi {A B : Type} (f : nat -> A -> B) (l : list A)
  (i : nat) (d : A) (d' : B) :
  (i < length l)%nat -> nth i (mapi f l) d' = f i (nth i l d).
Proof. intros H. unfold mapi. now rewrite nth_mapi_from with (d := d). Qed.

Lemma length_set_nth {A : Type} (i : nat) (x : A) (l : list A) :
  length (set_nth i x l) = length l.
Proof.
  revert i; induction l as [|y l IH]; intros [|i]; simpl; auto.
Qed.

Lemma nth_set_nth_eq {A : Type} (i : nat) (x : A) (l : list A) (d : A) :
  (i < length l)%nat -> nth i (set_nth i x l) d = x.
Proof.
  revert i; induction l as [|y l IH]; intros [|i]; simpl; intros H;
    try lia; auto.
  apply IH; lia.
Qed.

Lemma nth_set_nth_neq {A : Type} (i j : nat) (x : A) (l : list A) (d : A) :
  i <> j -> nth j (set_nth i x l) d = nth j l d.
Proof.
  revert i j; induction l as [|y l IH]; intros [|i] [|j]; simpl; intros H;
    try congruence; auto.
Qed.

(** A list is determined by its length and its elements. *)
Lemma list_eq_nth {A : Type} (d : A) (l1 l2 : list A) :
  length l1 = length l2 ->
  (forall i, (i < length l1)%nat -> nth i l1 d = nth i l2 d) ->
  l1 = l2.
Proof.
  revert l2; induction l1 as [|x l1 IH]; intros [|y l2]; simpl;
    intros Hlen Hnth; try discriminate; auto.
  f_equal.
  - apply (Hnth 0%nat); lia.
  - apply IH; [lia|]. intros i Hi. apply (Hnth (S i)); lia.
Qed.

(** ** Vectors *)

Lemma length_zeros (n : nat) : length (zeros n) = n.
Proof. apply repeat_length. Qed.

Lemma nth_zeros (n i : nat) : nth i (zeros n) 0 = 0.
Proof.
  unfold zeros. destruct (Nat.lt_ge_cases i n) as [H|H].
  - now apply nth_repeat_lt.
  - apply nth_overflow. now rewrite repeat_length.
Qed.

Lemma vector_zero (n : nat) (x : vector) :
  length x = n -> (forall i, (i < n)%nat -> nth i x 0 = 0) -> x = zeros n.
Proof.
  intros Hlen H. apply (list_eq_nth 0).
  - now rewrite length_zeros.
  - intros i Hi. rewrite nth_zeros. apply H. lia.
Qed.

Lemma length_axpy (alpha : R) (x y : vector) :
  length (axpy alpha x y) = Nat.min (length y) (length x).
Proof. apply length_map2. Qed.

Lemma length_axpy_n (n : nat) (alpha : R) (x y : vector) :
  length x = n -> length y = n -> length (axpy alpha x y) = n.
Proof. intros Hx Hy. rewrite length_axpy. lia. Qed.

Lemma nth_axpy (alpha : R) (x y : vector) (i : nat) :
  (i < length x)%nat -> (i < length y)%nat ->
  nth i (axpy alpha x y) 0 = alpha * nth i x 0 + nth i y 0.
Proof.
  intros Hx Hy. unfold axpy.
  now rewrite nth_map2 with (d1 := 0) (d2 := 0).
Qed.

Lemma inner_nil_r (x : vector) : inner x [] = 0.
Proof. destruct x; reflexivity. Qed.

Lemma inner_cons (a b : R) (x y : vector) :
  inner (a :: x) (b :: y) = a * b + inner x y.
Proof. reflexivity. Qed.

Lemma inner_zeros_r (x : vector) (n : nat) : inner x (zeros n) = 0.
Proof.
  revert n; induction x as [|a x IH]; intros [|n]; try reflexivity.
  change (zeros (S n)) with (0 :: zeros n). rewrite inner_cons, IH. lra.
Qed.

Lemma inner_ones (x : vector) (n : nat) :
  length x = n -> inner x (repeat 1 n) = vsum x.
Proof.
  revert n; induction x as [|a x IH]; intros [|n] H; simpl in H;
    try discriminate; try reflexivity.
  simpl repeat. rewrite inner_cons, IH by lia. simpl. lra.
Qed.

Lemma vsum_map2_plus (x y : vector) :
  length x = length y -> vsum (map2 Rplus x y) = vsum x + vsum y.
Proof.
  revert y; induction x as [|a x IH]; intros [|b y] H; simpl in H;
    try discriminate; simpl.
  - lra.
  - rewrite IH by lia. lra.
Qed.

Lemma nth_map_Rmult (c : R) (x : vector) (i : nat) :
  nth i (map (Rmult c) x) 0 = c * nth i x 0.
Proof.
  revert i; induction x as [|a x IH]; intros [|i]; simpl; auto; lra.
Qed.

Lemma vsum_map_mult (c : R) (x : vector) :
  vsum (map (Rmult c) x) = c * vsum x.
Proof.
  induction x as [|a x IH]; simpl; [lra | rewrite IH; lra].
Qed.

(** ** Matrices *)

Lemma length_mult (A : matrix) (x : vector) : length (mult A x) = length A.
Proof. apply length_map. Qed.

Lemma nth_mult (A : matrix) (x : vector) (i : nat) :
  nth i (mult A x) 0 = inner (nth i A []) x.
Proof.
  unfold mult.
  change 0 with ((fun row => inner row x) []) at 1.
  apply map_nth.
Qed.

Lemma mult_zeros (A : matrix) (n : nat) : mult A (zeros n) = zeros (length A).
Proof.
  apply vector_zero.
  - apply length_mult.
  - intros i _. rewrite nth_mult. apply inner_zeros_r.
Qed.

Lemma square_length (n : nat) (A : matrix) : square n A -> length A = n.
Proof. now intros [H _]. Qed.

Lemma square_row (n : nat) (A : matrix) (i : nat) :
  square n A -> (i < n)%nat -> length (nth i A []) = n.
Proof.
  intros [Hlen Hrows] Hi. rewrite Forall_forall in Hrows.
  apply Hrows, nth_In. lia.
Qed.

Lemma square_intro (n : nat) (A : matrix) :
  length A = n ->
  (forall i, (i < n)%nat -> length (nth i A []) = n) ->
  square n A.
Proof.
  intros Hlen Hrows. split; [assumption|].
  apply Forall_forall. intros row Hin.
  destruct (In_nth _ _ [] Hin) as (i & Hi & <-). apply Hrows. lia.
Qed.

Lemma nth_mscale (c : R) (A : matrix) (i : nat) :
  nth i (mscale c A) [] = map (Rmult c) (nth i A []).
Proof.
  unfold mscale. change [] with (map (Rmult c) []) at 1. apply map_nth.
Qed.

Lemma square_mscale (n : nat) (c : R) (A : matrix) :
  square n A -> square n (mscale c A).
Proof.
  intros HA. apply square_intro.
  - unfold mscale. rewrite length_map. now apply square_length.
  - intros i Hi. rewrite nth_mscale, length_map. now apply square_row.
Qed.

Lemma nth_madd (n : nat) (A B : matrix) (i : nat) :
  square n A -> square n B -> (i < n)%nat ->
  nth i (madd A B) [] = map2 Rplus (nth i A []) (nth i B []).
Proof.
  intros HA HB Hi. unfold madd.
  apply nth_map2; [rewrite (square_length _ _ HA) | rewrite (square_length _ _ HB)];
    assumption.
Qed.

Lemma square_madd (n : nat) (A B : matrix) :
  square n A -> square n B -> square n (madd A B).
Proof.
  intros HA HB. apply square_intro.
  - unfold madd. rewrite length_map2, (square_length _ _ HA), (square_length _ _ HB).
    lia.
  - intros i Hi. rewrite (nth_madd _ _ _ _ HA HB Hi), length_map2.
    rewrite (square_row _ _ _ HA Hi), (square_row _ _ _ HB Hi). lia.
Qed.

Lemma entry_mscale (n : nat) (c : R) (A : matrix) (i j : nat) :
  square n A -> (i < n)%nat -> (j < n)%nat ->
  entry (mscale c A) i j = c * entry A i j.
Proof.
  intros HA Hi Hj. unfold entry. rewrite nth_mscale.
  replace 0 with (c * 0) at 1 by lra.
  now rewrite map_nth.
Qed.

(** ** Boundary conditions on vectors *)

Lemma length_bc_apply_vector (bc : DirichletBC) (b : vector) :
  length (bc_apply_vector bc b) = length b.
Proof. apply length_mapi. Qed.

Lemma nth_bc_apply_vector (bc : DirichletBC) (b : vector) (i : nat) :
  nth i (bc_apply_vector bc b) 0 = if is_bc_dof bc i then 0 else nth i b 0.
Proof.
  destruct (Nat.lt_ge_cases i (length b)) as [H|H].
  - unfold bc_apply_vector. now rewrite nth_mapi with (d := 0).
  - rewrite !nth_overflow; [now destruct (is_bc_dof bc i) | lia |].
    now rewrite length_bc_apply_vector.
Qed.

Lemma length_apply_bcs_vector (bcs : list DirichletBC) (b : vector) :
  length (apply_bcs_vector bcs b) = length b.
Proof.
  unfold apply_bcs_vector. revert b.
  induction bcs as [|bc bcs IH]; intros b; simpl; [reflexivity|].
  now rewrite IH, length_bc_apply_vector.
Qed.

Lemma nth_apply_bcs_vector (bcs : list DirichletBC) (b : vector) (i : nat) :
  nth i (apply_bcs_vector bcs b) 0 = if constrained bcs i then 0 else nth i b 0.
Proof.
  unfold apply_bcs_vector. revert b.
  induction bcs as [|bc bcs IH]; intros b; simpl; [reflexivity|].
  rewrite IH, nth_bc_apply_vector.
  destruct (is_bc_dof bc i), (constrained bcs i); reflexivity.
Qed.

Lemma apply_bcs_vector_zeros (bcs : list DirichletBC) (n : nat) :
  apply_bcs_vector bcs (zeros n) = zeros n.
Proof.
  apply vector_zero.
  - now rewrite length_apply_bcs_vector, length_zeros.
  - intros i _. rewrite nth_apply_bcs_vector, nth_zeros.
    now destruct (constrained bcs i).
Qed.

(** ** Boundary conditions on matrices *)

Lemma length_ident_row (i : nat) (row : vector) :
  length (ident_row i row) = length row.
Proof. apply length_mapi. Qed.

Lemma nth_ident_row (i j : nat) (row : vector) :
  (j < length row)%nat ->
  nth j (ident_row i row) 0 = if Nat.eqb j i then 1 else 0.
Proof. intros H. unfold ident_row. now rewrite nth_mapi with (d := 0). Qed.

Lemma ident_row_length (i : nat) (r r' : vector) :
  length r = length r' -> ident_row i r = ident_row i r'.
Proof.
  intros H. apply (list_eq_nth 0).
  - now rewrite !length_ident_row.
  - intros j Hj. rewrite length_ident_row in Hj.
    rewrite !nth_ident_row; [reflexivity | lia | lia].
Qed.

Lemma inner_mapi_from_ident (i k : nat) (row x : vector) :
  inner (mapi_from k (fun j _ => if Nat.eqb j i then 1 else 0) row) x
  = if (k <=? i)%nat && (i <? k + length row)%nat
    then nth (i - k) x 0 else 0.
Proof.
  revert k x; induction row as [|a row IH]; intros k x.
  - simpl. destruct (k <=? i)%nat eqn:Hle; simpl; [|reflexivity].
    destruct (i <? k + 0)%nat eqn:Hlt; [|reflexivity].
    apply Nat.leb_le in Hle. apply Nat.ltb_lt in Hlt. lia.
  - destruct x as [|b x].
    + rewrite inner_nil_r.
      destruct ((k <=? i)%nat && (i <? k + length (a :: row))%nat);
        [now destruct (i - k)%nat | reflexivity].
    + simpl mapi_from. rewrite inner_cons, IH.
      destruct (Nat.eqb_spec k i) as [->|Hne].
      * rewrite Nat.leb_refl, Nat.sub_diag. simpl length.
        replace (i <? i + S (length row))%nat with true
          by (symmetry; apply Nat.ltb_lt; lia).
        replace (S i <=? i)%nat with false
          by (symmetry; apply Nat.leb_gt; lia).
        simpl. lra.
      * simpl length.
        replace (S k + length row)%nat with (k + S (length row))%nat by lia.
        destruct (i <? k + S (length row))%nat; rewrite ?andb_false_r;
          [|lra].
        rewrite !andb_true_r.
        destruct (Nat.leb_spec k i) as [Hle|Hgt].
        -- replace (S k <=? i)%nat with true
             by (symmetry; apply Nat.leb_le; lia).
           replace (i - k)%nat with (S (i - S k)) by lia. simpl. lra.
        -- replace (S k <=? i)%nat with false
             by (symmetry; apply Nat.leb_gt; lia).
           lra.
Qed.

(** The product of row [i] of the identity with [x] is [x[i]]. *)
Lemma inner_ident_row (i : nat) (row x : vector) :
  (i < length row)%nat -> inner (ident_row i row) x = nth i x 0.
Proof.
  intros H. unfold ident_row, mapi. rewrite inner_mapi_from_ident.
  simpl. replace (i <? length row)%nat with true
    by (symmetry; apply Nat.ltb_lt; lia).
  now rewrite Nat.sub_0_r.
Qed.

Lemma length_bc_apply_matrix (bc : DirichletBC) (A : matrix) :
  length (bc_apply_matrix bc A) = length A.
Proof. apply length_mapi. Qed.

Lemma nth_bc_apply_matrix (bc : DirichletBC) (A : matrix) (i : nat) :
  nth i (bc_apply_matrix bc A) []
  = if is_bc_dof bc i then ident_row i (nth i A []) else nth i A [].
Proof.
  destruct (Nat.lt_ge_cases i (length A)) as [H|H].
  - unfold bc_apply_matrix.
    exact (nth_mapi
             (fun k row => if is_bc_dof bc k then ident_row k row else row)
             A i [] [] H).
  - rewrite !nth_overflow; [now destruct (is_bc_dof bc i) | lia |].
    now rewrite length_bc_apply_matrix.
Qed.

Lemma length_apply_bcs_matrix (bcs : list DirichletBC) (A : matrix) :
  length (apply_bcs_matrix bcs A) = length A.
Proof.
  unfold apply_bcs_matrix. revert A.
  induction bcs as [|bc bcs IH]; intros A; simpl; [reflexivity|].
  now rewrite IH, length_bc_apply_matrix.
Qed.

(** After all the boundary conditions are applied, a constrained row is
    the row of the identity and every other row is the row of the input. *)
Lemma nth_apply_bcs_matrix (bcs : list DirichletBC) (A : matrix) (i : nat) :
  nth i (apply_bcs_matrix bcs A) []
  = if constrained bcs i then ident_row i (nth i A []) else nth i A [].
Proof.
  unfold apply_bcs_matrix. revert A.
  induction bcs as [|bc bcs IH]; intros A; simpl; [reflexivity|].
  rewrite IH, nth_bc_apply_matrix.
  destruct (is_bc_dof bc i), (constrained bcs i); simpl; try reflexivity.
  apply ident_row_length, length_ident_row.
Qed.

Lemma square_apply_bcs_matrix (n : nat) (bcs : list DirichletBC) (A : matrix) :
  square n A -> square n (apply_bcs_matrix bcs A).
Proof.
  intros HA. apply square_intro.
  - rewrite length_apply_bcs_matrix. now apply square_length.
  - intros i Hi. rewrite nth_apply_bcs_matrix.
    destruct (constrained bcs i); rewrite ?length_ident_row;
      now apply square_row.
Qed.

Lemma entry_apply_bcs_matrix (n : nat) (bcs : list DirichletBC) (A : matrix)
  (i j : nat) :
  square n A -> (i < n)%nat -> (j < n)%nat ->
  entry (apply_bcs_matrix bcs A) i j
  = if constrained bcs i then (if Nat.eqb j i then 1 else 0) else entry A i j.
Proof.
  intros HA Hi Hj. unfold entry. rewrite nth_apply_bcs_matrix.
  destruct (constrained bcs i); [|reflexivity].
  apply nth_ident_row. now rewrite (square_row _ _ _ HA Hi).
Qed.

Lemma entry_madd (n : nat) (A B : matrix) (i j : nat) :
  square n A -> square n B -> (i < n)%nat -> (j < n)%nat ->
  entry (madd A B) i j = entry A i j + entry B i j.
Proof.
  intros HA HB Hi Hj. unfold entry. rewrite (nth_madd _ _ _ _ HA HB Hi).
  apply nth_map2; [rewrite (square_row _ _ _ HA Hi) | rewrite (square_row _ _ _ HB Hi)];
    assumption.
Qed.

(** Row [i] of [A x] at a constrained dof of [apply_bcs_matrix bcs A]. *)
Lemma mult_constrained_row (n : nat) (bcs : list DirichletBC) (A : matrix)
  (x : vector) (i : nat) :
  square n A -> (i < n)%nat -> constrained bcs i = true ->
  nth i (mult (apply_bcs_matrix bcs A) x) 0 = nth i x 0.
Proof.
  intros HA Hi Hc. rewrite nth_mult, nth_apply_bcs_matrix, Hc.
  apply inner_ident_row. now rewrite (square_row _ _ _ HA Hi).
Qed.

(** ** The assembled operators of a run *)

Section RunFacts.

Variable nb : notebook.
Hypothesis Hwf : well_formed nb.

Lemma square_mass : square (n_dofs nb) (mass nb).
Proof. apply Hwf. Qed.

Lemma square_stiffness : square (n_dofs nb) (stiffness nb).
Proof. apply Hwf. Qed.

Lemma length_p_ext (t : R) : length (p_ext nb t) = (n_dofs nb).
Proof. apply Hwf. Qed.

Lemma square_damping : square (n_dofs nb) (damping nb).
Proof.
  apply square_madd; apply square_mscale;
    [apply square_mass | apply square_stiffness].
Qed.

Lemma square_C : square (n_dofs nb) (C nb).
Proof. apply square_apply_bcs_matrix, square_damping. Qed.

Lemma square_K : square (n_dofs nb) (K nb).
Proof. apply square_apply_bcs_matrix, square_stiffness. Qed.

Lemma square_effective_sum :
  square (n_dofs nb) (madd (madd (mass nb) (mscale (gamma nb * dt nb) (C nb)))
                 (mscale (beta nb * dt nb ^ 2) (K nb))).
Proof.
  repeat first [apply square_madd | apply square_mscale];
    [apply square_mass | apply square_C | apply square_K].
Qed.

Lemma square_effective_matrix : square (n_dofs nb) (effective_matrix nb).
Proof. apply square_apply_bcs_matrix, square_effective_sum. Qed.

Lemma length_M_lumped_inv : length (M_lumped_inv nb) = (n_dofs nb).
Proof.
  unfold M_lumped_inv, M_lumped. rewrite length_map, length_mult.
  apply square_length, square_madd;
    [apply square_mass | apply square_mscale, square_damping].
Qed.


(** *** One iteration *)

Lemma newmark_step_fields (solver : acceleration_solver) (k : nat) (s : state) :
  let f := f_assembled nb k s in
  let r := compute_acceleration nb solver f f in
  let u' := axpy (beta nb * dt nb ^ 2) (fst r) (u_predicted nb s) in
  let v' := axpy (gamma nb * dt nb) (fst r) (v_predicted nb s) in
  let e' := E_damp s + dt nb * inner v' (mult (damping nb) v') in
  newmark_step nb solver k s
  = {| u_vec := u';
       v_vec := v';
       a_vec := fst r;
       E_damp := e';
       energies :=
         set_nth (k + 1)
           [0.5 * inner u' (mult (stiffness nb) u');
            0.5 * inner v' (mult (mass nb) v');
            e';
            0.5 * inner u' (mult (stiffness nb) u')
            + 0.5 * inner v' (mult (mass nb) v') + e']
           (energies s);
       trace := trace s ++ snd r |}.
Proof.
  unfold newmark_step, f_assembled, u_predicted, v_predicted. simpl.
  destruct (compute_acceleration nb solver _ _) as [a1 evs]. reflexivity.
Qed.

Lemma steps_S (solver : acceleration_solver) (k : nat) (s : state) :
  steps nb solver (S k) s = newmark_step nb solver k (steps nb solver k s).
Proof.
  unfold steps. rewrite seq_S, fold_left_app. reflexivity.
Qed.

Lemma state_after_S (k : nat) :
  state_after nb (S k)
  = newmark_step nb (fst (build_solver nb)) k (state_after nb k).
Proof. apply steps_S. Qed.

Lemma state_after_0 :
  state_after nb 0 = initial_state nb (snd (build_solver nb)).
Proof. reflexivity. Qed.

Lemma length_u_predicted (s : state) :
  sized nb s -> length (u_predicted nb s) = (n_dofs nb).
Proof.
  intros (Hu & Hv & Ha). unfold u_predicted.
  repeat apply length_axpy_n; assumption.
Qed.

Lemma length_v_predicted (s : state) :
  sized nb s -> length (v_predicted nb s) = (n_dofs nb).
Proof.
  intros (Hu & Hv & Ha). unfold v_predicted.
  apply length_axpy_n; assumption.
Qed.

Lemma length_f_assembled (k : nat) (s : state) :
  length (f_assembled nb k s) = (n_dofs nb).
Proof.
  unfold f_assembled. rewrite length_apply_bcs_vector.
  repeat apply length_axpy_n;
    rewrite ?length_mult; auto using length_p_ext.
  - apply square_length, square_K.
  - apply square_length, square_C.
Qed.

Lemma nth_f_assembled (k : nat) (s : state) (i : nat) :
  (i < (n_dofs nb))%nat ->
  nth i (f_assembled nb k s) 0
  = if constrained (bcs nb) i then 0
    else nth i (p_ext nb (INR (k + 1) * dt nb)) 0
         - nth i (mult (C nb) (v_predicted nb s)) 0
         - nth i (mult (K nb) (u_predicted nb s)) 0.
Proof.
  intros Hi. unfold f_assembled. rewrite nth_apply_bcs_vector.
  destruct (constrained (bcs nb) i); [reflexivity|].
  assert (HK : length (mult (K nb) (u_predicted nb s)) = (n_dofs nb))
    by (rewrite length_mult; apply square_length, square_K).
  assert (HC : length (mult (C nb) (v_predicted nb s)) = (n_dofs nb))
    by (rewrite length_mult; apply square_length, square_C).
  rewrite nth_axpy, nth_axpy;
    rewrite ?length_axpy, ?HK, ?HC, ?length_p_ext; try lia.
  lra.
Qed.

(** *** The acceleration solve *)

Lemma length_compute_acceleration (f : vector) :
  solver_ok nb -> length f = (n_dofs nb) ->
  length (fst (compute_acceleration nb (fst (build_solver nb)) f f)) = (n_dofs nb).
Proof.
  intros Hok Hf. unfold build_solver.
  destruct (use_lumped_mass nb) eqn:Hl; simpl.
  - rewrite length_apply_bcs_vector, length_map2, length_M_lumped_inv. lia.
  - now apply Hok.
Qed.

(** In the lumped variant the boundary conditions are applied to the
    acceleration itself. *)
Lemma lumped_acceleration_constrained (inv f f_vec : vector) (i : nat) :
  constrained (bcs nb) i = true ->
  nth i (fst (compute_acceleration nb (Lumped inv) f f_vec)) 0 = 0.
Proof. intros Hc. simpl. now rewrite nth_apply_bcs_vector, Hc. Qed.

(** In the implicit variant the acceleration at a constrained dof is the
    right-hand side at that dof. *)
Lemma implicit_acceleration_constrained (f f_vec : vector) (i : nat) :
  lu_solves nb (effective_matrix nb) -> length f_vec = (n_dofs nb) ->
  (i < (n_dofs nb))%nat -> constrained (bcs nb) i = true ->
  nth i (fst (compute_acceleration nb (Implicit (effective_matrix nb))
                f f_vec)) 0
  = nth i f_vec 0.
Proof.
  intros Hlu Hf Hi Hc. simpl.
  destruct (Hlu f_vec Hf) as [_ Hsol].
  rewrite <- Hsol at 2. symmetry. unfold effective_matrix.
  apply (mult_constrained_row (n_dofs nb)); auto using square_effective_sum.
Qed.

Lemma acceleration_constrained (k : nat) (s : state) (i : nat) :
  solver_ok nb -> (i < (n_dofs nb))%nat -> constrained (bcs nb) i = true ->
  nth i (fst (compute_acceleration nb (fst (build_solver nb))
                (f_assembled nb k s) (f_assembled nb k s))) 0 = 0.
Proof.
  intros Hok Hi Hc. unfold build_solver.
  destruct (use_lumped_mass nb) eqn:Hl; cbn [fst].
  - now apply lumped_acceleration_constrained.
  - rewrite implicit_acceleration_constrained;
      auto using length_f_assembled.
    now rewrite nth_f_assembled, Hc.
Qed.

(** *** Sizes along a run *)

Lemma sized_newmark_step (k : nat) (s : state) :
  solver_ok nb -> sized nb s ->
  sized nb (newmark_step nb (fst (build_solver nb)) k s).
Proof.
  intros Hok Hs. rewrite newmark_step_fields. cbv zeta.
  pose proof (length_compute_acceleration (f_assembled nb k s) Hok
                (length_f_assembled k s)) as Ha.
  repeat split; cbn [u_vec v_vec a_vec].
  - apply length_axpy_n; [exact Ha | now apply length_u_predicted].
  - apply length_axpy_n; [exact Ha | now apply length_v_predicted].
  - exact Ha.
Qed.

Lemma sized_state_after (k : nat) : solver_ok nb -> sized nb (state_after nb k).
Proof.
  intros Hok. induction k as [|k IH].
  - rewrite state_after_0. repeat split; apply length_zeros.
  - rewrite state_after_S. now apply sized_newmark_step.
Qed.

End RunFacts.

(** ** The per-step transition *)

Lemma nth_map_seq (f : nat -> R) (n i : nat) :
  (i < n)%nat -> nth i (map f (seq 0 n)) 0 = f i.
Proof.
  intros Hi.
  rewrite (nth_indep _ 0 (f 0%nat)) by (now rewrite length_map, length_seq).
  rewrite map_nth, seq_nth by assumption. reflexivity.
Qed.

Lemma length_map_seq (f : nat -> R) (n : nat) : length (map f (seq 0 n)) = n.
Proof. now rewrite length_map, length_seq. Qed.

Section Step.

Variable nb : notebook.
Hypothesis Hwf : well_formed nb.

Lemma u_predicted_tilde (s : state) :
  sized nb s -> u_predicted nb s = u_tilde nb s.
Proof.
  intros Hs. pose proof Hs as (Hu & Hv & Ha).
  apply (list_eq_nth 0).
  - rewrite (length_u_predicted nb s Hs). unfold u_tilde.
    now rewrite length_map_seq.
  - intros i Hi. rewrite (length_u_predicted nb s Hs) in Hi.
    unfold u_predicted, u_tilde. rewrite nth_map_seq by assumption.
    rewrite nth_axpy, nth_axpy;
      rewrite ?length_axpy, ?Hu, ?Hv, ?Ha; try lia.
    lra.
Qed.

Lemma v_predicted_tilde (s : state) :
  sized nb s -> v_predicted nb s = v_tilde nb s.
Proof.
  intros Hs. pose proof Hs as (Hu & Hv & Ha).
  apply (list_eq_nth 0).
  - rewrite (length_v_predicted nb s Hs). unfold v_tilde.
    now rewrite length_map_seq.
  - intros i Hi. rewrite (length_v_predicted nb s Hs) in Hi.
    unfold v_predicted, v_tilde. rewrite nth_map_seq by assumption.
    rewrite nth_axpy; rewrite ?Hv, ?Ha; try lia.
    lra.
Qed.

Lemma f_assembled_tilde (k : nat) (s : state) :
  sized nb s -> f_assembled nb k s = f_tilde nb k s.
Proof.
  intros Hs. apply (list_eq_nth 0).
  - rewrite (length_f_assembled nb Hwf). unfold f_tilde.
    now rewrite length_map_seq.
  - intros i Hi. rewrite (length_f_assembled nb Hwf) in Hi.
    rewrite (nth_f_assembled nb Hwf) by assumption.
    unfold f_tilde. rewrite nth_map_seq by assumption.
    now rewrite u_predicted_tilde, v_predicted_tilde.
Qed.

(** The corrector [y.axpy(c, a)] adds [c*a] to the predicted field. *)
Lemma axpy_corrector (c : R) (a y : vector) :
  length a = length y -> axpy c a y = map2 Rplus y (map (Rmult c) a).
Proof.
  intros Hlen. apply (list_eq_nth 0).
  - rewrite length_axpy, length_map2, length_map. lia.
  - intros i Hi. rewrite length_axpy in Hi.
    rewrite nth_axpy by lia.
    rewrite (nth_map2 Rplus y (map (Rmult c) a) i 0 0 0)
      by (rewrite ?length_map; lia).
    rewrite nth_map_Rmult. lra.
Qed.

(** C1. In one iteration of the time loop, entered with the fields
    (u_n, v_n, a_n), the predictor forms
    u~ = u_n + dt v_n + (1/2 - beta) dt^2 a_n and
    v~ = v_n + (1 - gamma) dt a_n from the previous acceleration, the
    external force is taken at t = (n+1) dt, the load is
    f~ = f_ext - C v~ - K u~ with the constrained rows zeroed, the new
    acceleration is the solve of f~, and the corrector gives
    u_{n+1} = u~ + beta dt^2 a_{n+1} and v_{n+1} = v~ + gamma dt a_{n+1}. *)
Theorem newmark_step_predictor_corrector (k : nat) (s : state) :
  solver_ok nb -> sized nb s ->
  let solver := fst (build_solver nb) in
  let s' := newmark_step nb solver k s in
  a_vec s'
  = fst (compute_acceleration nb solver (f_tilde nb k s) (f_tilde nb k s)) /\
  u_vec s'
  = map2 Rplus (u_tilde nb s) (map (Rmult (beta nb * dt nb ^ 2)) (a_vec s')) /\
  v_vec s'
  = map2 Rplus (v_tilde nb s) (map (Rmult (gamma nb * dt nb)) (a_vec s')).
Proof.
  intros Hok Hs solver s'. subst s' solver.
  rewrite newmark_step_fields. cbv zeta. cbn [u_vec v_vec a_vec].
  pose proof (length_compute_acceleration nb Hwf (f_assembled nb k s) Hok
                (length_f_assembled nb Hwf k s)) as Ha.
  rewrite <- (f_assembled_tilde k s Hs).
  rewrite <- (u_predicted_tilde s Hs), <- (v_predicted_tilde s Hs).
  repeat split.
  - apply axpy_corrector. now rewrite Ha, (length_u_predicted nb s Hs).
  - apply axpy_corrector. now rewrite Ha, (length_v_predicted nb s Hs).
Qed.

End Step.

(** ** Constrained dofs along a run *)

Section Boundary.

Variable nb : notebook.
Hypothesis Hwf : well_formed nb.
Hypothesis Hok : solver_ok nb.

(** The three fields vanish at a constrained dof after every iteration. *)
Lemma constrained_fields_zero (k i : nat) :
  (i < n_dofs nb)%nat -> constrained (bcs nb) i = true ->
  nth i (u_vec (state_after nb k)) 0 = 0 /\
  nth i (v_vec (state_after nb k)) 0 = 0 /\
  nth i (a_vec (state_after nb k)) 0 = 0.
Proof.
  intros Hi Hc. induction k as [|k (IHu & IHv & IHa)].
  - rewrite state_after_0. cbn [initial_state u_vec v_vec a_vec].
    now rewrite nth_zeros.
  - pose proof (sized_state_after nb Hwf k Hok) as Hs.
    pose proof Hs as (Hu & Hv & Ha).
    pose proof (length_compute_acceleration nb Hwf
                  (f_assembled nb k (state_after nb k)) Hok
                  (length_f_assembled nb Hwf k _)) as Hlen.
    pose proof (acceleration_constrained nb Hwf k (state_after nb k) i
                  Hok Hi Hc) as Hzero.
    rewrite state_after_S, newmark_step_fields. cbv zeta.
    cbn [u_vec v_vec a_vec].
    rewrite !nth_axpy;
      rewrite ?Hlen, ?(length_u_predicted nb _ Hs),
        ?(length_v_predicted nb _ Hs); try assumption.
    unfold u_predicted, v_predicted.
    rewrite !nth_axpy; rewrite ?length_axpy, ?Hu, ?Hv, ?Ha; try lia.
    rewrite Hzero, IHu, IHv, IHa. repeat split; lra.
Qed.

(** C3. After every step of a run, which starts from the zeroed fields,
    the displacement and the velocity are exactly zero at every dof that
    the boundary conditions fix to zero. *)
Theorem boundary_dofs_stay_zero (k i : nat) :
  (i < n_dofs nb)%nat -> constrained (bcs nb) i = true ->
  nth i (u_vec (state_after nb k)) 0 = 0 /\
  nth i (v_vec (state_after nb k)) 0 = 0.
Proof.
  intros Hi Hc.
  destruct (constrained_fields_zero k i Hi Hc) as (Hu & Hv & _).
  now split.
Qed.

(** C10. After every acceleration solve the acceleration is zero at every
    constrained dof.  The lumped variant applies the boundary conditions
    to the acceleration after the diagonal product, whatever the force
    vector.  The implicit variant returns the output of the LU solver as
    it is: at a constrained dof it is the right-hand side at that dof, by
    the identity row of the effective matrix, and the right-hand side of
    a step is zero there. *)
Theorem acceleration_at_constrained_dofs (i : nat) :
  (i < n_dofs nb)%nat -> constrained (bcs nb) i = true ->
  (forall inv f f_vec,
      compute_acceleration nb (Lumped inv) f f_vec
      = (apply_bcs_vector (bcs nb) (map2 Rmult inv f), []) /\
      nth i (fst (compute_acceleration nb (Lumped inv) f f_vec)) 0 = 0) /\
  (forall A f f_vec,
      fst (compute_acceleration nb (Implicit A) f f_vec)
      = lu_solve nb A f_vec) /\
  (use_lumped_mass nb = false ->
   forall f f_vec, length f_vec = n_dofs nb ->
     nth i (fst (compute_acceleration nb (Implicit (effective_matrix nb))
                   f f_vec)) 0
     = nth i f_vec 0) /\
  (forall k s, nth i (f_assembled nb k s) 0 = 0) /\
  (forall k, nth i (a_vec (state_after nb k)) 0 = 0).
Proof.
  intros Hi Hc. repeat split.
  - now apply lumped_acceleration_constrained.
  - intros Hl f f_vec Hf.
    apply implicit_acceleration_constrained; auto.
  - intros k s. now rewrite (nth_f_assembled nb Hwf), Hc.
  - intros k. now apply constrained_fields_zero.
Qed.

End Boundary.

(** ** The equilibrium at rest *)

Lemma axpy_zeros (c : R) (n : nat) : axpy c (zeros n) (zeros n) = zeros n.
Proof.
  apply vector_zero.
  - apply length_axpy_n; apply length_zeros.
  - intros i Hi. rewrite nth_axpy by (now rewrite length_zeros).
    rewrite nth_zeros. lra.
Qed.

Lemma map2_Rmult_zeros (x : vector) (n : nat) :
  length x = n -> map2 Rmult x (zeros n) = zeros n.
Proof.
  intros Hx. apply vector_zero.
  - rewrite length_map2, length_zeros. lia.
  - intros i Hi.
    rewrite (nth_map2 Rmult x (zeros n) i 0 0 0)
      by (rewrite ?length_zeros; lia).
    rewrite nth_zeros. lra.
Qed.

Section Rest.

Variable nb : notebook.
Hypothesis Hwf : well_formed nb.
Hypothesis Hok : solver_ok nb.
Hypothesis Hns :
  use_lumped_mass nb = false -> nonsingular (n_dofs nb) (effective_matrix nb).
Hypothesis Hrest : forall t, p_ext nb t = zeros (n_dofs nb).

Lemma f_assembled_rest (k : nat) (s : state) :
  u_vec s = zeros (n_dofs nb) -> v_vec s = zeros (n_dofs nb) ->
  a_vec s = zeros (n_dofs nb) ->
  u_predicted nb s = zeros (n_dofs nb) /\
  v_predicted nb s = zeros (n_dofs nb) /\
  f_assembled nb k s = zeros (n_dofs nb).
Proof.
  intros Hu Hv Ha.
  assert (Hup : u_predicted nb s = zeros (n_dofs nb))
    by (unfold u_predicted; now rewrite Hu, Hv, Ha, !axpy_zeros).
  assert (Hvp : v_predicted nb s = zeros (n_dofs nb))
    by (unfold v_predicted; now rewrite Hv, Ha, !axpy_zeros).
  repeat split; try assumption.
  unfold f_assembled. rewrite Hup, Hvp, Hrest, !mult_zeros.
  rewrite (square_length _ _ (square_C nb Hwf)).
  rewrite (square_length _ _ (square_K nb Hwf)).
  now rewrite !axpy_zeros, apply_bcs_vector_zeros.
Qed.

Lemma acceleration_rest :
  fst (compute_acceleration nb (fst (build_solver nb))
         (zeros (n_dofs nb)) (zeros (n_dofs nb)))
  = zeros (n_dofs nb).
Proof.
  unfold build_solver. destruct (use_lumped_mass nb) eqn:Hl; cbn [fst].
  - simpl. rewrite map2_Rmult_zeros by (apply length_M_lumped_inv, Hwf).
    apply apply_bcs_vector_zeros.
  - simpl. destruct (Hok Hl (zeros (n_dofs nb)) (length_zeros _))
      as [Hlen Hsol].
    now apply Hns.
Qed.

(** C9. With an external force that is zero at every step, the run, which
    starts from zero displacement, velocity and acceleration, leaves the
    three fields exactly zero after every step. *)
Theorem zero_state_is_fixed_point (k : nat) :
  u_vec (state_after nb k) = zeros (n_dofs nb) /\
  v_vec (state_after nb k) = zeros (n_dofs nb) /\
  a_vec (state_after nb k) = zeros (n_dofs nb).
Proof.
  induction k as [|k (IHu & IHv & IHa)].
  - rewrite state_after_0. now cbn [initial_state u_vec v_vec a_vec].
  - destruct (f_assembled_rest k (state_after nb k) IHu IHv IHa)
      as (Hup & Hvp & Hf).
    rewrite state_after_S, newmark_step_fields. cbv zeta.
    cbn [u_vec v_vec a_vec].
    rewrite Hup, Hvp, Hf, acceleration_rest, !axpy_zeros. now repeat split.
Qed.

End Rest.

(** ** The implicit effective system *)

Section ImplicitSystem.

Variable nb : notebook.
Hypothesis Hwf : well_formed nb.
Hypothesis Himplicit : use_lumped_mass nb = false.

Lemma build_solver_implicit :
  build_solver nb
  = (Implicit (effective_matrix nb), [LUSolver_created (effective_matrix nb)]).
Proof. unfold build_solver. now rewrite Himplicit. Qed.

Lemma implicit_a_vec (k : nat) :
  a_vec (state_after nb (S k))
  = lu_solve nb (effective_matrix nb) (f_assembled nb k (state_after nb k)).
Proof.
  rewrite state_after_S, newmark_step_fields. cbv zeta. cbn [a_vec].
  now rewrite build_solver_implicit.
Qed.



End ImplicitSystem.

(** ** The energy table *)

Section Energies.

Variable nb : notebook.

Lemma length_energies (k : nat) :
  length (energies (state_after nb k)) = (num_steps nb + 1)%nat.
Proof.
  induction k as [|k IH].
  - rewrite state_after_0. cbn [initial_state energies].
    apply repeat_length.
  - rewrite state_after_S, newmark_step_fields. cbv zeta. cbn [energies].
    now rewrite length_set_nth.
Qed.

Lemma energies_step (k : nat) :
  let s' := state_after nb (S k) in
  E_damp s'
  = E_damp (state_after nb k)
    + dt nb * inner (v_vec s') (mult (damping nb) (v_vec s')) /\
  energies s'
  = set_nth (k + 1) (energy_row nb (u_vec s') (v_vec s') (E_damp s'))
      (energies (state_after nb k)).
Proof.
  cbv zeta. rewrite state_after_S, newmark_step_fields. cbv zeta.
  cbn [E_damp energies u_vec v_vec]. split; [reflexivity|].
  f_equal. unfold energy_row. repeat f_equal; lra.
Qed.

(** Rows above the last completed step are as they were allocated. *)
Lemma energies_unwritten (k m : nat) :
  (k < m)%nat ->
  nth m (energies (state_after nb k)) []
  = nth m (repeat (zeros 4) (num_steps nb + 1)) [].
Proof.
  induction k as [|k IH]; intros Hm.
  - now rewrite state_after_0.
  - destruct (energies_step k) as [_ ->].
    rewrite nth_set_nth_neq by lia. apply IH. lia.
Qed.

Lemma energies_written (k n : nat) :
  (n < k)%nat -> (k <= num_steps nb)%nat ->
  let s' := state_after nb (S n) in
  nth (S n) (energies (state_after nb k)) []
  = energy_row nb (u_vec s') (v_vec s') (E_damp s').
Proof.
  cbv zeta. induction k as [|k IH]; intros Hn Hk; [lia|].
  destruct (energies_step k) as [_ ->].
  destruct (Nat.eq_dec n k) as [->|Hne].
  - replace (k + 1)%nat with (S k) by lia.
    apply nth_set_nth_eq. rewrite length_energies. lia.
  - rewrite nth_set_nth_neq by lia. apply IH; lia.
Qed.

(** One iteration entered in any state: the fields after the corrector
    and what the iteration does to the energy table. *)
Lemma energies_newmark_step (solver : acceleration_solver) (m : nat)
  (s : state) :
  let s1 := newmark_step nb solver m s in
  let a := fst (compute_acceleration nb solver (f_assembled nb m s)
                  (f_assembled nb m s)) in
  let u := axpy (beta nb * dt nb ^ 2) a (u_predicted nb s) in
  let v := axpy (gamma nb * dt nb) a (v_predicted nb s) in
  u_vec s1 = u /\ v_vec s1 = v /\
  E_damp s1 = E_damp s + dt nb * inner v (mult (damping nb) v) /\
  energies s1
  = set_nth (m + 1) (energy_row nb u v (E_damp s1)) (energies s).
Proof.
  cbv zeta. rewrite newmark_step_fields. cbv zeta.
  cbn [u_vec v_vec E_damp energies].
  split; [reflexivity|]. split; [reflexivity|]. split; [reflexivity|].
  f_equal. unfold energy_row. repeat f_equal; lra.
Qed.

(** C7. The iteration n of the loop, entered in any state, ends with the
    fields u and v after the corrector and then writes the row n+1 of the
    energy table: the elastic energy 1/2 u.K u, the kinetic energy
    1/2 v.M v, the damping energy, which it has increased by dt v.C v
    for this velocity v after the corrector, and their sum.  It writes
    this one row of four columns and leaves every other row as it was.
    Along a run, which applies the iteration to the state of the step
    before, the row n+1 holds these values of the fields after step n+1
    from then on, and the rows of the steps not yet made are as
    allocated. *)
Theorem energy_rows (solver : acceleration_solver) (m : nat) (s : state)
  (k n : nat) :
  (m + 1 < length (energies s))%nat ->
  (n < k)%nat -> (k <= num_steps nb)%nat ->
  let s1 := newmark_step nb solver m s in
  let a := fst (compute_acceleration nb solver (f_assembled nb m s)
                  (f_assembled nb m s)) in
  let u := axpy (beta nb * dt nb ^ 2) a (u_predicted nb s) in
  let v := axpy (gamma nb * dt nb) a (v_predicted nb s) in
  (* one iteration *)
  (u_vec s1 = u /\ v_vec s1 = v /\
   E_damp s1 = E_damp s + dt nb * inner v (mult (damping nb) v) /\
   nth (m + 1) (energies s1) []
   = [1 / 2 * inner u (mult (stiffness nb) u);
      1 / 2 * inner v (mult (mass nb) v);
      E_damp s + dt nb * inner v (mult (damping nb) v);
      1 / 2 * inner u (mult (stiffness nb) u)
      + 1 / 2 * inner v (mult (mass nb) v)
      + (E_damp s + dt nb * inner v (mult (damping nb) v))] /\
   length (energies s1) = length (energies s) /\
   (forall j, j <> (m + 1)%nat ->
              nth j (energies s1) [] = nth j (energies s) [])) /\
  (* the run *)
  state_after nb (S n)
  = newmark_step nb (fst (build_solver nb)) n (state_after nb n) /\
  E_damp (state_after nb 0) = 0 /\
  (let s' := state_after nb (S n) in
   nth (S n) (energies (state_after nb k)) []
   = [1 / 2 * inner (u_vec s') (mult (stiffness nb) (u_vec s'));
      1 / 2 * inner (v_vec s') (mult (mass nb) (v_vec s'));
      E_damp s';
      1 / 2 * inner (u_vec s') (mult (stiffness nb) (u_vec s'))
      + 1 / 2 * inner (v_vec s') (mult (mass nb) (v_vec s')) + E_damp s']) /\
  length (energies (state_after nb k)) = (num_steps nb + 1)%nat /\
  (forall j, (k < j)%nat -> (j <= num_steps nb)%nat ->
             nth j (energies (state_after nb k)) [] = zeros 4).
Proof.
  intros Hm Hn Hk. cbv zeta.
  destruct (energies_newmark_step solver m s) as (Hu & Hv & Hd & He).
  cbv zeta in Hu, Hv, Hd, He.
  split; [|split; [|split; [|split; [|split]]]].
  - split; [exact Hu|]. split; [exact Hv|]. split; [exact Hd|].
    split; [|split].
    + rewrite He, nth_set_nth_eq by exact Hm. now rewrite Hd.
    + rewrite He. apply length_set_nth.
    + intros j Hj. rewrite He. apply nth_set_nth_neq. auto.
  - apply state_after_S.
  - now rewrite state_after_0.
  - exact (energies_written k n Hn Hk).
  - apply length_energies.
  - intros j Hkj Hj. rewrite energies_unwritten by assumption.
    apply nth_repeat_lt. lia.
Qed.

End Energies.

(** ** The lumped variant *)

Section LumpedSystem.

Variable nb : notebook.
Hypothesis Hwf : well_formed nb.

Lemma nth_M_lumped (i : nat) :
  (i < n_dofs nb)%nat ->
  nth i (M_lumped nb) 0
  = vsum (nth i (mass nb) [])
    + 1 / 2 * dt nb * vsum (nth i (damping nb) []).
Proof.
  intros Hi. unfold M_lumped. rewrite nth_mult.
  pose proof (square_mass nb Hwf) as HM.
  pose proof (square_mscale _ (one_half * dt nb) _ (square_damping nb Hwf))
    as HD.
  rewrite (nth_madd _ _ _ _ HM HD Hi).
  rewrite inner_ones
    by (rewrite length_map2, (square_row _ _ _ HM Hi),
          (square_row _ _ _ HD Hi); lia).
  rewrite vsum_map2_plus
    by (now rewrite (square_row _ _ _ HM Hi), (square_row _ _ _ HD Hi)).
  rewrite nth_mscale, vsum_map_mult. unfold one_half. lra.
Qed.

Lemma nth_M_lumped_inv (i : nat) :
  (i < n_dofs nb)%nat ->
  nth i (M_lumped_inv nb) 0 = 1 / nth i (M_lumped nb) 0.
Proof.
  intros Hi. pose proof (length_M_lumped_inv nb Hwf) as Hlen.
  unfold M_lumped_inv in *.
  rewrite (nth_indep _ 0 (1 / 0)) by (now rewrite Hlen).
  apply (map_nth (fun m => 1 / m)).
Qed.

Lemma lumped_trace (k : nat) :
  use_lumped_mass nb = true -> trace (state_after nb k) = [].
Proof.
  intros Hl.
  assert (Hb : build_solver nb = (Lumped (M_lumped_inv nb), []))
    by (unfold build_solver; now rewrite Hl).
  induction k as [|k IH].
  - rewrite state_after_0. now rewrite Hb.
  - rewrite state_after_S, newmark_step_fields. cbv zeta. cbn [trace].
    rewrite IH, Hb. reflexivity.
Qed.

(** C5, as the notebook has it.  In lumped mode the diagonal is the sum
    of each row of mass + 1/2 dt damping, inverted element by element;
    the solve is the product of this inverse with the force vector at
    every unconstrained dof and zero at every constrained dof, which for
    the load of a step, zero at the constrained dofs, is the plain
    element-wise product; no LU solver is built or called during the
    run. *)
Theorem lumped_solve :
  use_lumped_mass nb = true ->
  build_solver nb = (Lumped (M_lumped_inv nb), []) /\
  (forall i, (i < n_dofs nb)%nat ->
     nth i (M_lumped nb) 0
     = vsum (nth i (mass nb) [])
       + 1 / 2 * dt nb * vsum (nth i (damping nb) [])) /\
  (forall i, (i < n_dofs nb)%nat ->
     nth i (M_lumped_inv nb) 0 = 1 / nth i (M_lumped nb) 0) /\
  (forall f i, length f = n_dofs nb -> (i < n_dofs nb)%nat ->
     nth i (fst (compute_acceleration nb (Lumped (M_lumped_inv nb)) f f)) 0
     = if constrained (bcs nb) i then 0
       else nth i (M_lumped_inv nb) 0 * nth i f 0) /\
  (forall k s,
     fst (compute_acceleration nb (Lumped (M_lumped_inv nb))
            (f_assembled nb k s) (f_assembled nb k s))
     = map2 Rmult (M_lumped_inv nb) (f_assembled nb k s)) /\
  (forall k, trace (state_after nb k) = []).
Proof.
  intros Hl. repeat split.
  - unfold build_solver. now rewrite Hl.
  - apply nth_M_lumped.
  - apply nth_M_lumped_inv.
  - intros f i Hf Hi. simpl. rewrite nth_apply_bcs_vector.
    destruct (constrained (bcs nb) i); [reflexivity|].
    apply nth_map2; rewrite ?length_M_lumped_inv, ?Hf; auto.
  - intros k s. simpl. apply (list_eq_nth 0).
    + now rewrite length_apply_bcs_vector.
    + intros i Hi.
      rewrite length_apply_bcs_vector, length_map2, length_M_lumped_inv,
        (length_f_assembled nb Hwf) in Hi by assumption.
      rewrite nth_apply_bcs_vector.
      destruct (constrained (bcs nb) i) eqn:Hc; [|reflexivity].
      rewrite (nth_map2 Rmult _ _ i 0 0 0)
        by (rewrite ?length_M_lumped_inv, ?(length_f_assembled nb Hwf);
            auto; lia).
      rewrite (nth_f_assembled nb Hwf) by lia. rewrite Hc. lra.
  - intros k. now apply lumped_trace.
Qed.

End LumpedSystem.

(** ** Boundary conditions on the operators *)

Lemma inner_pointwise_zero (x y : vector) :
  (forall i, nth i x 0 * nth i y 0 = 0) -> inner x y = 0.
Proof.
  revert y; induction x as [|a x IH]; intros [|b y] H; try reflexivity.
  rewrite inner_cons, (IH y (fun i => H (S i))).
  specialize (H 0%nat). simpl in H. lra.
Qed.

(** Identity rows keep a positive definite matrix nonsingular: a vector
    sent to zero is zero at the constrained dofs, and the unchanged rows
    send it to zero at the others. *)
Lemma nonsingular_apply_bcs (n : nat) (bcs : list DirichletBC) (A : matrix) :
  square n A -> positive_definite n A ->
  nonsingular n (apply_bcs_matrix bcs A).
Proof.
  intros HA Hpd x Hx Hz.
  destruct (list_eq_dec Req_dec_T x (zeros n)) as [|Hne]; [assumption|].
  exfalso. pose proof (Hpd x Hx Hne) as Hpos.
  rewrite inner_pointwise_zero in Hpos; [lra|].
  intros i. destruct (Nat.lt_ge_cases i n) as [Hi|Hi].
  - assert (Hzi : nth i (mult (apply_bcs_matrix bcs A) x) 0 = 0)
      by (rewrite Hz; apply nth_zeros).
    destruct (constrained bcs i) eqn:Hc.
    + rewrite (mult_constrained_row n) in Hzi by assumption.
      rewrite Hzi. lra.
    + rewrite nth_mult, nth_apply_bcs_matrix, Hc, <- nth_mult in Hzi.
      rewrite Hzi. lra.
  - rewrite (nth_overflow x) by lia. lra.
Qed.

(** C6, as dolfin applies it.  Applying the boundary conditions to a
    matrix turns each constrained row into the row of the identity and
    leaves the other rows, with their entries in the constrained columns,
    as they are; the product with the result returns a vector at its
    constrained dofs; a symmetric matrix stays symmetric when its entries
    in the constrained columns were zero already; a positive definite
    matrix stays nonsingular.  The notebook applies them in this way to
    the damping matrix, to the stiffness matrix and to the effective
    matrix. *)
Theorem bc_apply_identity_rows (nb : notebook) (A : matrix) :
  square (n_dofs nb) A ->
  let B := apply_bcs_matrix (bcs nb) A in
  square (n_dofs nb) B /\
  (forall i j, (i < n_dofs nb)%nat -> (j < n_dofs nb)%nat ->
     entry B i j
     = if constrained (bcs nb) i
       then (if Nat.eqb j i then 1 else 0) else entry A i j) /\
  (forall x i, (i < n_dofs nb)%nat -> constrained (bcs nb) i = true ->
     nth i (mult B x) 0 = nth i x 0) /\
  (symmetric (n_dofs nb) A ->
   (forall i j, (i < n_dofs nb)%nat -> (j < n_dofs nb)%nat ->
      constrained (bcs nb) i = false -> constrained (bcs nb) j = true ->
      entry A i j = 0) ->
   symmetric (n_dofs nb) B) /\
  (positive_definite (n_dofs nb) A -> nonsingular (n_dofs nb) B) /\
  C nb = apply_bcs_matrix (bcs nb) (damping nb) /\
  K nb = apply_bcs_matrix (bcs nb) (stiffness nb) /\
  effective_matrix nb
  = apply_bcs_matrix (bcs nb)
      (madd (madd (mass nb) (mscale (gamma nb * dt nb) (C nb)))
            (mscale (beta nb * dt nb ^ 2) (K nb))).
Proof.
  intros HA B. subst B.
  split; [now apply square_apply_bcs_matrix|].
  split; [intros i j Hi Hj; now apply (entry_apply_bcs_matrix (n_dofs nb))|].
  split; [intros x i Hi Hc; now apply (mult_constrained_row (n_dofs nb))|].
  split; [|split; [now apply nonsingular_apply_bcs|]; repeat split].
  intros Hsym Hcol i j Hi Hj.
  rewrite !(entry_apply_bcs_matrix (n_dofs nb)) by assumption.
  destruct (constrained (bcs nb) i) eqn:Hci,
           (constrained (bcs nb) j) eqn:Hcj.
  - rewrite (Nat.eqb_sym j i). reflexivity.
  - destruct (Nat.eqb_spec j i) as [->|Hne]; [congruence|].
    symmetry. now apply Hcol.
  - destruct (Nat.eqb_spec i j) as [->|Hne]; [congruence|].
    now apply Hcol.
  - now apply Hsym.
Qed.

(** ** Validation of the inputs *)

Lemma Rltb_true (x y : R) : Rltb x y = true <-> x < y.
Proof.
  unfold Rltb. destruct (Rlt_dec x y); split; intros; try discriminate;
    auto; contradiction.
Qed.

Lemma Rltb_false (x y : R) : Rltb x y = false <-> y <= x.
Proof.
  unfold Rltb. destruct (Rlt_dec x y); split; intros; try discriminate;
    auto; lra.
Qed.

Lemma Rgtb_true (x y : R) : Rgtb x y = true <-> x > y.
Proof.
  unfold Rgtb. destruct (Rgt_dec x y); split; intros; try discriminate;
    auto; contradiction.
Qed.

Lemma Rgtb_false (x y : R) : Rgtb x y = false <-> x <= y.
Proof.
  unfold Rgtb. destruct (Rgt_dec x y); split; intros; try discriminate;
    auto; lra.
Qed.

Lemma validate_use_lumped_mass_error (nb : notebook) (msg : string) :
  validate_use_lumped_mass nb = Some msg ->
  msg = "cannot use lumped mass in this case"%string.
Proof.
  unfold validate_use_lumped_mass.
  destruct (use_lumped_mass nb && _); congruence.
Qed.

Lemma validate_use_lumped_mass_iff (nb : notebook) :
  validate_use_lumped_mass nb
  = Some "cannot use lumped mass in this case"%string
  <-> use_lumped_mass nb = true /\
      (atol <= Rabs (beta nb - beta_exp nb) \/
       atol <= Rabs (gamma nb - gamma_exp nb)).
Proof.
  unfold validate_use_lumped_mass.
  destruct (use_lumped_mass nb); simpl.
  - destruct (Rltb (Rabs (beta nb - beta_exp nb)) atol) eqn:Hb;
      destruct (Rltb (Rabs (gamma nb - gamma_exp nb)) atol) eqn:Hg; simpl;
      rewrite ?Rltb_true, ?Rltb_false in *;
      split; try discriminate; try (intros _; split; auto);
      intros [_ [H|H]]; try reflexivity; lra.
  - split; [discriminate | intros [H _]; discriminate].
Qed.

Lemma simulate_validated (nb : notebook) :
  validate_use_lumped_mass nb = None ->
  num_steps nb <> 0%nat -> rho nb <> 0 ->
  simulate nb = Finished (validate_time_step nb) (state_after nb (num_steps nb)).
Proof.
  intros Hv Hn Hrho. unfold simulate. rewrite Hv.
  rewrite (proj2 (Nat.eqb_neq _ _) Hn).
  destruct (Req_dec_T (rho nb) 0); [contradiction | reflexivity].
Qed.

(** C4, as the notebook has it.  With the expected pair (0, 1/2) inserted,
    the validation raises exactly when lumped mass is requested and beta
    or gamma is at least the tolerance 1e-12 away from its expected value,
    that is, unless both are strictly within the tolerance.  The error
    ends the run before any step; without it the run raises no such error
    and, the divisions by [num_steps] and [rho] done, goes through its
    steps.  Lumped mass with (0.25, 0.5) raises; with (0, 0.5) it does
    not. *)
Theorem lumped_mass_validation (nb : notebook) :
  beta_exp nb = 0 -> gamma_exp nb = 1 / 2 ->
  let msg := "cannot use lumped mass in this case"%string in
  (validate_use_lumped_mass nb = Some msg
   <-> use_lumped_mass nb = true /\
       (1e-12 <= Rabs (beta nb - 0) \/ 1e-12 <= Rabs (gamma nb - 1 / 2))) /\
  (validate_use_lumped_mass nb = Some msg -> simulate nb = RuntimeError msg) /\
  (validate_use_lumped_mass nb <> Some msg ->
   validate_use_lumped_mass nb = None /\
   (forall m, simulate nb <> RuntimeError m) /\
   (num_steps nb <> 0%nat -> rho nb <> 0 ->
    simulate nb
    = Finished (validate_time_step nb) (state_after nb (num_steps nb)))) /\
  (use_lumped_mass nb = true -> beta nb = 0.25 -> gamma nb = 0.5 ->
   simulate nb = RuntimeError msg) /\
  (beta nb = 0 -> gamma nb = 0.5 -> validate_use_lumped_mass nb = None).
Proof.
  intros Hb Hg msg. subst msg.
  pose proof (validate_use_lumped_mass_iff nb) as Hiff.
  rewrite Hb, Hg in Hiff. fold atol.
  assert (Hraise : validate_use_lumped_mass nb
                   = Some "cannot use lumped mass in this case"%string ->
                   simulate nb
                   = RuntimeError "cannot use lumped mass in this case")
    by (intros H; unfold simulate; now rewrite H).
  assert (Hnone : validate_use_lumped_mass nb
                  <> Some "cannot use lumped mass in this case"%string ->
                  validate_use_lumped_mass nb = None).
  { intros H.
    destruct (validate_use_lumped_mass nb) as [msg|] eqn:Hv; [|reflexivity].
    rewrite (validate_use_lumped_mass_error nb msg Hv) in H. congruence. }
  split; [exact Hiff|]. split; [exact Hraise|]. split; [|split].
  - intros H. pose proof (Hnone H) as Hv.
    split; [exact Hv|]. split.
    + intros m. unfold simulate. rewrite Hv.
      destruct (num_steps nb =? 0)%nat; [discriminate|].
      destruct (Req_dec_T (rho nb) 0); discriminate.
    + now apply simulate_validated.
  - intros Hl Hbeta Hgamma. apply Hraise, Hiff. split; [assumption|].
    left. rewrite Hbeta. unfold atol. rewrite Rabs_pos_eq; lra.
  - intros Hbeta Hgamma. apply Hnone. intros H. apply Hiff in H.
    destruct H as [_ H]. rewrite Hbeta, Hgamma in H. unfold atol in H.
    replace (0 - 0) with 0 in H by lra.
    replace (0.5 - 1 / 2) with 0 in H by lra.
    rewrite Rabs_R0 in H. lra.
Qed.

(** ** Validation of the time step *)

Lemma dt_crit_pos (nb : notebook) :
  0 < l_e nb -> 0 < E nb -> 0 < rho nb -> 0 < dt_crit nb.
Proof.
  intros Hl HE Hrho. unfold dt_crit, c_e.
  apply Rdiv_lt_0_compat; [assumption|].
  apply sqrt_lt_R0. now apply Rdiv_lt_0_compat.
Qed.

(** C8. The critical time step is the mesh size over the wave speed
    sqrt(E/rho).  A time step above it, 1.01 times the critical time step
    for instance, gives the warning, and the run goes on through its
    steps all the same, in lumped mode as in implicit mode; half the
    critical time step gives no warning. *)
Theorem critical_time_step (nb : notebook) :
  0 < l_e nb -> 0 < E nb -> 0 < rho nb -> num_steps nb <> 0%nat ->
  let warning := "simulation might be unstable"%string in
  dt_crit nb = l_e nb / sqrt (E nb / rho nb) /\
  (dt nb > dt_crit nb -> validate_time_step nb = [warning]) /\
  (dt nb = 1.01 * dt_crit nb -> validate_time_step nb = [warning]) /\
  (dt nb = 0.5 * dt_crit nb -> validate_time_step nb = []) /\
  (validate_use_lumped_mass nb = None ->
   simulate nb
   = Finished (validate_time_step nb) (state_after nb (num_steps nb))).
Proof.
  intros Hl HE Hrho Hn warning. subst warning.
  pose proof (dt_crit_pos nb Hl HE Hrho) as Hpos.
  assert (Hwarn : dt nb > dt_crit nb ->
                  validate_time_step nb
                  = ["simulation might be unstable"%string]).
  { intros H. unfold validate_time_step.
    now rewrite (proj2 (Rgtb_true _ _) H). }
  repeat split.
  - exact Hwarn.
  - intros H. apply Hwarn. lra.
  - intros H. unfold validate_time_step.
    rewrite (proj2 (Rgtb_false _ _)); [reflexivity | lra].
  - intros H. apply simulate_validated; [assumption | assumption | lra].
Qed.

(** ** The two-dof bar *)

Lemma cramer2_solves (a b c d : R) (f : vector) :
  a * d - b * c <> 0 -> length f = 2%nat ->
  length (cramer2 [[a; b]; [c; d]] f) = 2%nat /\
  mult [[a; b]; [c; d]] (cramer2 [[a; b]; [c; d]] f) = f.
Proof.
  intros Hdet Hf.
  destruct f as [|f0 [|f1 [|f2 f]]]; try discriminate.
  split; [reflexivity|].
  unfold cramer2, mult, inner, vsum. simpl. f_equal; [|f_equal]; field; lra.
Qed.

Lemma cramer2_nonsingular (a b c d : R) :
  a * d - b * c <> 0 -> nonsingular 2 [[a; b]; [c; d]].
Proof.
  intros Hdet x Hx Hmul.
  destruct x as [|x0 [|x1 [|x2 x]]]; try discriminate.
  unfold mult, inner, vsum, zeros in Hmul. simpl in Hmul.
  injection Hmul as H0 H1.
  assert (Hx0 : (a * d - b * c) * x0 = 0).
  { replace ((a * d - b * c) * x0)
      with (d * (a * x0 + (b * x1 + 0)) - b * (c * x0 + (d * x1 + 0)))
      by ring.
    rewrite H0, H1. ring. }
  assert (Hx1 : (a * d - b * c) * x1 = 0).
  { replace ((a * d - b * c) * x1)
      with (a * (c * x0 + (d * x1 + 0)) - c * (a * x0 + (b * x1 + 0)))
      by ring.
    rewrite H0, H1. ring. }
  apply Rmult_integral in Hx0, Hx1.
  destruct Hx0 as [Hx0|Hx0], Hx1 as [Hx1|Hx1]; try contradiction.
  subst x0 x1. reflexivity.
Qed.

Lemma bar_implicit_well_formed : well_formed bar_implicit.
Proof. repeat split; repeat constructor. Qed.

Lemma bar_lumped_well_formed : well_formed bar_lumped.
Proof. repeat split; repeat constructor. Qed.

Lemma bar_at_rest_well_formed (lumped : bool) :
  well_formed (bar_at_rest lumped).
Proof. repeat split; repeat constructor. Qed.

Lemma bar_implicit_effective_matrix :
  effective_matrix bar_implicit = [[1; 0]; [3 / 4; 9 / 4]].
Proof. unfold_bar. real_list_eq. Qed.

Lemma bar_at_rest_effective_matrix :
  effective_matrix (bar_at_rest false) = [[1; 0]; [3 / 4; 9 / 4]].
Proof. unfold_bar. real_list_eq. Qed.

Lemma bar_implicit_lu_solves :
  lu_solves bar_implicit (effective_matrix bar_implicit).
Proof.
  intros f Hf. rewrite bar_implicit_effective_matrix.
  apply cramer2_solves; [lra | exact Hf].
Qed.

Lemma bar_implicit_solver_ok : solver_ok bar_implicit.
Proof. intros _. apply bar_implicit_lu_solves. Qed.

Lemma bar_lumped_solver_ok : solver_ok bar_lumped.
Proof. intros H. discriminate H. Qed.

Lemma bar_at_rest_solver_ok : solver_ok (bar_at_rest false).
Proof.
  intros _ f Hf. rewrite bar_at_rest_effective_matrix.
  apply cramer2_solves; [lra | exact Hf].
Qed.

Lemma bar_at_rest_nonsingular :
  nonsingular 2 (effective_matrix (bar_at_rest false)).
Proof.
  rewrite bar_at_rest_effective_matrix. apply cramer2_nonsingular. lra.
Qed.

Lemma bar_lumped_validates : validate_use_lumped_mass bar_lumped = None.
Proof.
  unfold validate_use_lumped_mass. simpl.
  replace (0 - 0) with 0 by lra. replace (0.5 - 0.5) with 0 by lra.
  rewrite Rabs_R0, (proj2 (Rltb_true 0 atol)); [reflexivity|].
  unfold atol. lra.
Qed.

Lemma bar_lumped_dt : dt bar_lumped = 1.01 * dt_crit bar_lumped.
Proof.
  unfold dt, dt_crit, c_e. simpl.
  replace (1 / 1) with 1 by lra. rewrite sqrt_1. lra.
Qed.

Lemma symmetric_2 (a b c : R) : symmetric 2 [[a; b]; [b; c]].
Proof.
  intros i j Hi Hj.
  destruct i as [|[|i]], j as [|[|j]]; try lia; reflexivity.
Qed.

(** The first step of the implicit bar, by hand: the load is [0; 1], the
    acceleration [0; 4/9]. *)
Example bar_implicit_first_step :
  a_vec (state_after bar_implicit 1) = [0; 4 / 9] /\
  u_vec (state_after bar_implicit 1) = [0; 1 / 9] /\
  v_vec (state_after bar_implicit 1) = [0; 2 / 9].
Proof. unfold_bar. repeat split; real_list_eq. Qed.

(** The first step of the lumped bar: [dt = 1.01], the load is
    [0; 1.01], the lumped mass [3; 3]. *)
Example bar_lumped_first_step :
  a_vec (state_after bar_lumped 1) = [0; 1.01 / 3] /\
  u_vec (state_after bar_lumped 1) = [0; 0] /\
  v_vec (state_after bar_lumped 1) = [0; 0.5 * 1.01 * (1.01 / 3)] /\
  trace (state_after bar_lumped 1) = [].
Proof. unfold_bar. repeat split; real_list_eq. Qed.

(** ** The theorems at the two-dof bar *)

Lemma newmark_step_predictor_corrector_witness :
  well_formed bar_implicit /\
  solver_ok bar_implicit /\
  sized bar_implicit (state_after bar_implicit 1) /\
  let solver := fst (build_solver bar_implicit) in
  let s := state_after bar_implicit 1 in
  let s' := newmark_step bar_implicit solver 1 s in
  a_vec s'
  = fst (compute_acceleration bar_implicit solver
           (f_tilde bar_implicit 1 s) (f_tilde bar_implicit 1 s)) /\
  u_vec s'
  = map2 Rplus (u_tilde bar_implicit s)
      (map (Rmult (beta bar_implicit * dt bar_implicit ^ 2)) (a_vec s')) /\
  v_vec s'
  = map2 Rplus (v_tilde bar_implicit s)
      (map (Rmult (gamma bar_implicit * dt bar_implicit)) (a_vec s')).
Proof.
  assert (Hs : sized bar_implicit (state_after bar_implicit 1))
    by (repeat split; reflexivity).
  split; [exact bar_implicit_well_formed|].
  split; [exact bar_implicit_solver_ok|].
  split; [exact Hs|].
  exact (newmark_step_predictor_corrector bar_implicit
           bar_implicit_well_formed 1 (state_after bar_implicit 1)
           bar_implicit_solver_ok Hs).
Defined.

Lemma boundary_dofs_stay_zero_witness :
  well_formed bar_implicit /\
  solver_ok bar_implicit /\
  (0 < n_dofs bar_implicit)%nat /\
  constrained (bcs bar_implicit) 0 = true /\
  nth 0 (u_vec (state_after bar_implicit 2)) 0 = 0 /\
  nth 0 (v_vec (state_after bar_implicit 2)) 0 = 0.
Proof.
  split; [exact bar_implicit_well_formed|].
  split; [exact bar_implicit_solver_ok|].
  split; [simpl; lia|].
  split; [reflexivity|].
  apply (boundary_dofs_stay_zero bar_implicit bar_implicit_well_formed
           bar_implicit_solver_ok 2 0); [simpl; lia | reflexivity].
Defined.

Lemma lumped_mass_validation_witness :
  beta_exp bar_lumped = 0 /\
  gamma_exp bar_lumped = 1 / 2 /\
  validate_use_lumped_mass bar_lumped = None.
Proof.
  assert (Hb : beta_exp bar_lumped = 0) by reflexivity.
  assert (Hg : gamma_exp bar_lumped = 1 / 2) by (simpl; lra).
  split; [exact Hb|]. split; [exact Hg|].
  destruct (lumped_mass_validation bar_lumped Hb Hg)
    as (_ & _ & _ & _ & Hpass).
  apply Hpass; reflexivity.
Defined.

(** C4 as stated fails at the tolerance itself: [beta = 1e-12] is not
    more than [1e-12] away from 0 and [gamma] is 1/2, yet the validation
    raises. *)
Lemma lumped_rejected_at_tolerance :
  use_lumped_mass bar_at_tolerance = true /\
  beta_exp bar_at_tolerance = 0 /\
  gamma_exp bar_at_tolerance = 0.5 /\
  ~ (Rabs (beta bar_at_tolerance - 0) > 1e-12 \/
     Rabs (gamma bar_at_tolerance - 0.5) > 1e-12) /\
  validate_use_lumped_mass bar_at_tolerance
  = Some "cannot use lumped mass in this case"%string /\
  simulate bar_at_tolerance
  = RuntimeError "cannot use lumped mass in this case".
Proof.
  assert (Hv : validate_use_lumped_mass bar_at_tolerance
               = Some "cannot use lumped mass in this case"%string).
  { apply validate_use_lumped_mass_iff. split; [reflexivity|].
    left. simpl. unfold atol. rewrite Rabs_pos_eq; lra. }
  repeat split; try reflexivity.
  - simpl. intros [H|H].
    + rewrite Rabs_pos_eq in H; lra.
    + replace (0.5 - 0.5) with 0 in H by lra. rewrite Rabs_R0 in H. lra.
  - exact Hv.
  - unfold simulate. now rewrite Hv.
Qed.

Lemma lumped_solve_witness :
  well_formed bar_lumped /\
  use_lumped_mass bar_lumped = true /\
  build_solver bar_lumped = (Lumped (M_lumped_inv bar_lumped), []) /\
  trace (state_after bar_lumped 2) = [].
Proof.
  split; [exact bar_lumped_well_formed|].
  split; [reflexivity|].
  destruct (lumped_solve bar_lumped bar_lumped_well_formed eq_refl)
    as (Hb & _ & _ & _ & _ & Ht).
  split; [exact Hb | exact (Ht 2%nat)].
Defined.

(** C5 as stated fails at a constrained dof: for the force vector [1; 0]
    the product with the inverse diagonal is 1/3 at dof 0, and the solve
    returns 0 there. *)
Lemma lumped_solve_not_plain_product :
  well_formed bar_lumped /\
  use_lumped_mass bar_lumped = true /\
  M_lumped bar_lumped = [3; 3] /\
  map2 Rmult (M_lumped_inv bar_lumped) [1; 0] = [1 / 3; 0] /\
  fst (compute_acceleration bar_lumped (fst (build_solver bar_lumped))
         [1; 0] [1; 0]) = [0; 0] /\
  fst (compute_acceleration bar_lumped (fst (build_solver bar_lumped))
         [1; 0] [1; 0])
  <> map2 Rmult (M_lumped_inv bar_lumped) [1; 0].
Proof.
  assert (Hp : map2 Rmult (M_lumped_inv bar_lumped) [1; 0] = [1 / 3; 0])
    by (unfold_bar; real_list_eq).
  assert (Ha : fst (compute_acceleration bar_lumped
                      (fst (build_solver bar_lumped)) [1; 0] [1; 0])
               = [0; 0])
    by (unfold_bar; real_list_eq).
  split; [exact bar_lumped_well_formed|].
  split; [reflexivity|].
  split; [unfold_bar; real_list_eq|].
  split; [exact Hp|]. split; [exact Ha|].
  rewrite Ha, Hp. intros H. injection H as H. lra.
Qed.

Lemma bar_mass_positive_definite : positive_definite 2 [[2; 1]; [1; 2]].
Proof.
  intros x Hx Hne.
  destruct x as [|a [|b [|c x]]]; try discriminate.
  assert (Hq : inner [a; b] (mult [[2; 1]; [1; 2]] [a; b])
               = a ^ 2 + b ^ 2 + (a + b) ^ 2)
    by (unfold_bar; ring).
  rewrite Hq.
  pose proof (pow2_ge_0 a) as Ha2. pose proof (pow2_ge_0 b) as Hb2.
  pose proof (pow2_ge_0 (a + b)) as Hab2.
  destruct (Req_dec_T a 0) as [Ha|Ha].
  - destruct (Req_dec_T b 0) as [Hb|Hb]; [subst; now contradiction Hne|].
    pose proof (Rsqr_pos_lt b Hb) as H. unfold Rsqr in H.
    simpl pow in *. lra.
  - pose proof (Rsqr_pos_lt a Ha) as H. unfold Rsqr in H.
    simpl pow in *. lra.
Qed.

Lemma bc_apply_identity_rows_witness :
  square (n_dofs bar_implicit) (mass bar_implicit) /\
  let B := apply_bcs_matrix (bcs bar_implicit) (mass bar_implicit) in
  entry B 0 0 = 1 /\ entry B 0 1 = 0 /\
  entry B 1 0 = entry (mass bar_implicit) 1 0 /\
  (forall x, nth 0 (mult B x) 0 = nth 0 x 0) /\
  nonsingular 2 B.
Proof.
  assert (HA : square (n_dofs bar_implicit) (mass bar_implicit))
    by apply bar_implicit_well_formed.
  split; [exact HA|].
  destruct (bc_apply_identity_rows bar_implicit (mass bar_implicit) HA)
    as (_ & Hentry & Hrow & _ & Hns & _).
  split; [apply (Hentry 0%nat 0%nat); simpl; lia|].
  split; [apply (Hentry 0%nat 1%nat); simpl; lia|].
  split; [apply (Hentry 1%nat 0%nat); simpl; lia|].
  split; [intros x; apply Hrow; [simpl; lia | reflexivity]|].
  apply Hns, bar_mass_positive_definite.
Defined.

(** C6 as stated fails on the operators of the bar.  Applied to the
    symmetric stiffness matrix, as the notebook does, the boundary
    condition leaves the entry -1 of row 1 in the constrained column 0:
    the column is not zeroed, the result is not symmetric and is not the
    elimination of rows and columns.  The same holds of the symmetric
    positive definite mass matrix, whose result [[1, 0], [1, 2]] is
    nonsingular and not symmetric. *)
Lemma bc_apply_breaks_symmetry :
  symmetric 2 (stiffness bar_implicit) /\
  K bar_implicit = [[1; 0]; [-1; 1]] /\
  entry (K bar_implicit) 1 0 <> 0 /\
  ~ symmetric 2 (K bar_implicit) /\
  eliminate_rows_and_columns (bcs bar_implicit) (stiffness bar_implicit)
  = [[1; 0]; [0; 1]] /\
  K bar_implicit
  <> eliminate_rows_and_columns (bcs bar_implicit) (stiffness bar_implicit) /\
  symmetric 2 (mass bar_implicit) /\
  positive_definite 2 (mass bar_implicit) /\
  apply_bcs_matrix (bcs bar_implicit) (mass bar_implicit)
  = [[1; 0]; [1; 2]] /\
  ~ symmetric 2 (apply_bcs_matrix (bcs bar_implicit) (mass bar_implicit)).
Proof.
  assert (HK : K bar_implicit = [[1; 0]; [-1; 1]]) by reflexivity.
  assert (HM : apply_bcs_matrix (bcs bar_implicit) (mass bar_implicit)
               = [[1; 0]; [1; 2]]) by reflexivity.
  assert (HE : eliminate_rows_and_columns (bcs bar_implicit)
                 (stiffness bar_implicit) = [[1; 0]; [0; 1]])
    by reflexivity.
  split; [apply symmetric_2|].
  split; [exact HK|].
  split; [rewrite HK; unfold entry; simpl; lra|].
  split.
  { rewrite HK. intros H.
    specialize (H 0%nat 1%nat ltac:(lia) ltac:(lia)).
    unfold entry in H. simpl in H. lra. }
  split; [exact HE|].
  split.
  { rewrite HK, HE. intros H. injection H as H. lra. }
  split; [apply symmetric_2|].
  split; [exact bar_mass_positive_definite|].
  split; [exact HM|].
  rewrite HM. intros H.
  specialize (H 0%nat 1%nat ltac:(lia) ltac:(lia)).
  unfold entry in H. simpl in H. lra.
Qed.

Lemma energy_rows_witness :
  (0 + 1 < length (energies state_in_motion))%nat /\
  (1 < 2)%nat /\
  (2 <= num_steps bar_damped)%nat /\
  let s1 := newmark_step bar_damped (fst (build_solver bar_damped)) 0
              state_in_motion in
  u_vec s1 = [0; 23 / 13] /\
  v_vec s1 = [0; 7 / 13] /\
  E_damp s1 = 267 / 169 /\
  nth 1 (energies s1) [] = [529 / 338; 49 / 169; 267 / 169; 1161 / 338] /\
  nth 2 (energies s1) [] = [9; 9; 9; 9] /\
  length (energies (state_after bar_damped 2)) = 3%nat.
Proof.
  assert (Hm : (0 + 1 < length (energies state_in_motion))%nat)
    by (simpl; lia).
  assert (Hk : (2 <= num_steps bar_damped)%nat) by (simpl; lia).
  split; [exact Hm|]. split; [lia|]. split; [exact Hk|].
  destruct (energy_rows bar_damped (fst (build_solver bar_damped)) 0
              state_in_motion 2 1 Hm ltac:(lia) Hk)
    as ((Hu & Hv & Hd & Hrow & _ & Hother) & _ & _ & _ & Hlen & _).
  cbv zeta. cbn [Nat.add] in Hrow.
  split; [rewrite Hu; unfold_bar; real_list_eq|].
  split; [rewrite Hv; unfold_bar; real_list_eq|].
  split; [rewrite Hd; unfold_bar; simpl pow; lra|].
  split; [rewrite Hrow; unfold_bar; real_list_eq|].
  split; [rewrite (Hother 2%nat) by discriminate; reflexivity|].
  exact Hlen.
Defined.

Lemma critical_time_step_witness :
  0 < l_e bar_lumped /\
  0 < E bar_lumped /\
  0 < rho bar_lumped /\
  num_steps bar_lumped <> 0%nat /\
  use_lumped_mass bar_lumped = true /\
  dt bar_lumped = 1.01 * dt_crit bar_lumped /\
  validate_time_step bar_lumped = ["simulation might be unstable"%string] /\
  simulate bar_lumped
  = Finished ["simulation might be unstable"%string]
      (state_after bar_lumped (num_steps bar_lumped)).
Proof.
  assert (Hl : 0 < l_e bar_lumped) by (simpl; lra).
  assert (HE : 0 < E bar_lumped) by (simpl; lra).
  assert (Hrho : 0 < rho bar_lumped) by (simpl; lra).
  assert (Hn : num_steps bar_lumped <> 0%nat) by discriminate.
  destruct (critical_time_step bar_lumped Hl HE Hrho Hn)
    as (_ & _ & Hwarn & _ & Hrun).
  pose proof (Hwarn bar_lumped_dt) as Hw.
  split; [exact Hl|]. split; [exact HE|]. split; [exact Hrho|].
  split; [exact Hn|]. split; [reflexivity|].
  split; [exact bar_lumped_dt|]. split; [exact Hw|].
  rewrite <- Hw. apply Hrun, bar_lumped_validates.
Defined.

Lemma zero_state_is_fixed_point_witness :
  well_formed (bar_at_rest false) /\
  solver_ok (bar_at_rest false) /\
  (use_lumped_mass (bar_at_rest false) = false ->
   nonsingular (n_dofs (bar_at_rest false))
     (effective_matrix (bar_at_rest false))) /\
  (forall t, p_ext (bar_at_rest false) t = zeros (n_dofs (bar_at_rest false))) /\
  u_vec (state_after (bar_at_rest false) 2) = [0; 0] /\
  v_vec (state_after (bar_at_rest false) 2) = [0; 0] /\
  a_vec (state_after (bar_at_rest false) 2) = [0; 0].
Proof.
  split; [exact (bar_at_rest_well_formed false)|].
  split; [exact bar_at_rest_solver_ok|].
  split; [intros _; exact bar_at_rest_nonsingular|].
  split; [reflexivity|].
  exact (zero_state_is_fixed_point (bar_at_rest false)
           (bar_at_rest_well_formed false) bar_at_rest_solver_ok
           (fun _ => bar_at_rest_nonsingular) (fun _ => eq_refl) 2).
Defined.

Lemma acceleration_at_constrained_dofs_witness :
  well_formed bar_implicit /\
  solver_ok bar_implicit /\
  (0 < n_dofs bar_implicit)%nat /\
  constrained (bcs bar_implicit) 0 = true /\
  forall k, nth 0 (a_vec (state_after bar_implicit k)) 0 = 0.
Proof.
  split; [exact bar_implicit_well_formed|].
  split; [exact bar_implicit_solver_ok|].
  split; [simpl; lia|].
  split; [reflexivity|].
  apply (acceleration_at_constrained_dofs bar_implicit
           bar_implicit_well_formed bar_implicit_solver_ok 0);
    [simpl; lia | reflexivity].
Defined.

(** * Further properties of the notebooks *)

(** ** Linear algebra of the products *)

Lemma inner_map2_plus_l (r1 r2 x : vector) :
  length r1 = length r2 ->
  inner (map2 Rplus r1 r2) x = inner r1 x + inner r2 x.
Proof.
  revert r2 x; induction r1 as [|a r1 IH]; intros [|b r2] [|c x] Hlen;
    simpl in Hlen; try discriminate; unfold inner; simpl; try lra.
  fold (inner (map2 Rplus r1 r2) x) (inner r1 x) (inner r2 x).
  rewrite IH by lia. lra.
Qed.

Lemma inner_map_Rmult_l (c : R) (r x : vector) :
  inner (map (Rmult c) r) x = c * inner r x.
Proof.
  revert x; induction r as [|a r IH]; intros [|b x]; unfold inner; simpl;
    try lra.
  fold (inner (map (Rmult c) r) x) (inner r x). rewrite IH. lra.
Qed.

Lemma inner_axpy_r (r : vector) (c : R) (a y : vector) :
  length a = length y ->
  inner r (axpy c a y) = c * inner r a + inner r y.
Proof.
  revert a y; induction r as [|x r IH]; intros [|a0 a] [|y0 y] Hlen;
    simpl in Hlen; try discriminate; unfold inner, axpy; simpl; try lra.
  fold (axpy c a y) (inner r (axpy c a y)) (inner r a) (inner r y).
  rewrite IH by lia. lra.
Qed.

Lemma inner_comm (x y : vector) : inner x y = inner y x.
Proof.
  revert y; induction x as [|a x IH]; intros [|b y]; unfold inner; simpl;
    try lra.
  fold (inner x y) (inner y x). rewrite IH. lra.
Qed.

(** ** The equation of motion at each step *)

Section Motion.

Variable nb : notebook.
Hypothesis Hwf : well_formed nb.

(** A row of the boundary-applied operators at an unconstrained dof is the
    row of the assembled form. *)
Lemma nth_C_free (i : nat) :
  constrained (bcs nb) i = false -> nth i (C nb) [] = nth i (damping nb) [].
Proof. intros Hc. unfold C. now rewrite nth_apply_bcs_matrix, Hc. Qed.

Lemma nth_K_free (i : nat) :
  constrained (bcs nb) i = false -> nth i (K nb) [] = nth i (stiffness nb) [].
Proof. intros Hc. unfold K. now rewrite nth_apply_bcs_matrix, Hc. Qed.

Lemma nth_effective_matrix_free (i : nat) :
  (i < n_dofs nb)%nat -> constrained (bcs nb) i = false ->
  nth i (effective_matrix nb) []
  = map2 Rplus
      (map2 Rplus (nth i (mass nb) [])
         (map (Rmult (gamma nb * dt nb)) (nth i (damping nb) [])))
      (map (Rmult (beta nb * dt nb ^ 2)) (nth i (stiffness nb) [])).
Proof.
  intros Hi Hc. unfold effective_matrix.
  rewrite nth_apply_bcs_matrix, Hc.
  rewrite (nth_madd (n_dofs nb)); auto using square_madd, square_mscale,
    square_mass, square_C, square_K.
  rewrite (nth_madd (n_dofs nb)); auto using square_mscale,
    square_mass, square_C.
  now rewrite !nth_mscale, nth_C_free, nth_K_free.
Qed.

Lemma inner_effective_row (i : nat) (x : vector) :
  (i < n_dofs nb)%nat -> constrained (bcs nb) i = false ->
  inner (nth i (effective_matrix nb) []) x
  = inner (nth i (mass nb) []) x
    + gamma nb * dt nb * inner (nth i (damping nb) []) x
    + beta nb * dt nb ^ 2 * inner (nth i (stiffness nb) []) x.
Proof.
  intros Hi Hc. rewrite nth_effective_matrix_free by assumption.
  pose proof (square_row _ _ _ (square_mass nb Hwf) Hi) as HM.
  pose proof (square_row _ _ _ (square_damping nb Hwf) Hi) as HD.
  pose proof (square_row _ _ _ (square_stiffness nb Hwf) Hi) as HK.
  rewrite inner_map2_plus_l
    by (rewrite length_map2, !length_map, HM, HD, HK; lia).
  rewrite inner_map2_plus_l by (now rewrite length_map, HM, HD).
  now rewrite !inner_map_Rmult_l.
Qed.

(** The fields after a step, from the predicted fields and the new
    acceleration. *)
Lemma fields_after_step (k : nat) :
  let s := state_after nb k in
  let s' := state_after nb (S k) in
  u_vec s' = axpy (beta nb * dt nb ^ 2) (a_vec s') (u_predicted nb s) /\
  v_vec s' = axpy (gamma nb * dt nb) (a_vec s') (v_predicted nb s).
Proof.
  cbv zeta. rewrite state_after_S, newmark_step_fields. cbv zeta.
  now cbn [u_vec v_vec a_vec].
Qed.

Lemma balance_at_free_dof (k i : nat) :
  use_lumped_mass nb = false ->
  lu_solves nb (effective_matrix nb) ->
  (i < n_dofs nb)%nat -> constrained (bcs nb) i = false ->
  let s' := state_after nb (S k) in
  nth i (mult (mass nb) (a_vec s')) 0
  + nth i (mult (damping nb) (v_vec s')) 0
  + nth i (mult (stiffness nb) (u_vec s')) 0
  = nth i (p_ext nb (INR (k + 1) * dt nb)) 0.
Proof.
  intros Himp Hlu Hi Hc. cbv zeta.
  assert (Hok : solver_ok nb) by (intros _; exact Hlu).
  pose proof (sized_state_after nb Hwf k Hok) as Hs.
  pose proof (sized_state_after nb Hwf (S k) Hok) as (_ & _ & Ha').
  destruct (fields_after_step k) as [Hu Hv]. cbv zeta in Hu, Hv.
  destruct (Hlu _ (length_f_assembled nb Hwf k (state_after nb k)))
    as [_ Hsol].
  rewrite <- (implicit_a_vec nb Himp k) in Hsol.
  apply (f_equal (fun x => nth i x 0)) in Hsol.
  rewrite nth_mult, inner_effective_row in Hsol by assumption.
  rewrite (nth_f_assembled nb Hwf), Hc in Hsol by assumption.
  rewrite !nth_mult in *. rewrite nth_C_free, nth_K_free in Hsol by assumption.
  rewrite Hu, Hv.
  rewrite !inner_axpy_r
    by (rewrite Ha'; symmetry;
        first [apply (length_u_predicted nb _ Hs)
              | apply (length_v_predicted nb _ Hs)]).
  lra.
Qed.

(** X1. In implicit mode the fields after every step satisfy the
    discretized equation of motion M a + C v + K u = F(t_{n+1}) at every
    unconstrained dof, with the assembled mass, damping and stiffness. *)
Theorem equation_of_motion (k i : nat) :
  use_lumped_mass nb = false ->
  lu_solves nb (effective_matrix nb) ->
  (i < n_dofs nb)%nat -> constrained (bcs nb) i = false ->
  let s' := state_after nb (S k) in
  nth i (mult (mass nb) (a_vec s')) 0
  + nth i (mult (damping nb) (v_vec s')) 0
  + nth i (mult (stiffness nb) (u_vec s')) 0
  = nth i (p_ext nb (INR (k + 1) * dt nb)) 0.
Proof. exact (balance_at_free_dof k i). Qed.

End Motion.

(** ** Finite sums and bilinear forms *)

Lemma bigsum_ext (n : nat) (f g : nat -> R) :
  (forall i, (i < n)%nat -> f i = g i) -> bigsum n f = bigsum n g.
Proof.
  induction n as [|n IH]; intros H; simpl; [reflexivity|].
  rewrite IH by (intros i Hi; apply H; lia). rewrite (H n) by lia.
  reflexivity.
Qed.

Lemma bigsum_shift (n : nat) (f : nat -> R) :
  bigsum (S n) f = f 0%nat + bigsum n (fun i => f (S i)).
Proof.
  induction n as [|n IH]; [simpl; lra|].
  change (bigsum (S (S n)) f) with (bigsum (S n) f + f (S n)).
  rewrite IH. simpl. lra.
Qed.

Lemma bigsum_plus (n : nat) (f g : nat -> R) :
  bigsum n (fun i => f i + g i) = bigsum n f + bigsum n g.
Proof. induction n as [|n IH]; simpl; [lra | rewrite IH; lra]. Qed.

Lemma bigsum_scal (n : nat) (c : R) (f : nat -> R) :
  bigsum n (fun i => c * f i) = c * bigsum n f.
Proof. induction n as [|n IH]; simpl; [lra | rewrite IH; lra]. Qed.

Lemma bigsum_zero (n : nat) : bigsum n (fun _ => 0) = 0.
Proof. induction n as [|n IH]; simpl; [lra | rewrite IH; lra]. Qed.

Lemma bigsum_swap (n m : nat) (f : nat -> nat -> R) :
  bigsum n (fun i => bigsum m (fun j => f i j))
  = bigsum m (fun j => bigsum n (fun i => f i j)).
Proof.
  induction n as [|n IH]; simpl.
  - now rewrite bigsum_zero.
  - rewrite IH, <- bigsum_plus. reflexivity.
Qed.

Lemma inner_bigsum (n : nat) (x y : vector) :
  length x = n -> length y = n ->
  inner x y = bigsum n (fun i => nth i x 0 * nth i y 0).
Proof.
  revert x y; induction n as [|n IH]; intros [|a x] [|b y] Hx Hy;
    simpl in Hx, Hy; try discriminate; [reflexivity|].
  rewrite inner_cons, bigsum_shift, (IH x y) by lia. reflexivity.
Qed.

(** A vector that is, entry by entry, a combination of two others. *)
Lemma combination (n : nat) (a b : R) (x x1 x2 : vector) :
  length x = n -> length x1 = n -> length x2 = n ->
  (forall i, (i < n)%nat -> nth i x 0 = a * nth i x1 0 + b * nth i x2 0) ->
  x = map2 Rplus (map (Rmult a) x1) (map (Rmult b) x2).
Proof.
  intros Hx H1 H2 H. apply (list_eq_nth 0).
  - rewrite length_map2, !length_map. lia.
  - intros i Hi.
    rewrite (nth_map2 Rplus _ _ i 0 0 0) by (rewrite length_map; lia).
    rewrite !nth_map_Rmult. apply H. lia.
Qed.

Lemma inner_lin_l (n : nat) (a b : R) (x x1 x2 z : vector) :
  length x = n -> length x1 = n -> length x2 = n ->
  (forall i, (i < n)%nat -> nth i x 0 = a * nth i x1 0 + b * nth i x2 0) ->
  inner x z = a * inner x1 z + b * inner x2 z.
Proof.
  intros Hx H1 H2 H. rewrite (combination n a b x x1 x2 Hx H1 H2 H).
  rewrite inner_map2_plus_l by (rewrite !length_map; lia).
  now rewrite !inner_map_Rmult_l.
Qed.

Lemma inner_lin_r (n : nat) (a b : R) (x x1 x2 z : vector) :
  length x = n -> length x1 = n -> length x2 = n ->
  (forall i, (i < n)%nat -> nth i x 0 = a * nth i x1 0 + b * nth i x2 0) ->
  inner z x = a * inner z x1 + b * inner z x2.
Proof.
  intros Hx H1 H2 H. rewrite !(inner_comm z).
  now apply (inner_lin_l n).
Qed.

Lemma quad_lin_r (n : nat) (A : matrix) (a b : R) (x x1 x2 z : vector) :
  length x = n -> length x1 = n -> length x2 = n ->
  (forall i, (i < n)%nat -> nth i x 0 = a * nth i x1 0 + b * nth i x2 0) ->
  inner z (mult A x) = a * inner z (mult A x1) + b * inner z (mult A x2).
Proof.
  intros Hx H1 H2 H.
  apply (inner_lin_r (length A)); rewrite ?length_mult; auto.
  intros i _. rewrite !nth_mult. now apply (inner_lin_r n).
Qed.

Lemma quad_bigsum (n : nat) (A : matrix) (x y : vector) :
  square n A -> length x = n -> length y = n ->
  inner x (mult A y)
  = bigsum n (fun i => bigsum n (fun j => nth i x 0 * entry A i j * nth j y 0)).
Proof.
  intros HA Hx Hy.
  rewrite (inner_bigsum n)
    by (rewrite ?length_mult; auto using square_length).
  apply bigsum_ext. intros i Hi. rewrite nth_mult.
  rewrite (inner_bigsum n) by (auto using square_row).
  rewrite <- bigsum_scal. apply bigsum_ext. intros j Hj.
  unfold entry. lra.
Qed.

(** A symmetric matrix gives a symmetric bilinear form. *)
Lemma quad_sym (n : nat) (A : matrix) (x y : vector) :
  square n A -> symmetric n A -> length x = n -> length y = n ->
  inner x (mult A y) = inner y (mult A x).
Proof.
  intros HA Hsym Hx Hy.
  rewrite !(quad_bigsum n) by assumption. rewrite bigsum_swap.
  apply bigsum_ext. intros j Hj. apply bigsum_ext. intros i Hi.
  rewrite (Hsym i j Hi Hj). lra.
Qed.

(** The difference of a symmetric quadratic form between [x] and
    [x + h w]. *)
Lemma quad_increment (n : nat) (A : matrix) (h : R) (x x' w : vector) :
  square n A -> symmetric n A ->
  length x = n -> length x' = n -> length w = n ->
  (forall i, (i < n)%nat -> nth i x' 0 = 1 * nth i x 0 + h * nth i w 0) ->
  inner x' (mult A x') - inner x (mult A x)
  = h * (inner w (mult A x) + inner w (mult A x')).
Proof.
  intros HA Hsym Hx Hx' Hw H.
  rewrite (inner_lin_l n 1 h x' x w (mult A x')) by assumption.
  rewrite (quad_lin_r n A 1 h x' x w x) by assumption.
  rewrite (quad_sym n A x w) by assumption. lra.
Qed.

(** ** The explicit displacement update *)

Lemma nth_u_tilde (nb : notebook) (s : state) (i : nat) :
  (i < n_dofs nb)%nat ->
  nth i (u_tilde nb s) 0
  = nth i (u_vec s) 0 + dt nb * nth i (v_vec s) 0
    + (1 / 2 - beta nb) * dt nb ^ 2 * nth i (a_vec s) 0.
Proof. intros Hi. unfold u_tilde. now rewrite nth_map_seq. Qed.

Lemma nth_v_tilde (nb : notebook) (s : state) (i : nat) :
  (i < n_dofs nb)%nat ->
  nth i (v_tilde nb s) 0
  = nth i (v_vec s) 0 + (1 - gamma nb) * dt nb * nth i (a_vec s) 0.
Proof. intros Hi. unfold v_tilde. now rewrite nth_map_seq. Qed.

(** The fields after a step, entry by entry. *)
Lemma nth_fields_after_step (nb : notebook) (k i : nat) :
  well_formed nb -> solver_ok nb -> (i < n_dofs nb)%nat ->
  let s := state_after nb k in
  let s' := state_after nb (S k) in
  nth i (u_vec s') 0
  = nth i (u_vec s) 0 + dt nb * nth i (v_vec s) 0
    + (1 / 2 - beta nb) * dt nb ^ 2 * nth i (a_vec s) 0
    + beta nb * dt nb ^ 2 * nth i (a_vec s') 0 /\
  nth i (v_vec s') 0
  = nth i (v_vec s) 0 + (1 - gamma nb) * dt nb * nth i (a_vec s) 0
    + gamma nb * dt nb * nth i (a_vec s') 0.
Proof.
  intros Hwf Hok Hi. cbv zeta.
  pose proof (sized_state_after nb Hwf k Hok) as Hs.
  pose proof (sized_state_after nb Hwf (S k) Hok) as (_ & _ & Ha').
  destruct (fields_after_step nb k) as [Hu Hv]. cbv zeta in Hu, Hv.
  rewrite Hu, Hv.
  rewrite !nth_axpy
    by (rewrite ?Ha', ?(length_u_predicted nb _ Hs),
          ?(length_v_predicted nb _ Hs); assumption).
  rewrite (u_predicted_tilde nb _ Hs), (v_predicted_tilde nb _ Hs).
  rewrite nth_u_tilde, nth_v_tilde by assumption. split; lra.
Qed.

(** X2. With beta = 0 the scheme is explicit in the displacement: the
    displacement after a step is u + dt v + dt^2/2 a of the fields before
    it, whatever the external force and the acceleration solve of that
    step. *)
Theorem explicit_displacement (nb : notebook) (k i : nat) :
  well_formed nb -> solver_ok nb -> beta nb = 0 -> (i < n_dofs nb)%nat ->
  let s := state_after nb k in
  nth i (u_vec (state_after nb (S k))) 0
  = nth i (u_vec s) 0 + dt nb * nth i (v_vec s) 0
    + dt nb ^ 2 / 2 * nth i (a_vec s) 0.
Proof.
  intros Hwf Hok Hb Hi. cbv zeta.
  destruct (nth_fields_after_step nb k i Hwf Hok Hi) as [Hu _].
  cbv zeta in Hu. rewrite Hu, Hb. lra.
Qed.

(** ** Runs without damping *)

Section NoDamping.

Variable nb : notebook.
Hypothesis Hwf : well_formed nb.
Hypothesis Hm : eta_m nb = 0.
Hypothesis Hk : eta_k nb = 0.

Lemma inner_damping_row_zero (i : nat) (x : vector) :
  (i < n_dofs nb)%nat -> inner (nth i (damping nb) []) x = 0.
Proof.
  intros Hi. unfold damping.
  pose proof (square_mscale _ (eta_m nb) _ (square_mass nb Hwf)) as HM.
  pose proof (square_mscale _ (eta_k nb) _ (square_stiffness nb Hwf)) as HK.
  rewrite (nth_madd _ _ _ _ HM HK Hi).
  rewrite inner_map2_plus_l
    by (now rewrite (square_row _ _ _ HM Hi), (square_row _ _ _ HK Hi)).
  rewrite !nth_mscale, !inner_map_Rmult_l, Hm, Hk. lra.
Qed.

Lemma mult_damping_zero (x : vector) :
  mult (damping nb) x = zeros (n_dofs nb).
Proof.
  apply vector_zero.
  - rewrite length_mult. apply square_length, square_damping, Hwf.
  - intros i Hi. rewrite nth_mult. now apply inner_damping_row_zero.
Qed.

Lemma E_damp_zero (k : nat) : E_damp (state_after nb k) = 0.
Proof.
  induction k as [|k IH]; [reflexivity|].
  destruct (energies_step nb k) as [-> _].
  rewrite IH, mult_damping_zero, inner_zeros_r. lra.
Qed.

(** X3. Without damping (eta_m = eta_k = 0, as the notebooks set them)
    the damping energy stays zero: in every written row of the energy
    table the damping column is 0 and the total is the sum of the elastic
    and kinetic energies. *)
Theorem no_damping_no_dissipation (k n : nat) :
  (n < k)%nat -> (k <= num_steps nb)%nat ->
  let row := nth (S n) (energies (state_after nb k)) [] in
  E_damp (state_after nb k) = 0 /\
  nth 2 row 0 = 0 /\
  nth 3 row 0 = nth 0 row 0 + nth 1 row 0.
Proof.
  intros Hn Hkn. cbv zeta.
  pose proof (energies_written nb k n Hn Hkn) as Hrow. cbv zeta in Hrow.
  rewrite Hrow. unfold energy_row. cbn [nth].
  rewrite !E_damp_zero. repeat split; lra.
Qed.

End NoDamping.

(** ** The energy balance of the average-acceleration scheme *)

Lemma nth_vadd (n : nat) (x y : vector) (i : nat) :
  length x = n -> length y = n -> (i < n)%nat ->
  nth i (vadd x y) 0 = nth i x 0 + nth i y 0.
Proof.
  intros Hx Hy Hi. unfold vadd.
  apply (nth_map2 Rplus x y i 0 0 0); lia.
Qed.

Lemma nth_vsub (n : nat) (x y : vector) (i : nat) :
  length x = n -> length y = n -> (i < n)%nat ->
  nth i (vsub x y) 0 = nth i x 0 - nth i y 0.
Proof.
  intros Hx Hy Hi. unfold vsub.
  apply (nth_map2 Rminus x y i 0 0 0); lia.
Qed.

Lemma length_vadd (n : nat) (x y : vector) :
  length x = n -> length y = n -> length (vadd x y) = n.
Proof. intros Hx Hy. unfold vadd. rewrite length_map2. lia. Qed.

Lemma length_vsub (n : nat) (x y : vector) :
  length x = n -> length y = n -> length (vsub x y) = n.
Proof. intros Hx Hy. unfold vsub. rewrite length_map2. lia. Qed.

Section EnergyBalance.

Variable nb : notebook.
Hypothesis Hwf : well_formed nb.
Hypothesis Himp : use_lumped_mass nb = false.
Hypothesis Hlu : lu_solves nb (effective_matrix nb).
Hypothesis HMsym : symmetric (n_dofs nb) (mass nb).
Hypothesis HKsym : symmetric (n_dofs nb) (stiffness nb).
Hypothesis Hm : eta_m nb = 0.
Hypothesis Hk : eta_k nb = 0.
Hypothesis Hbeta : beta nb = 1 / 4.
Hypothesis Hgamma : gamma nb = 1 / 2.

Lemma implicit_solver_ok : solver_ok nb.
Proof. intros _. exact Hlu. Qed.

(** The power of the inertia and elastic forces against a field that
    vanishes at the constrained dofs is the power of the external
    force. *)
Lemma inner_balance (k : nat) (w : vector) :
  length w = n_dofs nb ->
  (forall i, (i < n_dofs nb)%nat -> constrained (bcs nb) i = true ->
             nth i w 0 = 0) ->
  let s := state_after nb (S k) in
  inner w (mult (mass nb) (a_vec s)) + inner w (mult (stiffness nb) (u_vec s))
  = inner w (p_ext nb (INR (k + 1) * dt nb)).
Proof.
  intros Hw Hzero. cbv zeta.
  rewrite !(inner_bigsum (n_dofs nb))
    by (rewrite ?length_mult; auto using length_p_ext;
        apply square_length; auto using square_mass, square_stiffness).
  rewrite <- bigsum_plus. apply bigsum_ext. intros i Hi.
  destruct (constrained (bcs nb) i) eqn:Hc.
  - rewrite (Hzero i Hi Hc). lra.
  - pose proof (balance_at_free_dof nb Hwf k i Himp Hlu Hi Hc) as Hbal.
    cbv zeta in Hbal.
    rewrite (mult_damping_zero nb Hwf Hm Hk), nth_zeros in Hbal.
    rewrite <- Hbal. lra.
Qed.

(** The increment of the total energy over the step entered in the
    state after [j] steps, when the fields of that state balance the force
    [F] against every field that vanishes at the constrained dofs. *)
Lemma energy_increment_from (j : nat) (F : vector) :
  length F = n_dofs nb ->
  (forall w, length w = n_dofs nb ->
     (forall i, (i < n_dofs nb)%nat -> constrained (bcs nb) i = true ->
                nth i w 0 = 0) ->
     inner w (mult (mass nb) (a_vec (state_after nb j)))
     + inner w (mult (stiffness nb) (u_vec (state_after nb j)))
     = inner w F) ->
  let s := state_after nb j in
  let s' := state_after nb (S j) in
  total_energy nb s' - total_energy nb s
  = 1 / 2 * inner (vsub (u_vec s') (u_vec s))
              (vadd F (p_ext nb (INR (j + 1) * dt nb))).
Proof.
  intros HFlen Hbalance. cbv zeta.
  set (s := state_after nb j). set (s' := state_after nb (S j)).
  set (n := n_dofs nb). set (h := dt nb / 2).
  set (F' := p_ext nb (INR (j + 1) * dt nb)).
  pose proof implicit_solver_ok as Hok.
  destruct (sized_state_after nb Hwf j Hok) as (Hu & Hv & Ha).
  destruct (sized_state_after nb Hwf (S j) Hok) as (Hu' & Hv' & Ha').
  fold s in Hu, Hv, Ha. fold s' in Hu', Hv', Ha'. fold n in Hu, Hv, Ha, Hu', Hv', Ha'.
  pose proof (square_mass nb Hwf) as HM.
  pose proof (square_stiffness nb Hwf) as HK. fold n in HM, HK.
  set (w := vadd (v_vec s) (v_vec s')).
  set (b := vadd (a_vec s) (a_vec s')).
  assert (Hw : length w = n) by (now apply length_vadd).
  assert (Hb : length b = n) by (now apply length_vadd).
  assert (Hwi : forall i, (i < n)%nat ->
                          nth i w 0 = nth i (v_vec s) 0 + nth i (v_vec s') 0)
    by (intros i Hi; now apply (nth_vadd n)).
  assert (Hbi : forall i, (i < n)%nat ->
                          nth i b 0 = nth i (a_vec s) 0 + nth i (a_vec s') 0)
    by (intros i Hi; now apply (nth_vadd n)).
  assert (Hstep : forall i, (i < n)%nat ->
            nth i (u_vec s') 0 = 1 * nth i (u_vec s) 0 + h * nth i w 0 /\
            nth i (v_vec s') 0 = 1 * nth i (v_vec s) 0 + h * nth i b 0).
  { intros i Hi.
    destruct (nth_fields_after_step nb j i Hwf Hok Hi) as [Hui Hvi].
    cbv zeta in Hui, Hvi. fold s s' in Hui, Hvi.
    rewrite Hbeta, Hgamma in *.
    rewrite (Hwi i Hi), (Hbi i Hi), Hvi. subst h. split; [rewrite Hui|]; lra. }
  assert (Hwzero : forall i, (i < n)%nat -> constrained (bcs nb) i = true ->
                             nth i w 0 = 0).
  { intros i Hi Hc. rewrite (Hwi i Hi).
    destruct (constrained_fields_zero nb Hwf Hok j i Hi Hc)
      as (_ & Hv0 & _).
    destruct (constrained_fields_zero nb Hwf Hok (S j) i Hi Hc)
      as (_ & Hv0' & _).
    fold s in Hv0. fold s' in Hv0'. rewrite Hv0, Hv0'. lra. }
  (* elastic and kinetic increments *)
  pose proof (quad_increment n (stiffness nb) h (u_vec s) (u_vec s') w
                HK HKsym Hu Hu' Hw (fun i Hi => proj1 (Hstep i Hi))) as HdK.
  pose proof (quad_increment n (mass nb) h (v_vec s) (v_vec s') b
                HM HMsym Hv Hv' Hb (fun i Hi => proj2 (Hstep i Hi))) as HdM.
  (* b against M v + M v' is w against M a + M a' *)
  assert (HbM : inner b (mult (mass nb) (v_vec s))
                + inner b (mult (mass nb) (v_vec s'))
                = inner w (mult (mass nb) (a_vec s))
                  + inner w (mult (mass nb) (a_vec s'))).
  { rewrite <- (Rmult_1_l (inner b (mult (mass nb) (v_vec s)))).
    rewrite <- (Rmult_1_l (inner b (mult (mass nb) (v_vec s')))).
    rewrite <- (quad_lin_r n (mass nb) 1 1 w (v_vec s) (v_vec s') b)
      by (auto; intros i Hi; rewrite (Hwi i Hi); lra).
    rewrite (quad_sym n (mass nb) b w) by assumption.
    rewrite (quad_lin_r n (mass nb) 1 1 b (a_vec s) (a_vec s') w)
      by (auto; intros i Hi; rewrite (Hbi i Hi); lra).
    lra. }
  pose proof (Hbalance w Hw Hwzero) as Hbal.
  pose proof (inner_balance j w Hw Hwzero) as Hbal'.
  cbv zeta in Hbal'. fold s in Hbal. fold s' F' in Hbal'.
  (* the work of the external forces *)
  assert (Hwork : inner (vsub (u_vec s') (u_vec s)) (vadd F F')
                  = h * (inner w F + inner w F')).
  { assert (HF : length F = n) by exact HFlen.
    assert (HF' : length F' = n) by apply (length_p_ext nb Hwf).
    rewrite (inner_lin_l n h 0 (vsub (u_vec s') (u_vec s)) w w (vadd F F'))
      by (auto using length_vsub; intros i Hi;
          rewrite (nth_vsub n) by assumption;
          rewrite (proj1 (Hstep i Hi)); lra).
    rewrite (inner_lin_r n 1 1 (vadd F F') F F' w)
      by (auto using length_vadd; intros i Hi;
          rewrite (nth_vadd n) by assumption; lra).
    lra. }
  rewrite Hwork. unfold total_energy.
  fold s s'. unfold s, s'. rewrite !(E_damp_zero nb Hwf Hm Hk). fold s s'.
  transitivity
    (1 / 2 * (inner (u_vec s') (mult (stiffness nb) (u_vec s'))
              - inner (u_vec s) (mult (stiffness nb) (u_vec s)))
     + 1 / 2 * (inner (v_vec s') (mult (mass nb) (v_vec s'))
                - inner (v_vec s) (mult (mass nb) (v_vec s)))); [lra|].
  rewrite HdK, HdM, HbM, <- Hbal, <- Hbal'. ring.
Qed.

Lemma energy_increment (k : nat) :
  let s := state_after nb (S k) in
  let s' := state_after nb (S (S k)) in
  total_energy nb s' - total_energy nb s
  = 1 / 2 * inner (vsub (u_vec s') (u_vec s))
              (vadd (p_ext nb (INR (k + 1) * dt nb))
                    (p_ext nb (INR (S k + 1) * dt nb))).
Proof.
  apply (energy_increment_from (S k) (p_ext nb (INR (k + 1) * dt nb))).
  - apply (length_p_ext nb Hwf).
  - intros w Hw Hzero. now apply inner_balance.
Qed.

(** The first step: the fields at rest balance a force that is zero at
    the unconstrained dofs. *)
Lemma energy_increment_first :
  (forall i, (i < n_dofs nb)%nat -> constrained (bcs nb) i = false ->
             nth i (p_ext nb 0) 0 = 0) ->
  let s := state_after nb 0 in
  let s' := state_after nb 1 in
  total_energy nb s' - total_energy nb s
  = 1 / 2 * inner (vsub (u_vec s') (u_vec s))
              (vadd (p_ext nb 0) (p_ext nb (INR (0 + 1) * dt nb))).
Proof.
  intros Hrest.
  apply (energy_increment_from 0 (p_ext nb 0)).
  - apply (length_p_ext nb Hwf).
  - intros w Hw Hzero. rewrite state_after_0. cbn [initial_state a_vec u_vec].
    rewrite !mult_zeros, !inner_zeros_r, Rplus_0_l.
    rewrite (inner_bigsum (n_dofs nb)) by (auto using length_p_ext).
    rewrite (bigsum_ext (n_dofs nb) _ (fun _ => 0));
      [now rewrite bigsum_zero|].
    intros i Hi.
    destruct (constrained (bcs nb) i) eqn:Hc.
    + rewrite (Hzero i Hi Hc). lra.
    + rewrite (Hrest i Hi Hc). lra.
Qed.

(** X4. In implicit mode with beta = 1/4, gamma = 1/2, no damping and
    symmetric mass and stiffness matrices, the total energy changes over
    step k by the work of the external forces,
    1/2 (u_{k+1} - u_k).(F_k + F_{k+1}) with F_k the force at time k dt;
    over the first step (k = 0) this holds when the force at time 0 is
    zero at the unconstrained dofs, so that the fields at rest are in
    balance with it. *)
Theorem energy_balance (k : nat) :
  (k = 0%nat ->
   forall i, (i < n_dofs nb)%nat -> constrained (bcs nb) i = false ->
             nth i (p_ext nb 0) 0 = 0) ->
  let s := state_after nb k in
  let s' := state_after nb (S k) in
  total_energy nb s' - total_energy nb s
  = 1 / 2 * inner (vsub (u_vec s') (u_vec s))
              (vadd (p_ext nb (INR k * dt nb))
                    (p_ext nb (INR (k + 1) * dt nb))).
Proof.
  intros Hrest. destruct k as [|k].
  - cbn [INR]. rewrite Rmult_0_l.
    apply energy_increment_first. now apply Hrest.
  - replace (INR (S k)) with (INR (k + 1)) by (f_equal; lia).
    exact (energy_increment k).
Qed.

End EnergyBalance.

(** ** The traction and the free vibrations after its cut-off *)

Lemma traction_value_after (t_c T_max t : R) :
  t_c < t -> traction_value t_c T_max t = 0.
Proof.
  intros H. unfold traction_value. destruct (Rle_dec t t_c); [lra|reflexivity].
Qed.

Lemma traction_value_before (t_c T_max t : R) :
  t <= t_c -> traction_value t_c T_max t = T_max * t / t_c.
Proof.
  intros H. unfold traction_value. destruct (Rle_dec t t_c); [reflexivity|lra].
Qed.

(** X5. The traction ramps from 0 at t = 0 to T_max at the cut-off time
    t_c, stays between 0 and T_max, and is zero at every time after
    t_c. *)
Theorem traction_ramp (t_c T_max : R) :
  0 < t_c -> 0 <= T_max ->
  traction_value t_c T_max 0 = 0 /\
  traction_value t_c T_max t_c = T_max /\
  (forall t, 0 <= t -> 0 <= traction_value t_c T_max t <= T_max) /\
  (forall t1 t2, 0 <= t1 -> t1 <= t2 -> t2 <= t_c ->
     traction_value t_c T_max t1 <= traction_value t_c T_max t2) /\
  (forall t, t_c < t -> traction_value t_c T_max t = 0).
Proof.
  intros Htc HT.
  assert (Hinv : 0 < / t_c) by now apply Rinv_0_lt_compat.
  repeat split.
  - rewrite traction_value_before by lra. field. lra.
  - rewrite traction_value_before by lra. field. lra.
  - unfold traction_value. destruct (Rle_dec t t_c); [|lra].
    unfold Rdiv. apply Rmult_le_pos; [apply Rmult_le_pos|]; lra.
  - unfold traction_value. destruct (Rle_dec t t_c); [|lra].
    apply (Rmult_le_reg_r t_c); [assumption|].
    replace (T_max * t / t_c * t_c) with (T_max * t) by (field; lra).
    apply Rmult_le_compat_l; assumption.
  - intros t1 t2 H1 H12 H2. rewrite !traction_value_before by lra.
    unfold Rdiv. apply Rmult_le_compat_r; [lra|].
    apply Rmult_le_compat_l; assumption.
  - intros t Ht. now apply traction_value_after.
Qed.

Lemma inner_vscale_r (c : R) (x y : vector) :
  inner x (vscale c y) = c * inner x y.
Proof.
  unfold vscale. now rewrite inner_comm, inner_map_Rmult_l, inner_comm.
Qed.

Section FreeVibration.

Variable nb : notebook.
Variables (t_c T_max : R) (unit_load : vector).
Hypothesis Hwf : well_formed nb.
Hypothesis Himp : use_lumped_mass nb = false.
Hypothesis Hlu : lu_solves nb (effective_matrix nb).
Hypothesis HMsym : symmetric (n_dofs nb) (mass nb).
Hypothesis HKsym : symmetric (n_dofs nb) (stiffness nb).
Hypothesis Hm : eta_m nb = 0.
Hypothesis Hk : eta_k nb = 0.
Hypothesis Hbeta : beta nb = 1 / 4.
Hypothesis Hgamma : gamma nb = 1 / 2.
Hypothesis Hload : forall t, p_ext nb t = ramp_load t_c T_max unit_load t.
Hypothesis Hdt : 0 <= dt nb.

Lemma unloaded_after_cut_off (k m : nat) :
  t_c < INR (k + 1) * dt nb ->
  p_ext nb (INR (k + m + 1) * dt nb) = vscale 0 unit_load.
Proof.
  intros Hcut. rewrite Hload. unfold ramp_load.
  rewrite traction_value_after; [reflexivity|].
  apply Rlt_le_trans with (1 := Hcut).
  apply Rmult_le_compat_r; [assumption|]. apply le_INR. lia.
Qed.

Lemma energy_constant_after_cut_off (k m : nat) :
  t_c < INR (k + 1) * dt nb ->
  total_energy nb (state_after nb (S k + m))
  = total_energy nb (state_after nb (S k)).
Proof.
  intros Hcut. induction m as [|m IH].
  - now rewrite Nat.add_0_r.
  - rewrite <- IH.
    pose proof (energy_increment nb Hwf Himp Hlu HMsym HKsym Hm Hk
                  Hbeta Hgamma (k + m)) as Hinc.
    cbv zeta in Hinc.
    replace (S (k + m)) with (S k + m)%nat in Hinc by lia.
    replace (S (S k + m)) with (S k + S m)%nat in Hinc by lia.
    replace (S k + m + 1)%nat with (k + S m + 1)%nat in Hinc by lia.
    rewrite (unloaded_after_cut_off k m Hcut) in Hinc.
    rewrite (unloaded_after_cut_off k (S m) Hcut) in Hinc.
    rewrite (inner_lin_r (length unit_load) 0 0
               (vadd (vscale 0 unit_load) (vscale 0 unit_load))
               unit_load unit_load) in Hinc.
    + lra.
    + unfold vadd, vscale. rewrite length_map2, !length_map. lia.
    + reflexivity.
    + reflexivity.
    + intros i Hi.
      rewrite (nth_vadd (length unit_load))
        by (unfold vscale; rewrite ?length_map; auto).
      unfold vscale. rewrite nth_map_Rmult. lra.
Qed.

(** X6. Free vibrations keep the total energy: in implicit mode with
    beta = 1/4, gamma = 1/2, no damping, symmetric mass and stiffness and
    the ramp traction, every row of the energy table written after the
    cut-off time holds the same total energy. *)
Theorem energy_conserved_after_cut_off (k n1 n2 N : nat) :
  t_c < INR (k + 1) * dt nb ->
  (k <= n1)%nat -> (k <= n2)%nat ->
  (n1 < N)%nat -> (n2 < N)%nat -> (N <= num_steps nb)%nat ->
  total_energy nb (state_after nb (S n1))
  = total_energy nb (state_after nb (S n2)) /\
  nth 3 (nth (S n1) (energies (state_after nb N)) []) 0
  = nth 3 (nth (S n2) (energies (state_after nb N)) []) 0.
Proof.
  intros Hcut H1 H2 HN1 HN2 HN.
  assert (Heq : total_energy nb (state_after nb (S n1))
                = total_energy nb (state_after nb (S n2))).
  { replace (S n1) with (S k + (n1 - k))%nat by lia.
    replace (S n2) with (S k + (n2 - k))%nat by lia.
    now rewrite !energy_constant_after_cut_off. }
  split; [exact Heq|].
  pose proof (energies_written nb N n1 HN1 HN) as Hr1.
  pose proof (energies_written nb N n2 HN2 HN) as Hr2.
  cbv zeta in Hr1, Hr2. rewrite Hr1, Hr2.
  unfold energy_row. cbn [nth]. exact Heq.
Qed.

End FreeVibration.

(** ** The time grid *)

Lemma nth_times (nb : notebook) (k : nat) :
  (k <= num_steps nb)%nat -> nth k (times nb) 0 = dt nb * INR k.
Proof.
  intros Hk. unfold times. apply nth_map_seq. lia.
Qed.

(** X7. The array of times has one entry per step and one for the start;
    it begins at 0, its last entry is t_end, and the external force of
    step n is taken at entry n+1. *)
Theorem time_grid (nb : notebook) :
  num_steps nb <> 0%nat ->
  length (times nb) = (num_steps nb + 1)%nat /\
  nth 0 (times nb) 0 = 0 /\
  nth (num_steps nb) (times nb) 0 = t_end nb /\
  (forall n, (n < num_steps nb)%nat ->
     INR (n + 1) * dt nb = nth (n + 1) (times nb) 0 /\
     nth (n + 1) (times nb) 0 - nth n (times nb) 0 = dt nb).
Proof.
  intros Hn.
  assert (HINR : INR (num_steps nb) <> 0) by (apply not_0_INR; exact Hn).
  repeat split.
  - unfold times. apply length_map_seq.
  - rewrite nth_times by lia. simpl. lra.
  - rewrite nth_times by lia. unfold dt. field. exact HINR.
  - rewrite nth_times by lia. lra.
  - rewrite !nth_times by lia. rewrite plus_INR. simpl. lra.
Qed.

(** ** Superposition of the loads *)

Lemma combines_lincomb (n : nat) (c1 c2 : R) (x x1 x2 : vector) :
  combines n c1 c2 x x1 x2 -> x = lincomb c1 x1 c2 x2.
Proof.
  intros (Hx & H1 & H2 & H). unfold lincomb, vadd, vscale.
  now apply (combination n).
Qed.

Lemma combines_zeros (n : nat) (c1 c2 : R) :
  combines n c1 c2 (zeros n) (zeros n) (zeros n).
Proof.
  repeat split; try apply length_zeros.
  intros i _. rewrite nth_zeros. lra.
Qed.

Lemma combines_axpy (n : nat) (c1 c2 alpha : R) (x x1 x2 y y1 y2 : vector) :
  combines n c1 c2 x x1 x2 -> combines n c1 c2 y y1 y2 ->
  combines n c1 c2 (axpy alpha x y) (axpy alpha x1 y1) (axpy alpha x2 y2).
Proof.
  intros (Hx & Hx1 & Hx2 & Hxi) (Hy & Hy1 & Hy2 & Hyi).
  repeat split; try (apply length_axpy_n; assumption).
  intros i Hi. rewrite !nth_axpy by lia.
  rewrite (Hxi i Hi), (Hyi i Hi). lra.
Qed.

Lemma combines_mult (n : nat) (c1 c2 : R) (A : matrix) (x x1 x2 : vector) :
  square n A -> combines n c1 c2 x x1 x2 ->
  combines n c1 c2 (mult A x) (mult A x1) (mult A x2).
Proof.
  intros HA (Hx & Hx1 & Hx2 & Hxi).
  repeat split; try (rewrite length_mult; now apply square_length).
  intros i Hi. rewrite !nth_mult. now apply (inner_lin_r n).
Qed.

Lemma combines_bcs (n : nat) (c1 c2 : R) (bcs : list DirichletBC)
  (x x1 x2 : vector) :
  combines n c1 c2 x x1 x2 ->
  combines n c1 c2 (apply_bcs_vector bcs x) (apply_bcs_vector bcs x1)
    (apply_bcs_vector bcs x2).
Proof.
  intros (Hx & Hx1 & Hx2 & Hxi).
  repeat split; try (now rewrite length_apply_bcs_vector).
  intros i Hi. rewrite !nth_apply_bcs_vector.
  destruct (constrained bcs i); [lra | now apply Hxi].
Qed.

Lemma combines_product (n : nat) (c1 c2 : R) (inv x x1 x2 : vector) :
  length inv = n -> combines n c1 c2 x x1 x2 ->
  combines n c1 c2 (map2 Rmult inv x) (map2 Rmult inv x1) (map2 Rmult inv x2).
Proof.
  intros Hinv (Hx & Hx1 & Hx2 & Hxi).
  repeat split; try (rewrite length_map2; lia).
  intros i Hi.
  rewrite !(nth_map2 Rmult inv _ i 0 0 0) by lia.
  rewrite (Hxi i Hi). lra.
Qed.

(** A solver of a nonsingular system is linear in the right-hand side. *)
Lemma combines_lu_solve (nb : notebook) (c1 c2 : R) (A : matrix)
  (f f1 f2 : vector) :
  square (n_dofs nb) A -> lu_solves nb A -> nonsingular (n_dofs nb) A ->
  combines (n_dofs nb) c1 c2 f f1 f2 ->
  combines (n_dofs nb) c1 c2 (lu_solve nb A f) (lu_solve nb A f1)
    (lu_solve nb A f2).
Proof.
  intros HA Hlu Hns (Hf & Hf1 & Hf2 & Hfi).
  destruct (Hlu f Hf) as [Hx Hsol].
  destruct (Hlu f1 Hf1) as [Hx1 Hsol1].
  destruct (Hlu f2 Hf2) as [Hx2 Hsol2].
  set (x := lu_solve nb A f) in *.
  set (x1 := lu_solve nb A f1) in *.
  set (x2 := lu_solve nb A f2) in *.
  set (y := lincomb c1 x1 c2 x2).
  assert (Hy : length y = n_dofs nb).
  { unfold y, lincomb, vadd, vscale. rewrite length_map2, !length_map. lia. }
  assert (Hyi : forall i, (i < n_dofs nb)%nat ->
                          nth i y 0 = c1 * nth i x1 0 + c2 * nth i x2 0).
  { intros i Hi. unfold y, lincomb.
    rewrite (nth_vadd (n_dofs nb))
      by (unfold vscale; rewrite ?length_map; assumption).
    unfold vscale. now rewrite !nth_map_Rmult. }
  assert (Hd : vsub x y = zeros (n_dofs nb)).
  { apply Hns; [now apply length_vsub|].
    apply vector_zero; [rewrite length_mult; now apply square_length|].
    intros i Hi. rewrite nth_mult.
    rewrite (inner_lin_r (n_dofs nb) 1 (-1) (vsub x y) x y)
      by (auto using length_vsub; intros j Hj;
          rewrite (nth_vsub (n_dofs nb)) by assumption; lra).
    rewrite (inner_lin_r (n_dofs nb) c1 c2 y x1 x2) by assumption.
    rewrite <- !nth_mult, Hsol, Hsol1, Hsol2, (Hfi i Hi). lra. }
  repeat split; try assumption.
  intros i Hi. rewrite <- (Hyi i Hi).
  apply (f_equal (fun z => nth i z 0)) in Hd.
  rewrite (nth_vsub (n_dofs nb)), nth_zeros in Hd by assumption. lra.
Qed.

(** The operators and the solver of a run do not depend on its load. *)
Lemma with_load_operators (nb : notebook) (p : R -> vector) :
  dt (with_load nb p) = dt nb /\
  beta (with_load nb p) = beta nb /\
  gamma (with_load nb p) = gamma nb /\
  build_solver (with_load nb p) = build_solver nb /\
  (forall s, u_predicted (with_load nb p) s = u_predicted nb s) /\
  (forall s, v_predicted (with_load nb p) s = v_predicted nb s) /\
  (forall solver f g,
     compute_acceleration (with_load nb p) solver f g
     = compute_acceleration nb solver f g).
Proof. repeat split. Qed.

Section Superposition.

Variable nb : notebook.
Variables (c1 c2 : R) (p1 p2 : R -> vector).
Hypothesis Hwf1 : well_formed (with_load nb p1).
Hypothesis Hwf2 : well_formed (with_load nb p2).
Hypothesis Hlu :
  use_lumped_mass nb = false ->
  lu_solves nb (effective_matrix nb) /\
  nonsingular (n_dofs nb) (effective_matrix nb).

Lemma combined_acceleration (f f1 f2 : vector) :
  combines (n_dofs nb) c1 c2 f f1 f2 ->
  combines (n_dofs nb) c1 c2
    (fst (compute_acceleration nb (fst (build_solver nb)) f f))
    (fst (compute_acceleration nb (fst (build_solver nb)) f1 f1))
    (fst (compute_acceleration nb (fst (build_solver nb)) f2 f2)).
Proof.
  intros Hf. unfold build_solver.
  destruct (use_lumped_mass nb) eqn:Hl; cbn [fst compute_acceleration].
  - apply combines_bcs, combines_product; [|assumption].
    apply (length_M_lumped_inv (with_load nb p1) Hwf1).
  - destruct (Hlu eq_refl) as [Hsol Hns].
    apply combines_lu_solve; try assumption.
    apply (square_effective_matrix (with_load nb p1) Hwf1).
Qed.

Lemma combined_fields (k : nat) :
  let s := state_after (with_load nb (fun t => lincomb c1 (p1 t) c2 (p2 t))) k in
  let s1 := state_after (with_load nb p1) k in
  let s2 := state_after (with_load nb p2) k in
  combines (n_dofs nb) c1 c2 (u_vec s) (u_vec s1) (u_vec s2) /\
  combines (n_dofs nb) c1 c2 (v_vec s) (v_vec s1) (v_vec s2) /\
  combines (n_dofs nb) c1 c2 (a_vec s) (a_vec s1) (a_vec s2).
Proof.
  cbv zeta. induction k as [|k (IHu & IHv & IHa)].
  - rewrite !state_after_0.
    cbn [initial_state u_vec v_vec a_vec n_dofs with_load].
    split; [|split]; apply combines_zeros.
  - rewrite !state_after_S, !newmark_step_fields. cbv zeta.
    cbn [u_vec v_vec a_vec].
    repeat match goal with
           | |- context [with_load nb ?p] =>
               destruct (with_load_operators nb p)
                 as (-> & -> & -> & -> & Hu_ & Hv_ & Hc_);
               rewrite ?Hu_, ?Hv_, ?Hc_; clear Hu_ Hv_ Hc_
           end.
    set (s := state_after (with_load nb
                (fun t => lincomb c1 (p1 t) c2 (p2 t))) k) in *.
    set (s1 := state_after (with_load nb p1) k) in *.
    set (s2 := state_after (with_load nb p2) k) in *.
    assert (Hup : combines (n_dofs nb) c1 c2
                    (u_predicted nb s) (u_predicted nb s1) (u_predicted nb s2))
      by (unfold u_predicted; repeat apply combines_axpy; assumption).
    assert (Hvp : combines (n_dofs nb) c1 c2
                    (v_predicted nb s) (v_predicted nb s1) (v_predicted nb s2))
      by (unfold v_predicted; apply combines_axpy; assumption).
    assert (Hp : combines (n_dofs nb) c1 c2
                   (lincomb c1 (p1 (INR (k + 1) * dt nb))
                            c2 (p2 (INR (k + 1) * dt nb)))
                   (p1 (INR (k + 1) * dt nb)) (p2 (INR (k + 1) * dt nb))).
    { pose proof (length_p_ext (with_load nb p1) Hwf1 (INR (k + 1) * dt nb))
        as H1.
      pose proof (length_p_ext (with_load nb p2) Hwf2 (INR (k + 1) * dt nb))
        as H2.
      cbn [p_ext with_load n_dofs] in H1, H2.
      repeat split; try assumption.
      - unfold lincomb, vadd, vscale. rewrite length_map2, !length_map. lia.
      - intros i Hi. unfold lincomb.
        rewrite (nth_vadd (n_dofs nb))
          by (unfold vscale; rewrite ?length_map; assumption).
        unfold vscale. now rewrite !nth_map_Rmult. }
    assert (Hf : combines (n_dofs nb) c1 c2
                   (f_assembled
                      (with_load nb (fun t => lincomb c1 (p1 t) c2 (p2 t)))
                      k s)
                   (f_assembled (with_load nb p1) k s1)
                   (f_assembled (with_load nb p2) k s2)).
    { unfold f_assembled. apply combines_bcs.
      apply combines_axpy; [|apply combines_axpy; [|exact Hp]].
      - apply combines_mult; [|exact Hup].
        apply (square_K (with_load nb p1) Hwf1).
      - apply combines_mult; [|exact Hvp].
        apply (square_C (with_load nb p1) Hwf1). }
    pose proof (combined_acceleration _ _ _ Hf) as Ha.
    split; [|split].
    + apply combines_axpy; [exact Ha | exact Hup].
    + apply combines_axpy; [exact Ha | exact Hvp].
    + exact Ha.
Qed.

(** X8. The run is linear in the external force: for the force
    c1 F1 + c2 F2 the displacement, velocity and acceleration after every
    step are c1 times those of the run under F1 plus c2 times those of
    the run under F2, in lumped mode and, for a nonsingular effective
    matrix, in implicit mode. *)
Theorem superposition (k : nat) :
  let s := state_after (with_load nb (fun t => lincomb c1 (p1 t) c2 (p2 t))) k in
  let s1 := state_after (with_load nb p1) k in
  let s2 := state_after (with_load nb p2) k in
  u_vec s = lincomb c1 (u_vec s1) c2 (u_vec s2) /\
  v_vec s = lincomb c1 (v_vec s1) c2 (v_vec s2) /\
  a_vec s = lincomb c1 (a_vec s1) c2 (a_vec s2).
Proof.
  cbv zeta. destruct (combined_fields k) as (Hu & Hv & Ha).
  repeat split; now apply (combines_lincomb (n_dofs nb)).
Qed.

End Superposition.

(** ** Composition of boundary conditions *)

Lemma constrained_app (bcs1 bcs2 : list DirichletBC) (i : nat) :
  constrained (bcs1 ++ bcs2) i = constrained bcs1 i || constrained bcs2 i.
Proof. unfold constrained. apply existsb_app. Qed.

Lemma apply_bcs_vector_ext (bcs1 bcs2 : list DirichletBC) (b : vector) :
  (forall i, constrained bcs1 i = constrained bcs2 i) ->
  apply_bcs_vector bcs1 b = apply_bcs_vector bcs2 b.
Proof.
  intros H. apply (list_eq_nth 0).
  - now rewrite !length_apply_bcs_vector.
  - intros i _. now rewrite !nth_apply_bcs_vector, H.
Qed.

Lemma apply_bcs_matrix_ext (bcs1 bcs2 : list DirichletBC) (A : matrix) :
  (forall i, constrained bcs1 i = constrained bcs2 i) ->
  apply_bcs_matrix bcs1 A = apply_bcs_matrix bcs2 A.
Proof.
  intros H. apply (list_eq_nth []).
  - now rewrite !length_apply_bcs_matrix.
  - intros i _. now rewrite !nth_apply_bcs_matrix, H.
Qed.

(** X9. Boundary conditions compose: the result of applying a list of
    them to a vector or to a matrix depends only on which dofs are
    constrained, so applying them again changes nothing, and applying two
    lists one after the other is applying their concatenation, in either
    order. *)
Theorem boundary_conditions_compose (bcs1 bcs2 : list DirichletBC)
  (b : vector) (A : matrix) :
  apply_bcs_vector bcs1 (apply_bcs_vector bcs1 b) = apply_bcs_vector bcs1 b /\
  apply_bcs_matrix bcs1 (apply_bcs_matrix bcs1 A) = apply_bcs_matrix bcs1 A /\
  apply_bcs_vector bcs2 (apply_bcs_vector bcs1 b)
  = apply_bcs_vector (bcs1 ++ bcs2) b /\
  apply_bcs_matrix bcs2 (apply_bcs_matrix bcs1 A)
  = apply_bcs_matrix (bcs1 ++ bcs2) A /\
  apply_bcs_vector (bcs1 ++ bcs2) b = apply_bcs_vector (bcs2 ++ bcs1) b /\
  apply_bcs_matrix (bcs1 ++ bcs2) A = apply_bcs_matrix (bcs2 ++ bcs1) A /\
  ((forall i, constrained bcs1 i = constrained bcs2 i) ->
   apply_bcs_vector bcs1 b = apply_bcs_vector bcs2 b /\
   apply_bcs_matrix bcs1 A = apply_bcs_matrix bcs2 A).
Proof.
  assert (Hv : apply_bcs_vector bcs2 (apply_bcs_vector bcs1 b)
               = apply_bcs_vector (bcs1 ++ bcs2) b)
    by (unfold apply_bcs_vector; now rewrite fold_left_app).
  assert (Hm : apply_bcs_matrix bcs2 (apply_bcs_matrix bcs1 A)
               = apply_bcs_matrix (bcs1 ++ bcs2) A)
    by (unfold apply_bcs_matrix; now rewrite fold_left_app).
  assert (Hv1 : apply_bcs_vector bcs1 (apply_bcs_vector bcs1 b)
                = apply_bcs_vector (bcs1 ++ bcs1) b)
    by (unfold apply_bcs_vector; now rewrite fold_left_app).
  assert (Hm1 : apply_bcs_matrix bcs1 (apply_bcs_matrix bcs1 A)
                = apply_bcs_matrix (bcs1 ++ bcs1) A)
    by (unfold apply_bcs_matrix; now rewrite fold_left_app).
  split; [|split; [|split; [|split; [|split; [|split]]]]].
  - rewrite Hv1. apply apply_bcs_vector_ext.
    intros i. rewrite constrained_app. apply orb_diag.
  - rewrite Hm1. apply apply_bcs_matrix_ext.
    intros i. rewrite constrained_app. apply orb_diag.
  - exact Hv.
  - exact Hm.
  - apply apply_bcs_vector_ext. intros i.
    rewrite !constrained_app. apply orb_comm.
  - apply apply_bcs_matrix_ext. intros i.
    rewrite !constrained_app. apply orb_comm.
  - intros H. split;
      [now apply apply_bcs_vector_ext | now apply apply_bcs_matrix_ext].
Qed.

(** ** Material parameters *)

(** X10. The cell of the Lame parameters raises ZeroDivisionError exactly
    for nu = -1 or nu = 1/2.  Otherwise mu = E/(2(1+nu)); for E > 0 and
    0 <= nu < 1/2 both parameters are admissible (mu > 0, lambda >= 0);
    and in two dimensions, for E <> 0 and nu <> 1, lambda is the
    plane-stress value E nu/(1 - nu^2). *)
Theorem lame_plane_stress (dim : nat) (E0 nu : R) :
  (lame_parameters dim E0 nu = None <-> nu = -1 \/ nu = 1 / 2) /\
  (nu <> -1 -> nu <> 1 / 2 ->
   exists lambda,
     lame_parameters dim E0 nu = Some (E0 / (2 * (1 + nu)), lambda) /\
     (dim = 2%nat -> E0 <> 0 -> nu <> 1 ->
      lambda = E0 * nu / (1 - nu ^ 2)) /\
     (dim <> 2%nat -> lambda = E0 * nu / ((1 + nu) * (1 - 2 * nu))) /\
     (0 < E0 -> 0 <= nu < 1 / 2 -> 0 < E0 / (2 * (1 + nu)) /\ 0 <= lambda)).
Proof.
  split.
  - unfold lame_parameters.
    destruct (Req_dec_T (2 * (1 + nu)) 0) as [H1|H1].
    + split; [intros _; left; lra | reflexivity].
    + destruct (Req_dec_T ((1 + nu) * (1 - 2 * nu)) 0) as [H2|H2].
      * split; [intros _|reflexivity].
        apply Rmult_integral in H2. destruct H2; [left|right]; lra.
      * split; [discriminate|].
        intros [H|H]; exfalso; apply H2; rewrite H; lra.
  - intros Hm1 Hhalf.
    assert (H1 : 2 * (1 + nu) <> 0) by (intros H; apply Hm1; lra).
    assert (H2 : (1 + nu) * (1 - 2 * nu) <> 0).
    { intros H. apply Rmult_integral in H.
      destruct H; [apply Hm1 | apply Hhalf]; lra. }
    assert (H3 : 1 + nu <> 0) by lra.
    assert (H4 : 1 - 2 * nu <> 0) by lra.
    unfold lame_parameters.
    destruct (Req_dec_T (2 * (1 + nu)) 0) as [?|_]; [contradiction|].
    destruct (Req_dec_T ((1 + nu) * (1 - 2 * nu)) 0) as [?|_];
      [contradiction|].
    eexists. split; [reflexivity|]. split; [|split].
    + intros -> HE Hnu1. cbn [Nat.eqb].
      unfold plane_stress, lame_lambda, lame_mu. field.
      assert (Hsq : 1 - nu ^ 2 <> 0).
      { replace (1 - nu ^ 2) with ((1 - nu) * (1 + nu)) by ring.
        intros H. apply Rmult_integral in H. destruct H; lra. }
      assert (Hden : E0 * nu + E0 * (1 - 2 * nu) <> 0).
      { replace (E0 * nu + E0 * (1 - 2 * nu)) with (E0 * (1 - nu)) by ring.
        intros H. apply Rmult_integral in H. destruct H; lra. }
      tauto.
    + intros Hd. apply Nat.eqb_neq in Hd. now rewrite Hd.
    + intros HE [Hnu0 Hnu1].
      assert (Hmu : 0 < lame_mu E0 nu)
        by (apply Rdiv_lt_0_compat; lra).
      assert (Hla : 0 <= lame_lambda E0 nu).
      { unfold lame_lambda, Rdiv. apply Rmult_le_pos.
        - apply Rmult_le_pos; lra.
        - apply Rlt_le, Rinv_0_lt_compat, Rmult_lt_0_compat; lra. }
      split; [exact Hmu|].
      destruct (dim =? 2)%nat; [|exact Hla].
      unfold plane_stress, Rdiv. apply Rmult_le_pos.
      * apply Rmult_le_pos; [apply Rmult_le_pos|]; lra.
      * apply Rlt_le, Rinv_0_lt_compat. lra.
Qed.

(** ** Dimension and direction of the traction *)

Lemma py_setitem_in_range (l : vector) (i : Z) (x : R) :
  (0 <= i < Z.of_nat (length l))%Z ->
  py_setitem l i x = Some (set_nth (Z.to_nat i) x l).
Proof.
  intros [H0 H1]. unfold py_setitem.
  rewrite (proj2 (Z.leb_le _ _) H0), (proj2 (Z.ltb_lt _ _) H1). reflexivity.
Qed.

Lemma py_setitem_none (l : vector) (i : Z) (x : R) :
  py_setitem l i x = None
  <-> (i < - Z.of_nat (length l) \/ Z.of_nat (length l) <= i)%Z.
Proof.
  unfold py_setitem.
  destruct (Z.leb_spec 0 i), (Z.ltb_spec i (Z.of_nat (length l))),
    (Z.leb_spec (- Z.of_nat (length l)) i), (Z.ltb_spec i 0); simpl;
    split; try discriminate; try lia; intros _; try reflexivity.
Qed.

Lemma dim_2_or_3 (dim : nat) :
  (dim =? 2)%nat || (dim =? 3)%nat = true <-> dim = 2%nat \/ dim = 3%nat.
Proof. rewrite orb_true_iff, !Nat.eqb_eq. tauto. Qed.

(** X11. The cells that depend on the dimension and on the direction of
    the traction raise ValueError exactly when dim is neither 2 nor 3,
    and IndexError exactly when T_dir is outside -dim .. dim-1; so the
    direction z (T_dir = 2) is refused in two dimensions.  For a
    direction 0 <= T_dir < dim the traction has dim components, all zero
    but the one of index T_dir, and the sides are held by two more
    boundary conditions when T_dir is 0. *)
Theorem setup_dimension_and_direction (dim : nat) (T_dir : Z)
  (t_c T_max t : R) :
  (setup dim T_dir t_c T_max t = ValueError <-> dim <> 2%nat /\ dim <> 3%nat) /\
  (setup dim T_dir t_c T_max t = IndexError
   <-> (dim = 2%nat \/ dim = 3%nat) /\
       (T_dir < - Z.of_nat dim \/ Z.of_nat dim <= T_dir)%Z) /\
  setup 2 2 t_c T_max t = IndexError /\
  ((dim = 2%nat \/ dim = 3%nat) -> (0 <= T_dir < Z.of_nat dim)%Z ->
   exists traction,
     setup dim T_dir t_c T_max t
     = SetupDone dim traction (if (T_dir =? 0)%Z then 3%nat else 1%nat) /\
     length traction = dim /\
     forall j, (j < dim)%nat ->
       nth j traction 0
       = if (j =? Z.to_nat T_dir)%nat then traction_value t_c T_max t else 0).
Proof.
  assert (Hlen : length (repeat 0 dim) = dim) by apply repeat_length.
  split; [|split; [|split]].
  - unfold setup. destruct ((dim =? 2)%nat || (dim =? 3)%nat) eqn:Hd.
    + apply dim_2_or_3 in Hd.
      destruct (py_setitem _ _ _); split; try discriminate; lia.
    + split; [intros _|reflexivity].
      split; intros ->; discriminate.
  - unfold setup. destruct ((dim =? 2)%nat || (dim =? 3)%nat) eqn:Hd.
    + apply dim_2_or_3 in Hd.
      destruct (py_setitem (repeat 0 dim) T_dir (traction_value t_c T_max t))
        eqn:Hp.
      * split; [discriminate|]. intros [_ H].
        rewrite <- Hlen in H at 1 2.
        pose proof (proj2 (py_setitem_none _ _ (traction_value t_c T_max t)) H)
          as Hnone.
        rewrite Hp in Hnone. discriminate.
      * split; [intros _|reflexivity]. split; [exact Hd|].
        apply py_setitem_none in Hp. now rewrite Hlen in Hp.
    + split; [discriminate|]. intros [H _]. apply dim_2_or_3 in H. congruence.
  - reflexivity.
  - intros Hd Hdir. apply dim_2_or_3 in Hd. unfold setup. rewrite Hd.
    rewrite py_setitem_in_range by (now rewrite Hlen).
    eexists. split; [reflexivity|]. split.
    + now rewrite length_set_nth.
    + intros j Hj. destruct (Nat.eqb_spec j (Z.to_nat T_dir)) as [->|Hne].
      * apply nth_set_nth_eq. rewrite Hlen. lia.
      * rewrite nth_set_nth_neq by congruence. now apply nth_repeat_lt.
Qed.

(** ** The constitutive law *)

Lemma square_tensor_of (d : nat) (f : nat -> nat -> R) :
  square d (tensor_of d f).
Proof.
  split.
  - unfold tensor_of. now rewrite length_map, length_seq.
  - apply Forall_forall. intros row Hin. unfold tensor_of in Hin.
    apply in_map_iff in Hin. destruct Hin as (i & <- & _).
    now rewrite length_map, length_seq.
Qed.

Lemma entry_tensor_of (d : nat) (f : nat -> nat -> R) (i j : nat) :
  (i < d)%nat -> (j < d)%nat -> entry (tensor_of d f) i j = f i j.
Proof.
  intros Hi Hj. unfold entry, tensor_of.
  rewrite (nth_indep _ [] (map (fun j => f 0%nat j) (seq 0 d)))
    by (now rewrite length_map, length_seq).
  rewrite (map_nth (fun i => map (fun j => f i j) (seq 0 d))).
  rewrite seq_nth by assumption. now rewrite nth_map_seq.
Qed.

Lemma bigsum_delta (d i : nat) (g : nat -> R) :
  (i < d)%nat ->
  bigsum d (fun j => (if Nat.eqb i j then 1 else 0) * g j) = g i.
Proof.
  induction d as [|d IH]; intros Hi; [lia|]. simpl.
  destruct (Nat.eqb_spec i d) as [->|Hne].
  - rewrite (bigsum_ext d _ (fun _ => 0)).
    + rewrite bigsum_zero. lra.
    + intros j Hj. destruct (Nat.eqb_spec d j); [lia | lra].
  - rewrite IH by lia. lra.
Qed.

Lemma bigsum_nonneg (n : nat) (f : nat -> R) :
  (forall i, (i < n)%nat -> 0 <= f i) -> 0 <= bigsum n f.
Proof.
  induction n as [|n IH]; intros H; simpl; [lra|].
  assert (0 <= bigsum n f) by (apply IH; intros i Hi; apply H; lia).
  assert (0 <= f n) by (apply H; lia). lra.
Qed.

Lemma entry_stress_strain (d : nat) (lambda mu : R) (eps : matrix)
  (i j : nat) :
  square d eps -> (i < d)%nat -> (j < d)%nat ->
  entry (stress_strain d lambda mu eps) i j
  = lambda * tr d eps * (if Nat.eqb i j then 1 else 0)
    + 2 * mu * entry eps i j.
Proof.
  intros He Hi Hj. unfold stress_strain.
  pose proof (square_tensor_of d (fun i j => if Nat.eqb i j then 1 else 0))
    as HI. fold (Identity d) in HI.
  rewrite (entry_madd d) by (auto using square_mscale).
  rewrite !(entry_mscale d) by assumption.
  unfold Identity. rewrite entry_tensor_of by assumption. lra.
Qed.

Lemma entry_sym (d : nat) (A : matrix) (i j : nat) :
  square d A -> (i < d)%nat -> (j < d)%nat ->
  entry (sym d A) i j = 0.5 * (entry A i j + entry A j i).
Proof.
  intros HA Hi Hj. unfold sym, transpose.
  rewrite (entry_mscale d), (entry_madd d), entry_tensor_of;
    auto using square_madd, square_tensor_of.
Qed.

(** X12. The strain is a symmetric tensor whatever the gradient, it is
    the gradient itself when that is symmetric, and the stress of a
    symmetric strain is symmetric, with trace (dim lambda + 2 mu) times
    the trace of the strain. *)
Theorem strain_and_stress_symmetric (d : nat) (lambda mu : R)
  (grad_u : matrix) :
  square d grad_u ->
  let eps := strain_displacement d grad_u in
  let sigma := stress_strain d lambda mu eps in
  square d eps /\ symmetric d eps /\
  square d sigma /\ symmetric d sigma /\
  (symmetric d grad_u ->
   forall i j, (i < d)%nat -> (j < d)%nat ->
               entry eps i j = entry grad_u i j) /\
  tr d sigma = (INR d * lambda + 2 * mu) * tr d eps.
Proof.
  intros HG eps sigma.
  assert (Heps : square d eps).
  { unfold eps, strain_displacement, sym, transpose.
    apply square_mscale, square_madd; [exact HG | apply square_tensor_of]. }
  assert (Hsym : symmetric d eps).
  { intros i j Hi Hj. unfold eps, strain_displacement.
    rewrite !entry_sym by assumption. lra. }
  split; [exact Heps|]. split; [exact Hsym|]. split; [|split; [|split]].
  - apply square_madd; apply square_mscale;
      [apply square_tensor_of | exact Heps].
  - intros i j Hi Hj. unfold sigma.
    rewrite !entry_stress_strain by assumption.
    rewrite (Hsym i j Hi Hj), (Nat.eqb_sym j i). reflexivity.
  - intros HGs i j Hi Hj. unfold eps, strain_displacement.
    rewrite entry_sym by assumption. rewrite (HGs j i Hj Hi). lra.
  - unfold tr at 1, sigma.
    rewrite (bigsum_ext d _
               (fun i => lambda * tr d eps * 1 + 2 * mu * entry eps i i)).
    + rewrite bigsum_plus, !bigsum_scal.
      fold (tr d eps).
      assert (Hone : forall c n, bigsum n (fun _ => c) = INR n * c).
      { intros c n. induction n as [|n IH]; [simpl; lra|].
        change (bigsum (S n) (fun _ => c)) with (bigsum n (fun _ => c) + c).
        rewrite IH, S_INR. lra. }
      rewrite Hone. ring.
    + intros i Hi. rewrite entry_stress_strain by assumption.
      now rewrite Nat.eqb_refl.
Qed.

Lemma tensor_inner_stress (d : nat) (lambda mu : R) (e1 e2 : matrix) :
  square d e1 ->
  tensor_inner d (stress_strain d lambda mu e1) e2
  = lambda * tr d e1 * tr d e2 + 2 * mu * tensor_inner d e1 e2.
Proof.
  intros H1. unfold tensor_inner.
  rewrite (bigsum_ext d _
             (fun i => lambda * tr d e1 * entry e2 i i
                       + 2 * mu * bigsum d (fun j => entry e1 i j * entry e2 i j))).
  - rewrite bigsum_plus, !bigsum_scal. reflexivity.
  - intros i Hi.
    rewrite (bigsum_ext d _
               (fun j => lambda * tr d e1
                         * ((if Nat.eqb i j then 1 else 0) * entry e2 i j)
                         + 2 * mu * (entry e1 i j * entry e2 i j))).
    + rewrite bigsum_plus, !bigsum_scal, bigsum_delta by assumption.
      reflexivity.
    + intros j Hj. rewrite entry_stress_strain by assumption. lra.
Qed.

(** X13. The integrand of the stiffness form, the stress of one strain
    against another, is lambda tr(e1) tr(e2) + 2 mu e1:e2: it is
    symmetric in the two strains, and for lambda, mu >= 0 the elastic
    energy density of a strain is never negative. *)
Theorem stiffness_integrand (d : nat) (lambda mu : R) (e1 e2 : matrix) :
  square d e1 -> square d e2 ->
  tensor_inner d (stress_strain d lambda mu e1) e2
  = lambda * tr d e1 * tr d e2 + 2 * mu * tensor_inner d e1 e2 /\
  tensor_inner d (stress_strain d lambda mu e1) e2
  = tensor_inner d (stress_strain d lambda mu e2) e1 /\
  (0 <= lambda -> 0 <= mu ->
   0 <= tensor_inner d (stress_strain d lambda mu e1) e1).
Proof.
  intros H1 H2. split; [now apply tensor_inner_stress|]. split.
  - rewrite !tensor_inner_stress by assumption.
    replace (tensor_inner d e2 e1) with (tensor_inner d e1 e2); [lra|].
    unfold tensor_inner. apply bigsum_ext. intros i _.
    apply bigsum_ext. intros j _. lra.
  - intros Hl Hmu. rewrite tensor_inner_stress by assumption.
    assert (0 <= tr d e1 * tr d e1) by nra.
    assert (0 <= tensor_inner d e1 e1).
    { unfold tensor_inner. apply bigsum_nonneg. intros i _.
      apply bigsum_nonneg. intros j _. nra. }
    nra.
Qed.

(** ** The Newton-Raphson solver *)

Section Newton.

Variable U : Type.
Variable solve_increment : U -> U.
Variable add : U -> U -> U.
Variable norm : U -> R.
Variable residual_norm : U -> R.
Variables (rtol atol : R).

(** What the [else] clause of the loop raises after [m] iterations. *)
Lemma newton_iterations_from (u0 : U) (r : nat) :
  forall (k : nat) (last : option (R * R)) (calls : list (monitor_call U)),
    let run := newton_iterations U solve_increment add norm residual_norm
                 r k rtol atol (iterate U solve_increment add k u0) last calls in
    (exists j, (k <= j < k + r)%nat /\ converged U solve_increment add norm rtol atol (iterate U solve_increment add j u0) /\
               (forall i, (k <= i < j)%nat -> ~ converged U solve_increment add norm rtol atol (iterate U solve_increment add i u0)) /\
               run = (Returned j, iterate U solve_increment add (S j) u0,
                      calls ++ map (call_of U solve_increment add norm residual_norm u0) (seq k (S j - k)))) \/
    ((forall i, (k <= i < k + r)%nat -> ~ converged U solve_increment add norm rtol atol (iterate U solve_increment add i u0)) /\
     run = (match r with
            | O => match last with
                   | Some (nu, nd) => CouldNotConverge nu nd
                   | None => UnboundLocalError
                   end
            | S r' => CouldNotConverge (norm (iterate U solve_increment add (k + r) u0))
                        (norm (solve_increment (iterate U solve_increment add (k + r') u0)))
            end, iterate U solve_increment add (k + r) u0, calls ++ map (call_of U solve_increment add norm residual_norm u0) (seq k r))).
Proof.
  induction r as [|r IH]; intros k last calls; cbv zeta.
  - right. split; [intros i Hi; lia|].
    simpl. now rewrite Nat.add_0_r, app_nil_r.
  - cbn [newton_iterations].
    change (add (iterate U solve_increment add k u0) (solve_increment (iterate U solve_increment add k u0)))
      with (iterate U solve_increment add (S k) u0).
    destruct (Rle_dec (norm (solve_increment (iterate U solve_increment add k u0)))
                (rtol * norm (iterate U solve_increment add (S k) u0) + atol)) as [Hc|Hc].
    + left. exists k. split; [lia|]. split; [exact Hc|].
      split; [intros i Hi; lia|].
      replace (S k - k)%nat with 1%nat by lia. reflexivity.
    + specialize (IH (S k)
                    (Some (norm (iterate U solve_increment add (S k) u0),
                           norm (solve_increment (iterate U solve_increment add k u0))))
                    (calls ++ [call_of U solve_increment add norm residual_norm u0 k])).
      cbv zeta in IH.
      change {| mc_iteration := k; mc_u := iterate U solve_increment add (S k) u0;
                mc_norm_u := norm (iterate U solve_increment add (S k) u0);
                mc_norm_delta_u := norm (solve_increment (iterate U solve_increment add k u0));
                mc_norm_residual := residual_norm (iterate U solve_increment add (S k) u0) |}
        with (call_of U solve_increment add norm residual_norm u0 k).
      destruct IH as [(j & Hj & Hcj & Hfirst & ->) | (Hnone & ->)].
      * left. exists j. split; [lia|]. split; [exact Hcj|]. split.
        -- intros i Hi. destruct (Nat.eq_dec i k) as [->|Hne];
             [exact Hc | apply Hfirst; lia].
        -- replace (S j - k)%nat with (S (S j - S k)) by lia.
           now rewrite <- app_assoc.
      * right. split.
        -- intros i Hi. destruct (Nat.eq_dec i k) as [->|Hne];
             [exact Hc | apply Hnone; lia].
        -- replace (S k + r)%nat with (k + S r)%nat by lia.
           rewrite <- app_assoc. cbn [app seq map].
           destruct r as [|r'].
           ++ replace (k + 1)%nat with (S k) by lia.
              now rewrite Nat.add_0_r.
           ++ now replace (S k + r')%nat with (k + S r')%nat by lia.
Qed.

Lemma newton_returns_iff (u0 : U) (m j : nat) (u' : U)
  (calls : list (monitor_call U)) :
  newton_solver U solve_increment add norm residual_norm u0 m rtol atol = (Returned j, u', calls)
  <-> (j < m)%nat /\ converged U solve_increment add norm rtol atol (iterate U solve_increment add j u0) /\
      (forall i, (i < j)%nat -> ~ converged U solve_increment add norm rtol atol (iterate U solve_increment add i u0)) /\
      u' = iterate U solve_increment add (S j) u0 /\
      calls = map (call_of U solve_increment add norm residual_norm u0) (seq 0 (S j)).
Proof.
  unfold newton_solver.
  pose proof (newton_iterations_from u0 m 0 None []) as H. cbv zeta in H.
  cbn [iterate app] in H.
  destruct H as [(j' & Hj' & Hc & Hfirst & ->) | (Hnone & ->)].
  - rewrite Nat.sub_0_r. split.
    + intros Heq. injection Heq as <- <- <-.
      split; [lia|]. split; [exact Hc|].
      split; [intros i Hi; apply Hfirst; lia|]. now split.
    + intros (Hj & Hcj & Hfj & -> & ->).
      destruct (Nat.lt_trichotomy j j') as [Hlt|[->|Hgt]].
      * exfalso. apply (Hfirst j); [lia | exact Hcj].
      * reflexivity.
      * exfalso. apply (Hfj j'); assumption.
  - split.
    + destruct m; discriminate.
    + intros (Hj & Hcj & _). exfalso. apply (Hnone j); [lia | exact Hcj].
Qed.

Lemma newton_fails (u0 : U) (m : nat) :
  (forall i, (i < m)%nat -> ~ converged U solve_increment add norm rtol atol (iterate U solve_increment add i u0)) ->
  newton_solver U solve_increment add norm residual_norm u0 m rtol atol
  = (match m with
     | O => UnboundLocalError
     | S m' => CouldNotConverge (norm (iterate U solve_increment add m u0))
                 (norm (solve_increment (iterate U solve_increment add m' u0)))
     end, iterate U solve_increment add m u0, map (call_of U solve_increment add norm residual_norm u0) (seq 0 m)).
Proof.
  intros Hnone. unfold newton_solver.
  pose proof (newton_iterations_from u0 m 0 None []) as H. cbv zeta in H.
  cbn [iterate app] in H.
  destruct H as [(j & Hj & Hc & _) | (_ & ->)].
  - exfalso. apply (Hnone j); [lia | exact Hc].
  - reflexivity.
Qed.

(** X14. [newton_solver] returns k exactly when k < max_iter is the
    first iteration whose increment meets the criterion
    norm(delta_u) <= rtol norm(u) + atol; the function u is then the
    iterate k+1, updated k+1 times, and the monitor has been called once
    per iteration, in order, with the iterate and the norms of that
    iteration. *)
Theorem newton_solver_returns (u0 : U) (max_iter k : nat) (u' : U)
  (calls : list (monitor_call U)) :
  newton_solver U solve_increment add norm residual_norm u0 max_iter rtol atol = (Returned k, u', calls)
  <-> (k < max_iter)%nat /\ converged U solve_increment add norm rtol atol (iterate U solve_increment add k u0) /\
      (forall i, (i < k)%nat -> ~ converged U solve_increment add norm rtol atol (iterate U solve_increment add i u0)) /\
      u' = iterate U solve_increment add (S k) u0 /\
      calls = map (call_of U solve_increment add norm residual_norm u0) (seq 0 (S k)).
Proof. apply newton_returns_iff. Qed.

(** X15. When no iteration below max_iter meets the criterion,
    [newton_solver] raises: for max_iter = 0 the error is an
    UnboundLocalError, the message of the intended error reading norms
    that were never assigned; for max_iter > 0 it is the RuntimeError
    with the norms of the last iteration, and u is left at the iterate
    max_iter, not restored. *)
Theorem newton_solver_raises (u0 : U) (max_iter : nat) :
  (forall i, (i < max_iter)%nat -> ~ converged U solve_increment add norm rtol atol (iterate U solve_increment add i u0)) ->
  newton_solver U solve_increment add norm residual_norm u0 0 rtol atol = (UnboundLocalError, u0, []) /\
  newton_solver U solve_increment add norm residual_norm u0 max_iter rtol atol
  = (match max_iter with
     | O => UnboundLocalError
     | S m' => CouldNotConverge (norm (iterate U solve_increment add max_iter u0))
                 (norm (solve_increment (iterate U solve_increment add m' u0)))
     end, iterate U solve_increment add max_iter u0, map (call_of U solve_increment add norm residual_norm u0) (seq 0 max_iter)) /\
  (forall k u' calls,
     newton_solver U solve_increment add norm residual_norm u0 max_iter rtol atol <> (Returned k, u', calls)).
Proof.
  intros Hnone. split; [reflexivity|]. split; [now apply newton_fails|].
  intros k u' calls H. apply newton_returns_iff in H.
  destruct H as (Hk & Hc & _). now apply (Hnone k).
Qed.

(** X16. A solve that returns k does not depend on max_iter beyond k:
    every larger bound gives the same result, the same u and the same
    calls of the monitor. *)
Theorem newton_solver_max_iter (u0 : U) (max_iter k : nat) (u' : U)
  (calls : list (monitor_call U)) :
  newton_solver U solve_increment add norm residual_norm u0 max_iter rtol atol = (Returned k, u', calls) ->
  forall m, (k < m)%nat -> newton_solver U solve_increment add norm residual_norm u0 m rtol atol = (Returned k, u', calls).
Proof.
  intros H m Hm. apply newton_returns_iff in H. apply newton_returns_iff.
  destruct H as (_ & H). split; assumption.
Qed.

(** X17. With [my_monitor], a solve that returns k appends k+1 functions
    to the list of iterates, the iterates 1 to k+1 in order; the last of
    the list is the solution the solve leaves in u. *)
Theorem my_monitor_keeps_iterates (u0 : U) (max_iter k : nat) (u' : U)
  (calls : list (monitor_call U)) (iterates : list U) :
  newton_solver U solve_increment add norm residual_norm u0 max_iter rtol atol = (Returned k, u', calls) ->
  let iterates' := my_monitor_iterates U iterates calls in
  iterates' = iterates ++ map (fun i => iterate U solve_increment add (S i) u0) (seq 0 (S k)) /\
  length iterates' = (length iterates + S k)%nat /\
  last iterates' u0 = u' /\
  map (@mc_iteration U) calls = seq 0 (S k).
Proof.
  intros H. apply newton_returns_iff in H.
  destruct H as (_ & _ & _ & -> & ->). cbv zeta. unfold my_monitor_iterates.
  rewrite !map_map. cbn [call_of mc_u mc_iteration].
  split; [reflexivity|]. split; [|split].
  - now rewrite length_app, length_map, length_seq.
  - rewrite seq_S, map_app, app_assoc. cbn [map]. apply last_last.
  - apply map_id.
Qed.

End Newton.

(** ** Load stepping *)

Section Stepping.

Variable U : Type.
Variable solve_at : R -> U -> U.
Variable add : U -> U -> U.
Variable norm : U -> R.
Variable residual_norm : U -> R.
Variable end_displacement : U -> R.

Lemma load_stepping_spec (loads : list R) :
  forall (i : nat) (u : U) (displ : vector),
    let '(out, _, displ') :=
      load_stepping U solve_at add norm residual_norm end_displacement
        loads i u displ in
    length displ' = length displ /\
    (forall j, (j < i)%nat -> nth j displ' 0 = nth j displ 0) /\
    match out with
    | AllSolved =>
        forall j, (i + length loads <= j)%nat -> nth j displ' 0 = nth j displ 0
    | Raised i' e =>
        (i <= i' < i + length loads)%nat /\
        (forall k, e <> Returned k) /\
        (forall j, (i' <= j)%nat -> nth j displ' 0 = nth j displ 0)
    end.
Proof.
  induction loads as [|t loads IH]; intros i u displ.
  - cbn [load_stepping]. repeat split; reflexivity.
  - cbn [load_stepping].
    destruct (newton_solver U (solve_at (- t)) add norm residual_norm
                u 100 1e-6 1e-6) as [[out u'] calls].
    destruct out as [k|nu nd|].
    + specialize (IH (S i) u' (set_nth i (end_displacement u') displ)).
      destruct (load_stepping U solve_at add norm residual_norm
                  end_displacement loads (S i) u'
                  (set_nth i (end_displacement u') displ))
        as [[out' u''] displ'].
      destruct IH as (Hlen & Hbefore & Hout).
      rewrite length_set_nth in Hlen. split; [exact Hlen|]. split.
      * intros j Hj. rewrite Hbefore by lia.
        apply nth_set_nth_neq. lia.
      * destruct out' as [|i' e].
        -- intros j Hj. cbn [length] in Hj. rewrite Hout by lia.
           apply nth_set_nth_neq. lia.
        -- destruct Hout as (Hi' & He & Hafter). cbn [length].
           split; [lia|]. split; [exact He|].
           intros j Hj. rewrite Hafter by assumption.
           apply nth_set_nth_neq. lia.
    + cbn [length]. repeat split; try reflexivity; try lia. discriminate.
    + cbn [length]. repeat split; try reflexivity; try lia. discriminate.
Qed.

(** X18. The load stepping keeps one displacement per load.  When the
    solver raises at load i the loop ends there: the error is not a
    return value, i is the index of a load, and the displacements of
    load i and of all later loads are still the zeros of the
    allocation. *)
Theorem load_stepping_stops_at_first_failure (loads : list R) (u : U) :
  let '(out, _, displ) :=
    validation_run U solve_at add norm residual_norm end_displacement
      loads u in
  length displ = length loads /\
  match out with
  | AllSolved => True
  | Raised i e =>
      (i < length loads)%nat /\
      (forall k, e <> Returned k) /\
      (forall j, (i <= j)%nat -> nth j displ 0 = 0)
  end.
Proof.
  unfold validation_run.
  pose proof (load_stepping_spec loads 0 u (zeros (length loads))) as H.
  destruct (load_stepping U solve_at add norm residual_norm end_displacement
              loads 0 u (zeros (length loads))) as [[out u'] displ].
  destruct H as (Hlen & _ & Hout). rewrite length_zeros in Hlen.
  split; [exact Hlen|]. destruct out as [|i e]; [exact I|].
  destruct Hout as (Hi & He & Hafter). split; [lia|]. split; [exact He|].
  intros j Hj. rewrite Hafter by assumption. apply nth_zeros.
Qed.

End Stepping.

(** ** The further properties at the two-dof bar *)

Lemma bar_implicit_nonsingular :
  nonsingular 2 (effective_matrix bar_implicit).
Proof.
  rewrite bar_implicit_effective_matrix. apply cramer2_nonsingular. lra.
Qed.

(** ** The effective system of the implicit variant *)


Section EffectiveSystem.

Variable nb : notebook.
Hypothesis Hwf : well_formed nb.
Hypothesis Himplicit : use_lumped_mass nb = false.



End EffectiveSystem.



Lemma bar_ramp_well_formed : well_formed bar_ramp.
Proof. repeat split; repeat constructor. Qed.

Lemma bar_ramp_effective_matrix :
  effective_matrix bar_ramp = [[1; 0]; [3 / 4; 9 / 4]].
Proof. unfold_bar. real_list_eq. Qed.

Lemma bar_ramp_lu_solves : lu_solves bar_ramp (effective_matrix bar_ramp).
Proof.
  intros f Hf. rewrite bar_ramp_effective_matrix.
  apply cramer2_solves; [lra | exact Hf].
Qed.

Lemma bar_ramp_dt : dt bar_ramp = 1.
Proof. unfold dt. simpl. lra. Qed.

Lemma equation_of_motion_witness :
  well_formed bar_implicit /\
  use_lumped_mass bar_implicit = false /\
  lu_solves bar_implicit (effective_matrix bar_implicit) /\
  (1 < n_dofs bar_implicit)%nat /\
  constrained (bcs bar_implicit) 1 = false /\
  let s' := state_after bar_implicit 2 in
  nth 1 (mult (mass bar_implicit) (a_vec s')) 0
  + nth 1 (mult (damping bar_implicit) (v_vec s')) 0
  + nth 1 (mult (stiffness bar_implicit) (u_vec s')) 0
  = nth 1 (p_ext bar_implicit (INR (1 + 1) * dt bar_implicit)) 0.
Proof.
  split; [exact bar_implicit_well_formed|].
  split; [reflexivity|].
  split; [exact bar_implicit_lu_solves|].
  split; [simpl; lia|].
  split; [reflexivity|].
  apply (equation_of_motion bar_implicit bar_implicit_well_formed 1 1
           eq_refl bar_implicit_lu_solves); [simpl; lia | reflexivity].
Defined.

Lemma explicit_displacement_witness :
  well_formed bar_lumped /\
  solver_ok bar_lumped /\
  beta bar_lumped = 0 /\
  (1 < n_dofs bar_lumped)%nat /\
  let s := state_after bar_lumped 1 in
  nth 1 (u_vec (state_after bar_lumped 2)) 0
  = nth 1 (u_vec s) 0 + dt bar_lumped * nth 1 (v_vec s) 0
    + dt bar_lumped ^ 2 / 2 * nth 1 (a_vec s) 0.
Proof.
  split; [exact bar_lumped_well_formed|].
  split; [exact bar_lumped_solver_ok|].
  split; [reflexivity|].
  split; [simpl; lia|].
  apply (explicit_displacement bar_lumped 1 1 bar_lumped_well_formed
           bar_lumped_solver_ok eq_refl). simpl; lia.
Defined.

Lemma no_damping_no_dissipation_witness :
  well_formed bar_implicit /\
  eta_m bar_implicit = 0 /\
  eta_k bar_implicit = 0 /\
  (1 < 2)%nat /\
  (2 <= num_steps bar_implicit)%nat /\
  E_damp (state_after bar_implicit 2) = 0 /\
  nth 2 (nth 2 (energies (state_after bar_implicit 2)) []) 0 = 0.
Proof.
  split; [exact bar_implicit_well_formed|].
  split; [reflexivity|]. split; [reflexivity|].
  split; [lia|]. split; [simpl; lia|].
  destruct (no_damping_no_dissipation bar_implicit bar_implicit_well_formed
              eq_refl eq_refl 2 1 ltac:(lia) ltac:(simpl; lia))
    as (H0 & H2 & _).
  split; [exact H0 | exact H2].
Defined.

Lemma energy_balance_witness :
  well_formed bar_implicit /\
  use_lumped_mass bar_implicit = false /\
  lu_solves bar_implicit (effective_matrix bar_implicit) /\
  symmetric (n_dofs bar_implicit) (mass bar_implicit) /\
  symmetric (n_dofs bar_implicit) (stiffness bar_implicit) /\
  eta_m bar_implicit = 0 /\
  eta_k bar_implicit = 0 /\
  beta bar_implicit = 1 / 4 /\
  gamma bar_implicit = 1 / 2 /\
  (forall i, (i < n_dofs bar_implicit)%nat ->
     constrained (bcs bar_implicit) i = false ->
     nth i (p_ext bar_implicit 0) 0 = 0) /\
  (let s := state_after bar_implicit 0 in
   let s' := state_after bar_implicit 1 in
   total_energy bar_implicit s' - total_energy bar_implicit s
   = 1 / 2 * inner (vsub (u_vec s') (u_vec s))
               (vadd (p_ext bar_implicit (INR 0 * dt bar_implicit))
                     (p_ext bar_implicit (INR (0 + 1) * dt bar_implicit)))) /\
  (let s := state_after bar_implicit 1 in
   let s' := state_after bar_implicit 2 in
   total_energy bar_implicit s' - total_energy bar_implicit s
   = 1 / 2 * inner (vsub (u_vec s') (u_vec s))
               (vadd (p_ext bar_implicit (INR 1 * dt bar_implicit))
                     (p_ext bar_implicit (INR (1 + 1) * dt bar_implicit)))).
Proof.
  assert (Hb : beta bar_implicit = 1 / 4) by (simpl; lra).
  assert (Hg : gamma bar_implicit = 1 / 2) by (simpl; lra).
  assert (Hrest : forall i, (i < n_dofs bar_implicit)%nat ->
            constrained (bcs bar_implicit) i = false ->
            nth i (p_ext bar_implicit 0) 0 = 0).
  { intros [|[|i]] Hi _; [reflexivity | reflexivity | simpl in Hi; lia]. }
  split; [exact bar_implicit_well_formed|].
  split; [reflexivity|].
  split; [exact bar_implicit_lu_solves|].
  split; [apply symmetric_2|]. split; [apply symmetric_2|].
  split; [reflexivity|]. split; [reflexivity|].
  split; [exact Hb|]. split; [exact Hg|].
  split; [exact Hrest|].
  split.
  - exact (energy_balance bar_implicit bar_implicit_well_formed eq_refl
             bar_implicit_lu_solves (symmetric_2 2 1 2) (symmetric_2 1 (-1) 1)
             eq_refl eq_refl Hb Hg 0 (fun _ => Hrest)).
  - apply (energy_balance bar_implicit bar_implicit_well_formed eq_refl
             bar_implicit_lu_solves (symmetric_2 2 1 2) (symmetric_2 1 (-1) 1)
             eq_refl eq_refl Hb Hg 1).
    intros H. discriminate H.
Defined.

Lemma traction_ramp_witness :
  0 < 0.1 /\ 0 <= 1 /\
  traction_value 0.1 1 0.1 = 1 /\
  traction_value 0.1 1 0.12 = 0.
Proof.
  assert (Htc : 0 < 0.1) by lra. assert (HT : 0 <= 1) by lra.
  split; [exact Htc|]. split; [exact HT|].
  destruct (traction_ramp 0.1 1 Htc HT) as (_ & Hend & _ & _ & Hafter).
  split; [exact Hend | apply Hafter; lra].
Defined.

Lemma energy_conserved_after_cut_off_witness :
  well_formed bar_ramp /\
  lu_solves bar_ramp (effective_matrix bar_ramp) /\
  (forall t, p_ext bar_ramp t = ramp_load 1 1 [0; 1] t) /\
  0 <= dt bar_ramp /\
  1 < INR (1 + 1) * dt bar_ramp /\
  nth 3 (nth 2 (energies (state_after bar_ramp 4)) []) 0
  = nth 3 (nth 4 (energies (state_after bar_ramp 4)) []) 0.
Proof.
  assert (Hb : beta bar_ramp = 1 / 4) by (simpl; lra).
  assert (Hg : gamma bar_ramp = 1 / 2) by (simpl; lra).
  assert (Hdt : 0 <= dt bar_ramp) by (rewrite bar_ramp_dt; lra).
  assert (Hcut : 1 < INR (1 + 1) * dt bar_ramp)
    by (rewrite bar_ramp_dt; simpl; lra).
  split; [exact bar_ramp_well_formed|].
  split; [exact bar_ramp_lu_solves|].
  split; [reflexivity|]. split; [exact Hdt|]. split; [exact Hcut|].
  apply (energy_conserved_after_cut_off bar_ramp 1 1 [0; 1]
           bar_ramp_well_formed eq_refl bar_ramp_lu_solves
           (symmetric_2 2 1 2) (symmetric_2 1 (-1) 1) eq_refl eq_refl Hb Hg
           (fun _ => eq_refl) Hdt 1 1 3 4 Hcut);
    simpl; lia.
Defined.

Lemma time_grid_witness :
  num_steps bar_implicit <> 0%nat /\
  nth (num_steps bar_implicit) (times bar_implicit) 0 = t_end bar_implicit.
Proof.
  assert (Hn : num_steps bar_implicit <> 0%nat) by discriminate.
  split; [exact Hn|].
  destruct (time_grid bar_implicit Hn) as (_ & _ & Hend & _). exact Hend.
Defined.

Lemma superposition_witness :
  well_formed (with_load bar_implicit (fun t => [0; t])) /\
  well_formed (with_load bar_implicit (fun _ => [0; 1])) /\
  (use_lumped_mass bar_implicit = false ->
   lu_solves bar_implicit (effective_matrix bar_implicit) /\
   nonsingular (n_dofs bar_implicit) (effective_matrix bar_implicit)) /\
  u_vec (state_after
           (with_load bar_implicit
              (fun t => lincomb 2 [0; t] 3 [0; 1])) 2)
  = lincomb 2 (u_vec (state_after
                        (with_load bar_implicit (fun t => [0; t])) 2))
            3 (u_vec (state_after
                        (with_load bar_implicit (fun _ => [0; 1])) 2)).
Proof.
  assert (H1 : well_formed (with_load bar_implicit (fun t => [0; t])))
    by (repeat split; repeat constructor).
  assert (H2 : well_formed (with_load bar_implicit (fun _ => [0; 1])))
    by (repeat split; repeat constructor).
  split; [exact H1|]. split; [exact H2|].
  split; [intros _; split;
          [exact bar_implicit_lu_solves | exact bar_implicit_nonsingular]|].
  apply (superposition bar_implicit 2 3 (fun t => [0; t]) (fun _ => [0; 1])
           H1 H2
           (fun _ => conj bar_implicit_lu_solves bar_implicit_nonsingular) 2).
Defined.

Lemma strain_and_stress_symmetric_witness :
  square 2 [[1; 2]; [3; 4]] /\
  symmetric 2 (strain_displacement 2 [[1; 2]; [3; 4]]) /\
  symmetric 2 (stress_strain 2 3 5 (strain_displacement 2 [[1; 2]; [3; 4]])).
Proof.
  assert (HG : square 2 [[1; 2]; [3; 4]]) by (split; repeat constructor).
  split; [exact HG|].
  destruct (strain_and_stress_symmetric 2 3 5 [[1; 2]; [3; 4]] HG)
    as (_ & He & _ & Hs & _).
  split; [exact He | exact Hs].
Defined.

Lemma stiffness_integrand_witness :
  square 2 [[1; 2]; [2; 4]] /\
  square 2 [[0; 1]; [1; 0]] /\
  tensor_inner 2 (stress_strain 2 3 5 [[1; 2]; [2; 4]]) [[0; 1]; [1; 0]]
  = tensor_inner 2 (stress_strain 2 3 5 [[0; 1]; [1; 0]]) [[1; 2]; [2; 4]].
Proof.
  assert (H1 : square 2 [[1; 2]; [2; 4]]) by (split; repeat constructor).
  assert (H2 : square 2 [[0; 1]; [1; 0]]) by (split; repeat constructor).
  split; [exact H1|]. split; [exact H2|].
  destruct (stiffness_integrand 2 3 5 _ _ H1 H2) as (_ & Hsym & _).
  exact Hsym.
Defined.

(** ** The solver on the two scalar problems *)

Lemma newton_linear_converges_at_1 :
  converged R newton_linear Rplus Rabs 1e-6 1e-6
    (iterate R newton_linear Rplus 1 0).
Proof.
  unfold converged, newton_update, newton_linear. cbn [iterate].
  unfold newton_update.
  replace (1 - (0 + (1 - 0))) with 0 by lra.
  rewrite Rabs_R0.
  pose proof (Rabs_pos (0 + (1 - 0) + 0)). lra.
Qed.

Lemma newton_linear_not_converged_at_0 (i : nat) :
  (i < 1)%nat ->
  ~ converged R newton_linear Rplus Rabs 1e-6 1e-6
      (iterate R newton_linear Rplus i 0).
Proof.
  intros Hi. assert (i = 0%nat) as -> by lia.
  unfold converged, newton_update, newton_linear. cbn [iterate].
  replace (1 - 0) with 1 by lra. replace (0 + 1) with 1 by lra.
  rewrite Rabs_R1. lra.
Qed.

Lemma newton_linear_returns (m : nat) :
  (1 < m)%nat ->
  newton_solver R newton_linear Rplus Rabs (fun u => Rabs (1 - u))
    0 m 1e-6 1e-6
  = (Returned 1, iterate R newton_linear Rplus 2 0,
     map (call_of R newton_linear Rplus Rabs (fun u => Rabs (1 - u)) 0)
       (seq 0 2)).
Proof.
  intros Hm. apply newton_returns_iff.
  split; [exact Hm|]. split; [exact newton_linear_converges_at_1|].
  split; [exact newton_linear_not_converged_at_0|]. split; reflexivity.
Qed.

Lemma newton_drift_never_converges (i : nat) :
  (i < 3)%nat ->
  ~ converged R newton_drift Rplus Rabs 1e-6 1e-6
      (iterate R newton_drift Rplus i 0).
Proof.
  intros Hi. unfold converged, newton_update, newton_drift.
  rewrite Rabs_R1.
  destruct i as [|[|[|i]]]; [| | |lia]; cbn [iterate];
    unfold newton_update, newton_drift;
    (rewrite Rabs_pos_eq by lra); lra.
Qed.

Lemma newton_solver_returns_witness :
  newton_solver R newton_linear Rplus Rabs (fun u => Rabs (1 - u))
    0 100 1e-6 1e-6
  = (Returned 1, iterate R newton_linear Rplus 2 0,
     map (call_of R newton_linear Rplus Rabs (fun u => Rabs (1 - u)) 0)
       (seq 0 2)).
Proof.
  apply (proj2 (newton_solver_returns R newton_linear Rplus Rabs
                  (fun u => Rabs (1 - u)) 1e-6 1e-6 0 100 1 _ _)).
  split; [lia|]. split; [exact newton_linear_converges_at_1|].
  split; [exact newton_linear_not_converged_at_0|]. split; reflexivity.
Defined.

Lemma newton_solver_raises_witness :
  (forall i, (i < 3)%nat ->
     ~ converged R newton_drift Rplus Rabs 1e-6 1e-6
         (iterate R newton_drift Rplus i 0)) /\
  newton_solver R newton_drift Rplus Rabs Rabs 0 3 1e-6 1e-6
  = (CouldNotConverge
       (Rabs (iterate R newton_drift Rplus 3 0))
       (Rabs (newton_drift (iterate R newton_drift Rplus 2 0))),
     iterate R newton_drift Rplus 3 0,
     map (call_of R newton_drift Rplus Rabs Rabs 0) (seq 0 3)).
Proof.
  split; [exact newton_drift_never_converges|].
  destruct (newton_solver_raises R newton_drift Rplus Rabs Rabs 1e-6 1e-6
              0 3 newton_drift_never_converges) as (_ & H & _).
  exact H.
Defined.

Lemma newton_solver_max_iter_witness :
  newton_solver R newton_linear Rplus Rabs (fun u => Rabs (1 - u))
    0 100 1e-6 1e-6
  = (Returned 1, iterate R newton_linear Rplus 2 0,
     map (call_of R newton_linear Rplus Rabs (fun u => Rabs (1 - u)) 0)
       (seq 0 2)) /\
  newton_solver R newton_linear Rplus Rabs (fun u => Rabs (1 - u))
    0 2 1e-6 1e-6
  = (Returned 1, iterate R newton_linear Rplus 2 0,
     map (call_of R newton_linear Rplus Rabs (fun u => Rabs (1 - u)) 0)
       (seq 0 2)).
Proof.
  assert (H := newton_linear_returns 100 ltac:(lia)).
  split; [exact H|].
  apply (newton_solver_max_iter R newton_linear Rplus Rabs
           (fun u => Rabs (1 - u)) 1e-6 1e-6 0 100 1 _ _ H). lia.
Defined.

Lemma my_monitor_keeps_iterates_witness :
  newton_solver R newton_linear Rplus Rabs (fun u => Rabs (1 - u))
    0 100 1e-6 1e-6
  = (Returned 1, iterate R newton_linear Rplus 2 0,
     map (call_of R newton_linear Rplus Rabs (fun u => Rabs (1 - u)) 0)
       (seq 0 2)) /\
  length
    (my_monitor_iterates R [0]
       (map (call_of R newton_linear Rplus Rabs (fun u => Rabs (1 - u)) 0)
          (seq 0 2))) = 3%nat.
Proof.
  assert (H := newton_linear_returns 100 ltac:(lia)).
  split; [exact H|].
  destruct (my_monitor_keeps_iterates R newton_linear Rplus Rabs
              (fun u => Rabs (1 - u)) 1e-6 1e-6 0 100 1 _ _ [0] H)
    as (_ & Hlen & _).
  exact Hlen.
Defined.

(** ** The neo-Hookean energy *)

Lemma square_2_inv (A : matrix) :
  square 2 A -> exists a b c d, A = [[a; b]; [c; d]].
Proof.
  intros [Hlen Hrows].
  destruct A as [|r0 [|r1 [|r2 A]]]; try discriminate.
  inversion Hrows as [|? ? Hr0 Hrows']. subst.
  inversion Hrows' as [|? ? Hr1 _]. subst.
  destruct r0 as [|a [|b [|? ?]]]; try discriminate.
  destruct r1 as [|c [|d [|? ?]]]; try discriminate.
  now exists a, b, c, d.
Qed.

Lemma entry_green_lagrange (G : matrix) (i j : nat) :
  square 2 G -> (i < 2)%nat -> (j < 2)%nat ->
  entry (green_lagrange (deformation_gradient G)) i j
  = entry (strain_displacement 2 G) i j
    + 1 / 2 * bigsum 2 (fun k => entry G k i * entry G k j).
Proof.
  intros HG Hi Hj. destruct (square_2_inv G HG) as (a & b & c & d & ->).
  destruct i as [|[|i]]; [| |lia]; (destruct j as [|[|j]]; [| |lia]);
    cbv -[Rplus Rmult Rminus Ropp Rinv Rdiv IZR]; lra.
Qed.

Lemma trace_minus_twice_det (F : matrix) :
  square 2 F ->
  tr 2 (right_cauchy_green F) - 2 * det F
  = (entry F 0 0 - entry F 1 1) ^ 2 + (entry F 0 1 + entry F 1 0) ^ 2.
Proof.
  intros HF. destruct (square_2_inv F HF) as (a & b & c & d & ->).
  cbv -[Rplus Rmult Rminus Ropp Rinv Rdiv IZR]. ring.
Qed.

Lemma ln_le_minus_1 (x : R) : 0 < x -> ln x <= x - 1.
Proof.
  intros Hx. pose proof (exp_ineq1_le (ln x)) as H.
  rewrite exp_ln in H by exact Hx. lra.
Qed.

Lemma rotation_invariants (c s : R) (F : matrix) :
  square 2 F -> c ^ 2 + s ^ 2 = 1 ->
  det (tensor_mul 2 (rotation c s) F) = det F /\
  tr 2 (right_cauchy_green (tensor_mul 2 (rotation c s) F))
  = tr 2 (right_cauchy_green F).
Proof.
  intros HF Hcs. destruct (square_2_inv F HF) as (a & b & e & d & ->).
  split.
  - transitivity ((c ^ 2 + s ^ 2) * (a * d - b * e)).
    + cbv -[Rplus Rmult Rminus Ropp Rinv Rdiv IZR]. ring.
    + rewrite Hcs. cbv -[Rplus Rmult Rminus Ropp Rinv Rdiv IZR]. ring.
  - transitivity ((c ^ 2 + s ^ 2) * (a * a + e * e + (b * b + d * d))).
    + cbv -[Rplus Rmult Rminus Ropp Rinv Rdiv IZR]. ring.
    + rewrite Hcs. cbv -[Rplus Rmult Rminus Ropp Rinv Rdiv IZR]. ring.
Qed.

(** X19. The Green-Lagrange strain E = 1/2 (C - I) of the displacement
    gradient G is symmetric and is the small strain sym(G) of the linear
    notebooks plus the quadratic term 1/2 G^T G; the right Cauchy-Green
    tensor of the undeformed state is the identity. *)
Theorem green_lagrange_strain (G : matrix) :
  square 2 G ->
  symmetric 2 (green_lagrange (deformation_gradient G)) /\
  (forall i j, (i < 2)%nat -> (j < 2)%nat ->
     entry (green_lagrange (deformation_gradient G)) i j
     = entry (strain_displacement 2 G) i j
       + 1 / 2 * bigsum 2 (fun k => entry G k i * entry G k j)) /\
  right_cauchy_green (deformation_gradient [[0; 0]; [0; 0]]) = Identity 2.
Proof.
  intros HG. split; [|split].
  - intros i j Hi Hj. rewrite !entry_green_lagrange by assumption.
    unfold strain_displacement. rewrite !(entry_sym 2) by assumption.
    simpl. lra.
  - intros i j Hi Hj. now apply entry_green_lagrange.
  - cbv -[Rplus Rmult Rminus Ropp Rinv Rdiv IZR]. real_list_eq.
Qed.

(** X20. The strain energy density psi has a value exactly when
    J = det F > 0.  It is zero in the undeformed state, it is unchanged
    when a rotation is applied after the deformation, and for mu >= 0
    and lmbda >= 0 it is never negative. *)
Theorem neo_hookean_energy (mu lmbda : R) (F : matrix) :
  square 2 F ->
  (psi mu lmbda F = None <-> det F <= 0) /\
  psi mu lmbda (Identity 2) = Some 0 /\
  (forall c s, c ^ 2 + s ^ 2 = 1 ->
     psi mu lmbda (tensor_mul 2 (rotation c s) F) = psi mu lmbda F) /\
  (0 <= mu -> 0 <= lmbda ->
   forall e, psi mu lmbda F = Some e -> 0 <= e).
Proof.
  intros HF. split; [|split; [|split]].
  - unfold psi. destruct (Rlt_dec 0 (det F)) as [HJ|HJ].
    + split; [discriminate | intros H; lra].
    + split; [intros _; lra | reflexivity].
  - unfold psi.
    assert (HJ : det (Identity 2) = 1)
      by (cbv -[Rplus Rmult Rminus Ropp Rinv Rdiv IZR]; ring).
    assert (HI : tr 2 (right_cauchy_green (Identity 2)) = 2)
      by (cbv -[Rplus Rmult Rminus Ropp Rinv Rdiv IZR]; ring).
    rewrite HJ, HI, ln_1. destruct (Rlt_dec 0 1) as [_|H]; [|lra].
    f_equal. simpl. lra.
  - intros c s Hcs. unfold psi.
    destruct (rotation_invariants c s F HF Hcs) as (-> & ->). reflexivity.
  - intros Hmu Hl e. unfold psi.
    destruct (Rlt_dec 0 (det F)) as [HJ|HJ]; [|discriminate].
    intros Heq. injection Heq as <-.
    pose proof (trace_minus_twice_det F HF) as Htr.
    pose proof (ln_le_minus_1 (det F) HJ) as Hln.
    pose proof (pow2_ge_0 (entry F 0 0 - entry F 1 1)) as H1.
    pose proof (pow2_ge_0 (entry F 0 1 + entry F 1 0)) as H2.
    pose proof (pow2_ge_0 (ln (det F))) as H3.
    assert (H4 : 0 <= tr 2 (right_cauchy_green F) - 2 - 2 * ln (det F))
      by lra.
    replace (mu / 2 * (tr 2 (right_cauchy_green F) - 2) - mu * ln (det F)
             + lmbda / 2 * ln (det F) ^ 2)
      with (mu / 2 * (tr 2 (right_cauchy_green F) - 2 - 2 * ln (det F))
            + lmbda / 2 * ln (det F) ^ 2) by lra.
    assert (0 <= mu / 2 * (tr 2 (right_cauchy_green F) - 2 - 2 * ln (det F)))
      by (apply Rmult_le_pos; lra).
    assert (0 <= lmbda / 2 * ln (det F) ^ 2)
      by (apply Rmult_le_pos; lra).
    lra.
Qed.

Lemma green_lagrange_strain_witness :
  square 2 [[0; 1]; [0; 0]] /\
  entry (green_lagrange (deformation_gradient [[0; 1]; [0; 0]])) 1 1
  = entry (strain_displacement 2 [[0; 1]; [0; 0]]) 1 1
    + 1 / 2 * bigsum 2 (fun k => entry [[0; 1]; [0; 0]] k 1
                                 * entry [[0; 1]; [0; 0]] k 1).
Proof.
  assert (HG : square 2 [[0; 1]; [0; 0]]) by (split; repeat constructor).
  split; [exact HG|].
  destruct (green_lagrange_strain [[0; 1]; [0; 0]] HG) as (_ & H & _).
  apply H; lia.
Defined.

Lemma neo_hookean_energy_witness :
  square 2 [[1; 1]; [0; 1]] /\
  psi 3 5 (tensor_mul 2 (rotation 0 1) [[1; 1]; [0; 1]])
  = psi 3 5 [[1; 1]; [0; 1]].
Proof.
  assert (HF : square 2 [[1; 1]; [0; 1]]) by (split; repeat constructor).
  split; [exact HF|].
  destruct (neo_hookean_energy 3 5 [[1; 1]; [0; 1]] HF) as (_ & _ & H & _).
  apply H. lra.
Defined.

(** Under a constant force the state at rest is not in balance with the
    force at time 0, and the first step of the bar gains the energy 1/18
    for a work of 1/9. *)
Lemma first_step_out_of_balance :
  let nb := with_load bar_implicit (fun _ => [0; 1]) in
  let s := state_after nb 0 in
  let s' := state_after nb 1 in
  total_energy nb s' - total_energy nb s = 1 / 18 /\
  1 / 2 * inner (vsub (u_vec s') (u_vec s))
            (vadd (p_ext nb (INR 0 * dt nb)) (p_ext nb (INR (0 + 1) * dt nb)))
  = 1 / 9.
Proof. unfold_bar. split; simpl pow; lra. Qed.
